(** * Mystic Realms: the enhanced game server (src/enhanced_server.py)

    A shallow embedding of [EnhancedGameServer]: the spatial index built at
    start-up, the bounded spawn search, the bot publication steps, the
    load-balancer handshake and the steady-state control loop.

    Conventions.
    - Python dictionaries are [gmap]s, Python sets are [gset]s.  The order in
      which Python iterates over a set is not specified; it is a Section
      variable constrained only to enumerate the elements once each.
    - Integers are [Z].  Map coordinates are binary64 floats (pytmx hands
      them out as such): a coordinate is the rational number [Qc] the float
      stands for, and an arithmetic operation on coordinates is the exact
      operation followed by the rounding [fl] of its result.  Nothing is
      assumed about [fl], so every statement holds for the rounding
      [binary64] of the source as for any other; the examples on small
      integers compute with [unrounded], which agrees with it there.
    - A method that can raise returns a [result] (no state) or an [outcome]
      (with the server state at the point of the raise).
    - Only subclasses of [Exception] are modelled: they are what the
      [except Exception] clauses of the source catch. *)

From stdpp Require Import gmap strings list fin_maps numbers.
From Stdlib Require Import QArith Qcanon.

Local Open Scope Z_scope.
#[local] Set Warnings "-clear-no-such-hyp".

(** ** Exceptions and results *)

Inductive exn : Type :=
  | ValueError
  | KeyError
  | AttributeError
  | FileNotFoundError
  | MapParseError
  | OSError
  | socket_timeout
  | OtherException (tag : nat).

Inductive result (A : Type) : Type :=
  | Ok (a : A)
  | Err (e : exn).
Arguments Ok {A} a.
Arguments Err {A} e.

#[global] Instance result_ret : MRet result := λ A a, Ok a.
#[global] Instance result_bind : MBind result := λ A B k r,
  match r with
  | Ok a => k a
  | Err e => Err e
  end.

(** ** Configuration (the dataclasses at the top of the module) *)

Record ServerConfiguration := {
  loadBalancerPort : Z;
  udpBroadcastPort : Z;
  gameServerPort : Z;
  maxConcurrentPlayers : Z;
  botSpawnRadius : Z;
  mapCollisionRadius : Z;
  tickRate : Z;
  enableAdvancedLogging : bool;
  spatialGridCellSize : Z
}.

Definition default_ServerConfiguration : ServerConfiguration := {|
  loadBalancerPort := 5002;
  udpBroadcastPort := 5003;
  gameServerPort := 5000;
  maxConcurrentPlayers := 100;
  botSpawnRadius := 600;
  mapCollisionRadius := 80;
  tickRate := 20;
  enableAdvancedLogging := true;
  spatialGridCellSize := 1000
|}.

(** ** Map geometry *)

(** A collidable tile is the tuple [(x, width, y, height)]. *)
Definition Tile : Type := Qc * Qc * Qc * Qc.
Definition Point : Type := Qc * Qc.

Record TiledObject := {
  obj_x : Qc;
  obj_y : Qc;
  obj_width : Qc;
  obj_height : Qc
}.

(** [tmxMapData.layers]: object groups and layers of any other class. *)
Inductive Layer : Type :=
  | TiledObjectGroup (name : string) (objects : list TiledObject)
  | TiledTileLayer (name : string).

Definition TiledMap : Type := list Layer.

(** Arithmetic without rounding. *)
Definition unrounded (q : Qc) : Qc := q.

(** The integer nearest to [n / d] (for [d > 0]), the even one of two
    that are equally near. *)
Definition round_half_even (n d : Z) : Z :=
  let f := n `div` d in
  match 2 * (n `mod` d) ?= d with
  | Lt => f
  | Gt => f + 1
  | Eq => if Z.even f then f else f + 1
  end.

(** Rounding to the nearest binary64 value, ties to even: a multiple of
    [2 ^ k] with a significand of 53 bits, where [k] is 52 below the
    binary exponent of the number and at least -1074 (the subnormal
    numbers).  Overflow to infinity is left out: no coordinate of a map
    comes near [2 ^ 1024]. *)
Definition binary64 (q : Qc) : Qc :=
  let n := Qnum q in
  let d := Z.pos (Qden q) in
  if n =? 0 then q
  else
    let a := Z.abs n in
    let e0 := Z.log2 a - Z.log2 d in
    let below := if 0 <=? e0 then a <? d * 2 ^ e0 else a * 2 ^ (- e0) <? d in
    let e := if below then e0 - 1 else e0 in
    let k := Z.max (e - 52) (-1074) in
    let m := if 0 <=? k then round_half_even a (d * 2 ^ k)
             else round_half_even (a * 2 ^ (- k)) d in
    Q2Qc (if 0 <=? k then inject_Z (Z.sgn n * m * 2 ^ k)
          else Qmake (Z.sgn n * m) (Z.to_pos (2 ^ (- k)))).

Section Rounding.

(** The rounding of the result of a float operation: [obj.x - 500] is
    [fl (obj_x obj - 500)], and [x + width / 2] is [fl (x + fl (width / 2))]. *)
Variable fl : Qc → Qc.

Definition tile_of_object (obj : TiledObject) : Tile :=
  (fl (obj_x obj - Qc_of_Z 500)%Qc, obj_width obj,
   fl (obj_y obj - Qc_of_Z 330)%Qc, obj_height obj).

Definition layer_collisions (mapLayer : Layer) : gset Tile :=
  match mapLayer with
  | TiledObjectGroup name objects =>
      if decide (name = "collision_boundaries")
      then list_to_set (tile_of_object <$> objects)
      else ∅
  | TiledTileLayer _ => ∅
  end.

Definition _extractCollidableTilesOptimized (tmxMapData : TiledMap) : gset Tile :=
  foldl (λ collidableElements mapLayer,
           collidableElements ∪ layer_collisions mapLayer) ∅ tmxMapData.

Definition center (t : Tile) : Point :=
  let '(x, width, y, height) := t in
  (fl (x + fl (width / Qc_of_Z 2))%Qc, fl (y - fl (height / Qc_of_Z 2))%Qc).

End Rounding.

(** ** scipy's KDTree, as far as the server uses it *)

Record KDTree := {
  kd_data : list Point;
  kd_leafsize : Z
}.

(** [KDTree(data, leafsize=...)].  The constructor converts [data] to an
    array and insists on shape (n, m): an empty Python list converts to an
    array of shape (0,), for which it raises ValueError ("data must be of
    shape (n, m)"); so does a leaf size below 1. *)
Definition KDTree_new (data : list Point) (leafsize : Z) : result KDTree :=
  match data with
  | [] => Err ValueError
  | _ :: _ =>
      if leafsize <? 1 then Err ValueError
      else Ok {| kd_data := data; kd_leafsize := leafsize |}
  end.

(** A dict comprehension over pairs: a later pair replaces an earlier one
    with the same key. *)
Definition dict_of_pairs {K V} `{Countable K} (pairs : list (K * V)) : gmap K V :=
  foldl (λ d kv, <[kv.1 := kv.2]> d) ∅ pairs.

Definition sq (a : Qc) : Qc := (a * a)%Qc.

(** Squared Euclidean distance between two points, as a number;
    minimising it minimises the distance. *)
Definition dist2 (p q : Point) : Qc := (sq (p.1 - q.1) + sq (p.2 - q.2))%Qc.

(** The first point of a list, in the order of the list, that no other
    point of the list beats, with its index. *)
Fixpoint nearest_point (p : Point) (data : list Point) : option (nat * Point) :=
  match data with
  | [] => None
  | q :: rest =>
      match nearest_point p rest with
      | Some (i, r) =>
          if decide (dist2 p r < dist2 p q)%Qc then Some (S i, r) else Some (O, q)
      | None => Some (O, q)
      end
  end.

(** Modelled from the spec: the nearest-neighbour query of the tree
    ([KDTree.query] is scipy's, and it is called from
    src.entities.enhanced_bot_manager, which is not among the sources).
    "Supports nearest-neighbor query by point": on a tree that holds a
    point, the query answers with the index of a point of the data that no
    other point of the data beats.  Which of several such points it
    answers with is left open. *)
Definition nearest_neighbour_query (query : KDTree → Point → nat) : Prop :=
  ∀ tree p,
    kd_data tree ≠ [] →
    ∃ q, kd_data tree !! query tree p = Some q
         ∧ ∀ r, r ∈ kd_data tree → (dist2 p q <= dist2 p r)%Qc.

(** Modelled from the spec: [nearest(point) -> (CollisionTile, distance)],
    here with the squared distance, over the tree and the position mapping
    that the server builds and hands to every bot: the point the query
    finds is read from the data of the tree, and the tile of that point
    from the mapping. *)
Definition nearest (query : KDTree → Point → nat)
    (index : KDTree * gmap Point Tile) (p : Point) : option (Tile * Qc) :=
  match kd_data index.1 !! query index.1 p with
  | Some q =>
      match index.2 !! q with
      | Some tile => Some (tile, dist2 p q)
      | None => None
      end
  | None => None
  end.

(** A query that answers with the first nearest point of the data. *)
Definition first_nearest (tree : KDTree) (p : Point) : nat :=
  match nearest_point p (kd_data tree) with
  | Some (i, _) => i
  | None => O
  end.

(** Modelled from the spec: the tile that the spec asks [nearest] for,
    "the tile minimizing Euclidean distance from point to the tile's
    center; ties broken deterministically by stable input order": the first
    tile, in the order of the input, whose center no other center beats. *)
Definition nearest_in_input_order (center : Tile → Point) (tiles : list Tile)
    (p : Point) : option Tile :=
  match nearest_point p (center <$> tiles) with
  | Some (i, _) => tiles !! i
  | None => None
  end.

(** ** The player grid *)

Record EnhancedPlayerGrid := {
  cellSize : Z;
  cells : gmap (Z * Z) (gset Z)
}.

Definition EnhancedPlayerGrid_new (size : Z) : EnhancedPlayerGrid :=
  {| cellSize := size; cells := ∅ |}.

Definition cell_key (g : EnhancedPlayerGrid) (x y : Z) : Z * Z :=
  (x `div` cellSize g, y `div` cellSize g).

Definition grid_cell (g : EnhancedPlayerGrid) (k : Z * Z) : gset Z :=
  default ∅ (cells g !! k).

(** Modelled from the spec: [add_player] of src.spatial.optimized_player_grid
    (not among the sources).  "Bucket keyed by (floor(x/cellSize),
    floor(y/cellSize)) -> set of entity ids present"; "if an entity already
    exists in a different cell, it must be removed from the old cell in the
    same critical section as insertion into the new one". *)
Definition add_player (g : EnhancedPlayerGrid) (playerId x y : Z) : EnhancedPlayerGrid :=
  let cleared := (λ ids : gset Z, ids ∖ {[playerId]}) <$> cells g in
  let k := cell_key g x y in
  {| cellSize := cellSize g;
     cells := <[k := {[playerId]} ∪ default ∅ (cleared !! k)]> cleared |}.

Definition grid_contains (g : EnhancedPlayerGrid) (playerId x y : Z) : Prop :=
  playerId ∈ grid_cell g (cell_key g x y).

(** ** Building the spatial systems *)

(** What pytmx finds at a path. *)
Inductive MapFile : Type :=
  | Missing
  | Corrupt
  | Valid (tmx : TiledMap).

Record FileSystem := {
  assets_maps_game_world_tmx : MapFile;
  map_map_tmx : MapFile
}.

Definition path_exists (f : MapFile) : bool :=
  match f with Missing => false | _ => true end.

(** [pytmx.TiledMap(path, load_all_tiles=False)]. *)
Definition pytmx_TiledMap (f : MapFile) : result TiledMap :=
  match f with
  | Missing => Err FileNotFoundError
  | Corrupt => Err MapParseError
  | Valid tmx => Ok tmx
  end.

(** The file [_initializeSpatialSystems] ends up loading: the new location
    when it exists, the legacy one otherwise. *)
Definition gameMapPath (fs : FileSystem) : MapFile :=
  if path_exists (assets_maps_game_world_tmx fs)
  then assets_maps_game_world_tmx fs
  else map_map_tmx fs.

(** [self.logger.info(...)] and [self.logger.error(...)]: an attribute
    lookup on [self], which fails while [logger] is not yet bound. *)
Definition logger_call (has_logger : bool) : result unit :=
  if has_logger then Ok tt else Err AttributeError.

Record SpatialSystems := {
  ss_gameMapData : TiledMap;
  ss_spatialCollisionTree : KDTree;
  ss_tilePositionMapping : gmap Point Tile;
  ss_spatialPlayerGrid : EnhancedPlayerGrid
}.

Section SpatialIndex.

Variable fl : Qc → Qc.

(** The order in which Python iterates over the set of tiles. *)
Variable iter_tiles : gset Tile → list Tile.

Definition _buildOptimizedCollisionKdTree (collidableElements : gset Tile)
    : result (KDTree * gmap Point Tile) :=
  let collisionPositions := center fl <$> iter_tiles collidableElements in
  optimizedKdTree ← KDTree_new collisionPositions 16;
  let positionToTileMapping :=
    dict_of_pairs (zip collisionPositions (iter_tiles collidableElements)) in
  Ok (optimizedKdTree, positionToTileMapping).

(** The body of the [try] block. *)
Definition spatial_try (has_logger : bool) (config : ServerConfiguration)
    (fs : FileSystem) : result SpatialSystems :=
  gameMapData ← pytmx_TiledMap (gameMapPath fs);
  logger_call has_logger;;
  let collidableGameTiles := _extractCollidableTilesOptimized fl gameMapData in
  logger_call has_logger;;
  index ← _buildOptimizedCollisionKdTree collidableGameTiles;
  logger_call has_logger;;
  Ok {| ss_gameMapData := gameMapData;
        ss_spatialCollisionTree := index.1;
        ss_tilePositionMapping := index.2;
        ss_spatialPlayerGrid :=
          EnhancedPlayerGrid_new (spatialGridCellSize config) |}.

(** [except Exception as spatialError: self.logger.error(...); raise]:
    the handler logs first, so an unbound logger replaces the error being
    handled by AttributeError; otherwise the error is raised again. *)
Definition _initializeSpatialSystems (has_logger : bool)
    (config : ServerConfiguration) (fs : FileSystem) : result SpatialSystems :=
  match spatial_try has_logger config fs with
  | Ok systems => Ok systems
  | Err spatialError =>
      logger_call has_logger;;
      Err spatialError
  end.

End SpatialIndex.

(** The nearest query as the spec words it: on the index built from a set
    of tiles, [nearest] returns at every point the first tile, in the order
    of the input, whose center is nearest. *)
Definition nearest_as_specified (fl : Qc → Qc) (iter_tiles : gset Tile → list Tile)
    (query : KDTree → Point → nat) (collidableElements : gset Tile) : Prop :=
  ∀ index p,
    _buildOptimizedCollisionKdTree fl iter_tiles collidableElements = Ok index →
    fst <$> nearest query index p
    = nearest_in_input_order (center fl) (iter_tiles collidableElements) p.

(** ** Server state *)

(** The values stored in the per-entity dictionaries. *)
Inductive value : Type :=
  | VInt (z : Z)
  | VBool (b : bool)
  | VList (l : list Z).

(** The attributes of an [EnhancedBot] that the server reads
    (the class lives in src.entities.enhanced_bot_manager). *)
Record EnhancedBot := {
  currentX : Z;
  currentY : Z;
  isAggressive : bool;
  targetX : Z;
  targetY : Z;
  isCurrentlyMoving : bool;
  isCurrentlyEngaged : bool
}.

(** Python's module-level generator: a tape of raw 53-bit draws and the
    position of the next one. *)
Record Random := {
  tape : nat → Z;
  cursor : nat
}.

(** An instance on which [__init__] has returned: every attribute is bound
    ([self.logger] too, so the logging calls are left out below).  The
    attributes that none of the embedded methods touches (credential and
    migration tables, chat history, sequence counter) are omitted.
    [loadBalancerSocket] counts the socket objects created for that
    attribute; [startedThreads] lists the names of the threads started;
    [random_module] is the generator of the [random] module, kept in the
    state that the methods thread. *)
Record Server := {
  serverConfig : ServerConfiguration;
  loadBalancerSocket : nat;
  serverInstanceId : Z;
  serverRegionIndex : Z;
  isConnectedToLoadBalancer : bool;
  serverBoundaryCoordinates : Z * Z;
  connectedClientSessions : gmap Z unit;
  activePlayerData : gmap Z (gmap string value);
  gameStateUpdates : gmap Z (gmap string value);
  enhancedBotManager : gmap Z EnhancedBot;
  spatialCollisionTree : KDTree;
  tilePositionMapping : gmap Point Tile;
  spatialPlayerGrid : EnhancedPlayerGrid;
  startedThreads : list string;
  random_module : Random
}.

Definition set_loadBalancerSocket (v : nat) (s : Server) : Server :=
  {| serverConfig := serverConfig s; loadBalancerSocket := v;
     serverInstanceId := serverInstanceId s;
     serverRegionIndex := serverRegionIndex s;
     isConnectedToLoadBalancer := isConnectedToLoadBalancer s;
     serverBoundaryCoordinates := serverBoundaryCoordinates s;
     connectedClientSessions := connectedClientSessions s;
     activePlayerData := activePlayerData s;
     gameStateUpdates := gameStateUpdates s;
     enhancedBotManager := enhancedBotManager s;
     spatialCollisionTree := spatialCollisionTree s;
     tilePositionMapping := tilePositionMapping s;
     spatialPlayerGrid := spatialPlayerGrid s;
     startedThreads := startedThreads s;
     random_module := random_module s |}.

Definition set_isConnectedToLoadBalancer (v : bool) (s : Server) : Server :=
  {| serverConfig := serverConfig s; loadBalancerSocket := loadBalancerSocket s;
     serverInstanceId := serverInstanceId s;
     serverRegionIndex := serverRegionIndex s;
     isConnectedToLoadBalancer := v;
     serverBoundaryCoordinates := serverBoundaryCoordinates s;
     connectedClientSessions := connectedClientSessions s;
     activePlayerData := activePlayerData s;
     gameStateUpdates := gameStateUpdates s;
     enhancedBotManager := enhancedBotManager s;
     spatialCollisionTree := spatialCollisionTree s;
     tilePositionMapping := tilePositionMapping s;
     spatialPlayerGrid := spatialPlayerGrid s;
     startedThreads := startedThreads s;
     random_module := random_module s |}.

Definition set_activePlayerData (v : gmap Z (gmap string value)) (s : Server) : Server :=
  {| serverConfig := serverConfig s; loadBalancerSocket := loadBalancerSocket s;
     serverInstanceId := serverInstanceId s;
     serverRegionIndex := serverRegionIndex s;
     isConnectedToLoadBalancer := isConnectedToLoadBalancer s;
     serverBoundaryCoordinates := serverBoundaryCoordinates s;
     connectedClientSessions := connectedClientSessions s;
     activePlayerData := v;
     gameStateUpdates := gameStateUpdates s;
     enhancedBotManager := enhancedBotManager s;
     spatialCollisionTree := spatialCollisionTree s;
     tilePositionMapping := tilePositionMapping s;
     spatialPlayerGrid := spatialPlayerGrid s;
     startedThreads := startedThreads s;
     random_module := random_module s |}.

Definition set_gameStateUpdates (v : gmap Z (gmap string value)) (s : Server) : Server :=
  {| serverConfig := serverConfig s; loadBalancerSocket := loadBalancerSocket s;
     serverInstanceId := serverInstanceId s;
     serverRegionIndex := serverRegionIndex s;
     isConnectedToLoadBalancer := isConnectedToLoadBalancer s;
     serverBoundaryCoordinates := serverBoundaryCoordinates s;
     connectedClientSessions := connectedClientSessions s;
     activePlayerData := activePlayerData s;
     gameStateUpdates := v;
     enhancedBotManager := enhancedBotManager s;
     spatialCollisionTree := spatialCollisionTree s;
     tilePositionMapping := tilePositionMapping s;
     spatialPlayerGrid := spatialPlayerGrid s;
     startedThreads := startedThreads s;
     random_module := random_module s |}.

Definition set_enhancedBotManager (v : gmap Z EnhancedBot) (s : Server) : Server :=
  {| serverConfig := serverConfig s; loadBalancerSocket := loadBalancerSocket s;
     serverInstanceId := serverInstanceId s;
     serverRegionIndex := serverRegionIndex s;
     isConnectedToLoadBalancer := isConnectedToLoadBalancer s;
     serverBoundaryCoordinates := serverBoundaryCoordinates s;
     connectedClientSessions := connectedClientSessions s;
     activePlayerData := activePlayerData s;
     gameStateUpdates := gameStateUpdates s;
     enhancedBotManager := v;
     spatialCollisionTree := spatialCollisionTree s;
     tilePositionMapping := tilePositionMapping s;
     spatialPlayerGrid := spatialPlayerGrid s;
     startedThreads := startedThreads s;
     random_module := random_module s |}.

Definition set_spatialPlayerGrid (v : EnhancedPlayerGrid) (s : Server) : Server :=
  {| serverConfig := serverConfig s; loadBalancerSocket := loadBalancerSocket s;
     serverInstanceId := serverInstanceId s;
     serverRegionIndex := serverRegionIndex s;
     isConnectedToLoadBalancer := isConnectedToLoadBalancer s;
     serverBoundaryCoordinates := serverBoundaryCoordinates s;
     connectedClientSessions := connectedClientSessions s;
     activePlayerData := activePlayerData s;
     gameStateUpdates := gameStateUpdates s;
     enhancedBotManager := enhancedBotManager s;
     spatialCollisionTree := spatialCollisionTree s;
     tilePositionMapping := tilePositionMapping s;
     spatialPlayerGrid := v;
     startedThreads := startedThreads s;
     random_module := random_module s |}.

Definition set_startedThreads (v : list string) (s : Server) : Server :=
  {| serverConfig := serverConfig s; loadBalancerSocket := loadBalancerSocket s;
     serverInstanceId := serverInstanceId s;
     serverRegionIndex := serverRegionIndex s;
     isConnectedToLoadBalancer := isConnectedToLoadBalancer s;
     serverBoundaryCoordinates := serverBoundaryCoordinates s;
     connectedClientSessions := connectedClientSessions s;
     activePlayerData := activePlayerData s;
     gameStateUpdates := gameStateUpdates s;
     enhancedBotManager := enhancedBotManager s;
     spatialCollisionTree := spatialCollisionTree s;
     tilePositionMapping := tilePositionMapping s;
     spatialPlayerGrid := spatialPlayerGrid s;
     startedThreads := v;
     random_module := random_module s |}.

Definition set_random_module (v : Random) (s : Server) : Server :=
  {| serverConfig := serverConfig s; loadBalancerSocket := loadBalancerSocket s;
     serverInstanceId := serverInstanceId s;
     serverRegionIndex := serverRegionIndex s;
     isConnectedToLoadBalancer := isConnectedToLoadBalancer s;
     serverBoundaryCoordinates := serverBoundaryCoordinates s;
     connectedClientSessions := connectedClientSessions s;
     activePlayerData := activePlayerData s;
     gameStateUpdates := gameStateUpdates s;
     enhancedBotManager := enhancedBotManager s;
     spatialCollisionTree := spatialCollisionTree s;
     tilePositionMapping := tilePositionMapping s;
     spatialPlayerGrid := spatialPlayerGrid s;
     startedThreads := startedThreads s;
     random_module := v |}.

(** The attribute values that [__init__] assigns. *)
Definition fresh_server (config : ServerConfiguration) (systems : SpatialSystems)
    (rng : Random) : Server :=
  {| serverConfig := config; loadBalancerSocket := O;
     serverInstanceId := 0;
     serverRegionIndex := 0;
     isConnectedToLoadBalancer := false;
     serverBoundaryCoordinates := (0, 0);
     connectedClientSessions := ∅;
     activePlayerData := ∅;
     gameStateUpdates := ∅;
     enhancedBotManager := ∅;
     spatialCollisionTree := ss_spatialCollisionTree systems;
     tilePositionMapping := ss_tilePositionMapping systems;
     spatialPlayerGrid := ss_spatialPlayerGrid systems;
     startedThreads := [];
     random_module := rng |}.

(** [EnhancedGameServer.__init__]: sockets (the UDP one is bound, which can
    fail), plain attributes, locks, then the spatial systems, and only after
    them the protocol handlers and [_configureAdvancedLogging], which is
    where [self.logger] gets bound.  [_initializeSpatialSystems] therefore
    runs without a logger. *)
Definition __init__ (fl : Qc → Qc) (iter_tiles : gset Tile → list Tile)
    (configuration : option ServerConfiguration) (udp_bind : result unit)
    (fs : FileSystem) (rng : Random) : result Server :=
  let config := default default_ServerConfiguration configuration in
  udp_bind;;
  systems ← _initializeSpatialSystems fl iter_tiles false config fs;
  Ok (fresh_server config systems rng).

(** ** Methods of a constructed server: state and exceptions *)

(** [Unfinished]: the fuel of a loop ran out while its condition still
    held; the loop is still running in that state. *)
Inductive outcome (A : Type) : Type :=
  | Returns (a : A) (s : Server)
  | Raises (e : exn) (s : Server)
  | Unfinished (s : Server).
Arguments Returns {A} a s.
Arguments Raises {A} e s.
Arguments Unfinished {A} s.

Definition M (A : Type) : Type := Server → outcome A.

#[global] Instance M_ret : MRet M := λ A a s, Returns a s.
#[global] Instance M_bind : MBind M := λ A B k m s,
  match m s with
  | Returns a s' => k a s'
  | Raises e s' => Raises e s'
  | Unfinished s' => Unfinished s'
  end.

Definition get : M Server := λ s, Returns s s.
Definition modify (f : Server → Server) : M unit := λ s, Returns tt (f s).
Definition raise {A} (e : exn) : M A := λ s, Raises e s.

Definition final_state {A} (o : outcome A) : Server :=
  match o with
  | Returns _ s => s
  | Raises _ s => s
  | Unfinished s => s
  end.

(** [try: body except Exception: handler]. *)
Definition try_except {A} (body : M A) (handler : exn → M A) : M A := λ s,
  match body s with
  | Raises e s' => handler e s'
  | o => o
  end.

(** ** The [random] module *)

Definition next_raw : M Z := λ s,
  let rng := random_module s in
  Returns (tape rng (cursor rng) `mod` 2 ^ 53)
          (set_random_module {| tape := tape rng; cursor := S (cursor rng) |} s).

(** [random.randint(a, b)]: an integer of [a..b], ValueError on an empty
    range. *)
Definition randint (a b : Z) : M Z :=
  if b <? a then raise ValueError
  else raw ← next_raw; mret (a + raw `mod` (b - a + 1)).

(** [random.random() < 0.5], where [random()] is [raw / 2^53]. *)
Definition random_below_half : M bool :=
  raw ← next_raw; mret (bool_decide (raw < 2 ^ 52)).

(** ** Spawning bots *)

(** [abs(x - px) < 100 and abs(y - py) < 100]. *)
Definition too_close (x y : Z) (p : Z * Z) : bool :=
  bool_decide (Z.abs (x - p.1) < 100) && bool_decide (Z.abs (y - p.2) < 100).

(** The locals of [_generateOptimizedSpawnPositions]. *)
Record SpawnSearch := {
  positions : gset (Z * Z);
  attempts : Z
}.

(** The region origin that [spawnEnhancedBotsInRegion] looks up with
    [{1: ..., 2: ..., 3: ..., 4: ...}.get(self.serverRegionIndex, (0, 0))]. *)
Definition regionBoundaries (s : Server) : Z * Z :=
  let bounds := serverBoundaryCoordinates s in
  match serverRegionIndex s with
  | 1 => (0, 0)
  | 2 => (bounds.1, 0)
  | 3 => bounds
  | 4 => (0, bounds.2)
  | _ => (0, 0)
  end.

Definition player_record (x y : Z) (type : bool) (angle health : Z)
    : gmap string value :=
  <["x" := VInt x]> (<["y" := VInt y]> (<["type" := VBool type]>
    (<["angle" := VInt angle]> (<["health" := VInt health]> ∅)))).

Section Spawning.

(** The order in which Python iterates over the set of positions. *)
Variable iter_positions : gset (Z * Z) → list (Z * Z).

(** The constructor [EnhancedBot(x, y, isAggressive=..., targetX=...,
    targetY=..., collisionTree=..., tileMapping=...)]. *)
Variable EnhancedBot_new :
  Z → Z → bool → Z → Z → KDTree → gmap Point Tile → EnhancedBot.

(** One pass through the body of the [while] loop. *)
Definition spawn_attempt (boundaries : Z * Z) (st : SpawnSearch) : M SpawnSearch :=
  s ← get;
  dx ← randint 0 (serverBoundaryCoordinates s).1;
  let x := boundaries.1 + dx in
  dy ← randint 0 (serverBoundaryCoordinates s).2;
  let y := boundaries.2 + dy in
  let positions' :=
    if negb (existsb (too_close x y) (iter_positions (positions st)))
    then positions st ∪ {[(x, y)]}
    else positions st in
  mret {| positions := positions'; attempts := attempts st + 1 |}.

(** [while len(positions) < count and attempts < maxAttempts: ...]. *)
Fixpoint spawn_search (fuel : nat) (count maxAttempts : Z) (boundaries : Z * Z)
    (st : SpawnSearch) : M SpawnSearch :=
  if bool_decide (Z.of_nat (size (positions st)) < count)
     && bool_decide (attempts st < maxAttempts)
  then
    match fuel with
    | O => λ s, Unfinished s
    | S fuel' =>
        st' ← spawn_attempt boundaries st;
        spawn_search fuel' count maxAttempts boundaries st'
    end
  else mret st.

Definition _generateOptimizedSpawnPositions (count : Z) (boundaries : Z * Z)
    : M (list (Z * Z)) :=
  let maxAttempts := count * 10 in
  st ← spawn_search (Z.to_nat maxAttempts) count maxAttempts boundaries
         {| positions := ∅; attempts := 0 |};
  mret (iter_positions (positions st)).

(** The body of [for botIndex, (spawnX, spawnY) in enumerate(...)]: the
    bot is built, the three tables are written under their locks, then the
    grid under its own lock. *)
Definition spawn_one (botIndex : Z) (spawn : Z * Z) : M unit :=
  let '(spawnX, spawnY) := spawn in
  aggressive ← random_below_half;
  s ← get;
  let enhancedBot :=
    EnhancedBot_new spawnX spawnY aggressive 0 0
      (spatialCollisionTree s) (tilePositionMapping s) in
  modify (λ s, set_enhancedBotManager (<[botIndex := enhancedBot]> (enhancedBotManager s))
    (set_gameStateUpdates (<[botIndex := ∅]> (gameStateUpdates s))
    (set_activePlayerData
       (<[botIndex := player_record spawnX spawnY (isAggressive enhancedBot) 0 100]>
          (activePlayerData s)) s)));;
  modify (λ s, set_spatialPlayerGrid
                 (add_player (spatialPlayerGrid s) botIndex spawnX spawnY) s).

Fixpoint spawn_each (botIndex : Z) (spawnPositions : list (Z * Z)) : M unit :=
  match spawnPositions with
  | [] => mret tt
  | spawn :: rest => spawn_one botIndex spawn;; spawn_each (botIndex + 1) rest
  end.

Definition spawnEnhancedBotsInRegion (numberOfBots : Z) : M unit :=
  s ← get;
  spawnPositions ← _generateOptimizedSpawnPositions numberOfBots (regionBoundaries s);
  spawn_each 0 spawnPositions.

End Spawning.

(** The state after [n] more draws from the generator. *)
Definition after_draws (n : nat) (s : Server) : Server :=
  set_random_module
    {| tape := tape (random_module s); cursor := (cursor (random_module s) + n)%nat |} s.

(** The candidate that an attempt draws in state [s]: two consecutive
    draws, reduced to the width and the height of the region. *)
Definition candidate (boundaries : Z * Z) (s : Server) : Z * Z :=
  let rng := random_module s in
  let bounds := serverBoundaryCoordinates s in
  (boundaries.1 + (tape rng (cursor rng) `mod` 2 ^ 53) `mod` (bounds.1 + 1),
   boundaries.2 + (tape rng (S (cursor rng)) `mod` 2 ^ 53) `mod` (bounds.2 + 1)).

(** Inside the region that starts at [boundaries] and has the extent
    [serverBoundaryCoordinates]. *)
Definition within_region (boundaries : Z * Z) (s : Server) (p : Z * Z) : Prop :=
  boundaries.1 ≤ p.1 ≤ boundaries.1 + (serverBoundaryCoordinates s).1
  ∧ boundaries.2 ≤ p.2 ≤ boundaries.2 + (serverBoundaryCoordinates s).2.

(** At least 100 units apart in at least one axis. *)
Definition separated (p q : Z * Z) : Prop :=
  100 ≤ Z.abs (p.1 - q.1) ∨ 100 ≤ Z.abs (p.2 - q.2).

(** What holds of the locals of the search before and after every attempt,
    [s0] being the state in which the search started. *)
Definition search_invariant (count : Z) (boundaries : Z * Z) (s0 : Server)
    (st : SpawnSearch) (s : Server) : Prop :=
  Z.of_nat (size (positions st)) ≤ count
  ∧ (∀ p, p ∈ positions st → within_region boundaries s0 p)
  ∧ (∀ p q, p ∈ positions st → q ∈ positions st → p ≠ q → separated p q)
  ∧ 0 ≤ attempts st
  ∧ s = after_draws (2 * Z.to_nat (attempts st)) s0.

(** The state that one pass through the spawn loop leaves. *)
Definition after_spawn_one
    (EnhancedBot_new : Z → Z → bool → Z → Z → KDTree → gmap Point Tile → EnhancedBot)
    (botIndex spawnX spawnY : Z) (s : Server) : Server :=
  let rng := random_module s in
  let aggressive := bool_decide (tape rng (cursor rng) `mod` 2 ^ 53 < 2 ^ 52) in
  let enhancedBot :=
    EnhancedBot_new spawnX spawnY aggressive 0 0
      (spatialCollisionTree s) (tilePositionMapping s) in
  set_spatialPlayerGrid (add_player (spatialPlayerGrid s) botIndex spawnX spawnY)
    (set_enhancedBotManager (<[botIndex := enhancedBot]> (enhancedBotManager s))
    (set_gameStateUpdates (<[botIndex := ∅]> (gameStateUpdates s))
    (set_activePlayerData
       (<[botIndex := player_record spawnX spawnY (isAggressive enhancedBot) 0 100]>
          (activePlayerData s))
    (set_random_module {| tape := tape rng; cursor := S (cursor rng) |} s)))).

(** ** Bot ticks *)

(** [d[botId][key] = v]: KeyError when [botId] has no entry. *)
Definition set_item (d : gmap Z (gmap string value)) (botId : Z) (key : string)
    (v : value) : option (gmap Z (gmap string value)) :=
  entry ← d !! botId; Some (<[botId := <[key := v]> entry]> d).

Definition set_player_item (botId : Z) (key : string) (v : value) : M unit := λ s,
  match set_item (activePlayerData s) botId key v with
  | Some d => Returns tt (set_activePlayerData d s)
  | None => Raises KeyError s
  end.

Definition set_update_item (botId : Z) (key : string) (v : value) : M unit := λ s,
  match set_item (gameStateUpdates s) botId key v with
  | Some d => Returns tt (set_gameStateUpdates d s)
  | None => Raises KeyError s
  end.

(** What a bot thread does inside one [with self.thread_safe_operation(...)]
    block: the locks are taken at its start and given back at its end, so
    other threads see the state before or after it, not in between. *)
Inductive critical_section : Type :=
  | StoreUpdate (botId x y : Z)
      (* playerDataLock, gameStateUpdateLock *)
  | GridUpdate (botId x y : Z)
      (* spatialIndexLock *)
  | FireUpdate (botId : Z) (shot : list Z)
      (* gameStateUpdateLock *).

Definition run_section (c : critical_section) : M unit :=
  match c with
  | StoreUpdate botId x y =>
      set_player_item botId "x" (VInt x);;
      set_player_item botId "y" (VInt y);;
      set_update_item botId "x" (VInt x);;
      set_update_item botId "y" (VInt y)
  | GridUpdate botId x y =>
      modify (λ s, set_spatialPlayerGrid
                     (add_player (spatialPlayerGrid s) botId x y) s)
  | FireUpdate botId shot =>
      set_update_item botId "weapon_fire" (VList shot)
  end.

Fixpoint run_sections (cs : list critical_section) : M unit :=
  match cs with
  | [] => mret tt
  | c :: rest => run_section c;; run_sections rest
  end.

(** The critical sections of the [for] loop of [_processEnhancedBotMovement]. *)
Definition movement_sections (activeBots : list (Z * EnhancedBot))
    : list critical_section :=
  activeBots ≫= λ '(botId, enhancedBot),
    if isCurrentlyMoving enhancedBot
    then [StoreUpdate botId (currentX enhancedBot) (currentY enhancedBot);
          GridUpdate botId (currentX enhancedBot) (currentY enhancedBot)]
    else [].

Definition combat_sections (activeBots : list (Z * EnhancedBot))
    : list critical_section :=
  activeBots ≫= λ '(botId, enhancedBot),
    if isCurrentlyEngaged enhancedBot
    then [FireUpdate botId [currentX enhancedBot; currentY enhancedBot;
                            targetX enhancedBot; targetY enhancedBot]]
    else [].

(** [list(self.enhancedBotManager.items())]: the snapshot taken under
    botManagerLock.  Python lists the items in insertion order and
    [map_to_list] in an order of its own; the facts about a pass are proved
    for every order of the snapshot.  The bot objects are read as they are
    in the snapshot. *)
Definition activeBots (s : Server) : list (Z * EnhancedBot) :=
  map_to_list (enhancedBotManager s).

Definition _processEnhancedBotMovement : M unit :=
  s ← get; run_sections (movement_sections (activeBots s)).

Definition _processEnhancedBotCombat : M unit :=
  s ← get; run_sections (combat_sections (activeBots s)).

(** One pass through the body of the loop of [executeEnhancedBotAI]
    ([time.sleep] leaves the state alone). *)
Definition bot_tick : M unit :=
  try_except (_processEnhancedBotMovement;; _processEnhancedBotCombat)
             (λ botError, mret tt).

(** [while self.isConnectedToLoadBalancer: ...]; returns the number of
    ticks made. *)
Fixpoint bot_loop (fuel : nat) (ticks : nat) : M nat := λ s,
  if isConnectedToLoadBalancer s then
    match fuel with
    | O => Unfinished s
    | S fuel' => (bot_tick;; bot_loop fuel' (S ticks)) s
    end
  else Returns ticks s.

Definition executeEnhancedBotAI (fuel : nat) : M nat := bot_loop fuel O.

(** A state that another thread can see while the sections [cs] run: the
    state between two of them. *)
Definition observable_during (cs : list critical_section) (s s' : Server) : Prop :=
  ∃ done todo, cs = done ++ todo ∧ run_sections done s = Returns tt s'.

Definition entry_position (entry : gmap string value) : option (Z * Z) :=
  match entry !! "x", entry !! "y" with
  | Some (VInt x), Some (VInt y) => Some (x, y)
  | _, _ => None
  end.

(** The position of an entity in [activePlayerData]. *)
Definition store_position (s : Server) (botId : Z) : option (Z * Z) :=
  activePlayerData s !! botId ≫= entry_position.

(** The position of an entity in the delta accumulator. *)
Definition update_position (s : Server) (botId : Z) : option (Z * Z) :=
  gameStateUpdates s !! botId ≫= entry_position.

(** The cells of the grid in which an entity is listed. *)
Definition in_cell (s : Server) (botId : Z) (k : Z * Z) : Prop :=
  botId ∈ grid_cell (spatialPlayerGrid s) k.

(** The entity a critical section writes. *)
Definition section_bot (c : critical_section) : Z :=
  match c with
  | StoreUpdate botId _ _ => botId
  | GridUpdate botId _ _ => botId
  | FireUpdate botId _ => botId
  end.

Definition registered (s : Server) (botId : Z) : Prop :=
  is_Some (activePlayerData s !! botId) ∧ is_Some (gameStateUpdates s !! botId).

(** What a run of critical sections never changes. *)
Definition same_frame (s s' : Server) : Prop :=
  isConnectedToLoadBalancer s' = isConnectedToLoadBalancer s
  ∧ cellSize (spatialPlayerGrid s') = cellSize (spatialPlayerGrid s)
  ∧ ∀ botId, registered s' botId ↔ registered s botId.

(** The entries of one entity are the same in both states. *)
Definition same_entity (s s' : Server) (botId : Z) : Prop :=
  activePlayerData s' !! botId = activePlayerData s !! botId
  ∧ gameStateUpdates s' !! botId = gameStateUpdates s !! botId
  ∧ ∀ k, in_cell s' botId k ↔ in_cell s botId k.

(** How far the update of one bot has been published. *)
Inductive publication : Type :=
  | NotPublished
  | StoreOnly
  | Published.

Definition bot_view (s0 s' : Server) (botId : Z) (bot : EnhancedBot)
    (ph : publication) : Prop :=
  let new := (currentX bot, currentY bot) in
  match ph with
  | NotPublished =>
      activePlayerData s' !! botId = activePlayerData s0 !! botId
      ∧ gameStateUpdates s' !! botId = gameStateUpdates s0 !! botId
      ∧ ∀ k, in_cell s' botId k ↔ in_cell s0 botId k
  | StoreOnly =>
      store_position s' botId = Some new
      ∧ update_position s' botId = Some new
      ∧ ∀ k, in_cell s' botId k ↔ in_cell s0 botId k
  | Published =>
      store_position s' botId = Some new
      ∧ update_position s' botId = Some new
      ∧ ∀ k, in_cell s' botId k
             ↔ k = cell_key (spatialPlayerGrid s') (currentX bot) (currentY bot)
  end.

(** Every bot of the snapshot has its entries in both tables. *)
Definition bots_registered (bots : list (Z * EnhancedBot)) (s : Server) : Prop :=
  ∀ botId bot, (botId, bot) ∈ bots →
    is_Some (activePlayerData s !! botId) ∧ is_Some (gameStateUpdates s !! botId).

(** The publication of a moving bot as one step: whoever looks between two
    critical sections finds its new position in the store exactly when the
    grid lists it at that position. *)
Definition published_as_one_step (bots : list (Z * EnhancedBot)) (s : Server) : Prop :=
  ∀ s' botId bot,
    observable_during (movement_sections bots) s s' →
    (botId, bot) ∈ bots →
    isCurrentlyMoving bot = true →
    (store_position s' botId = Some (currentX bot, currentY bot)
     ↔ grid_contains (spatialPlayerGrid s') botId (currentX bot) (currentY bot)).

(** ** The load-balancer link *)

Record NetworkProtocols := {
  HANDSHAKE_REQUEST : string;
  HANDSHAKE_ACKNOWLEDGE : string;
  CONNECTION_CONFIRMED : string;
  PROTOCOL_VERSION : string
}.

Definition default_NetworkProtocols : NetworkProtocols := {|
  HANDSHAKE_REQUEST := "SYNC_HANDSHAKE_v2";
  HANDSHAKE_ACKNOWLEDGE := "SYNC_ACK_v2";
  CONNECTION_CONFIRMED := "CONNECTION_ESTABLISHED";
  PROTOCOL_VERSION := "2.0"
|}.

Section Handshake.

(** What [self.udpBroadcastSocket.recvfrom(1024)] yields at its [t]-th
    call: a datagram, [socket.timeout] after four seconds, or another
    error. *)
Variable udp_recvfrom : nat → result string.

(** Whether [udpData.decode()] succeeds (it is evaluated for the log line;
    UnicodeDecodeError is a ValueError). *)
Variable decodable : string → bool.

(** The three steps of the exchange.  The class calls these methods but
    the sources do not define them; each is taken as given, at the round
    in which it is called. *)
Variable _processLoadBalancerHandshake : nat → string → M bool.
Variable _sendLoadBalancerAcknowledgment : nat → M unit.
Variable _receiveConnectionConfirmation : nat → M bool.

(** [lbHandlerThread.start()]. *)
Definition start_thread (name : string) : M unit :=
  modify (λ s, set_startedThreads (startedThreads s ++ [name]) s).

(** The body of the [try] block; [true] stands for leaving through
    [break]. *)
Definition handshake_round (t : nat) : M bool :=
  match udp_recvfrom t return M bool with
  | Err e => raise e
  | Ok udpData =>
      if decodable udpData then
        _processLoadBalancerHandshake t udpData ≫= λ valid : bool,
        if valid then
          _sendLoadBalancerAcknowledgment t;;
          _receiveConnectionConfirmation t ≫= λ confirmed : bool,
          if confirmed then
            modify (set_isConnectedToLoadBalancer true);;
            start_thread "LoadBalancerProtocol";;
            mret true
          else mret false
        else mret false
      else raise ValueError
  end.

(** [while not self.isConnectedToLoadBalancer: try: ... except
    socket.timeout: ... except Exception: (new loadBalancerSocket)]. *)
Fixpoint establish_loop (fuel : nat) (t : nat) : M unit := λ s,
  if isConnectedToLoadBalancer s then Returns tt s
  else
    match fuel with
    | O => Unfinished s
    | S fuel' =>
        match handshake_round t s with
        | Returns true s' => Returns tt s'
        | Returns false s' => establish_loop fuel' (S t) s'
        | Raises socket_timeout s' => establish_loop fuel' (S t) s'
        | Raises _ s' =>
            establish_loop fuel' (S t)
              (set_loadBalancerSocket (S (loadBalancerSocket s')) s')
        | Unfinished s' => Unfinished s'
        end
    end.

Definition _establishLoadBalancerConnection (fuel : nat) : M unit :=
  establish_loop fuel O.

(** The complete exchange of round [t] from state [s]: a datagram arrives,
    it is accepted as a handshake, the acknowledgment goes out, the
    confirmation comes in, each step starting where the one before ended. *)
Definition full_exchange (t : nat) (s s' : Server) : Prop :=
  ∃ udpData s1 s2 s3,
    udp_recvfrom t = Ok udpData
    ∧ decodable udpData = true
    ∧ _processLoadBalancerHandshake t udpData s = Returns true s1
    ∧ _sendLoadBalancerAcknowledgment t s1 = Returns tt s2
    ∧ _receiveConnectionConfirmation t s2 = Returns true s3
    ∧ s' = set_startedThreads (startedThreads s3 ++ ["LoadBalancerProtocol"])
             (set_isConnectedToLoadBalancer true s3).

(** The three steps leave [isConnectedToLoadBalancer] alone. *)
Definition keeps_link_flag {A} (m : M A) : Prop :=
  ∀ s, isConnectedToLoadBalancer (final_state (m s)) = isConnectedToLoadBalancer s.

End Handshake.

Inductive lb_tag : Type :=
  | GET_SERVER_INDEX
  | GET_REGION_BOUNDARIES
  | SEND_SERVER_INFO
  | REGISTER_USER
  | AUTHENTICATE_USER
  | CACHE_PLAYER_DATA.

Section LoadBalancerProtocol.

Variable iter_positions : gset (Z * Z) → list (Z * Z).
Variable EnhancedBot_new :
  Z → Z → bool → Z → Z → KDTree → gmap Point Tile → EnhancedBot.

(** [self.loadBalancerHandlers[tag](self)] at the [t]-th round; the
    handlers live in src.protocols, outside the sources, and may do to the
    server whatever they like. *)
Variable loadBalancerHandlers : lb_tag → nat → M unit.

(** The body of the [try] block of the communication loop. *)
Definition steady_round (t : nat) : M unit :=
  loadBalancerHandlers REGISTER_USER t;;
  loadBalancerHandlers AUTHENTICATE_USER t;;
  loadBalancerHandlers CACHE_PLAYER_DATA t.

(** [while self.isConnectedToLoadBalancer: try: ... except Exception:
    self.isConnectedToLoadBalancer = False; break]. *)
Fixpoint steady_loop (fuel : nat) (t : nat) : M unit := λ s,
  if isConnectedToLoadBalancer s then
    match fuel with
    | O => Unfinished s
    | S fuel' =>
        match steady_round t s with
        | Returns _ s' => steady_loop fuel' (S t) s'
        | Raises protocolError s' =>
            Returns tt (set_isConnectedToLoadBalancer false s')
        | Unfinished s' => Unfinished s'
        end
    end
  else Returns tt s.

Definition _handleLoadBalancerProtocol (fuel : nat) : M unit :=
  loadBalancerHandlers GET_SERVER_INDEX O;;
  loadBalancerHandlers GET_REGION_BOUNDARIES O;;
  spawnEnhancedBotsInRegion iter_positions EnhancedBot_new 25;;
  steady_loop fuel O.

End LoadBalancerProtocol.

(** ** A server with one bot on the move *)

Definition example_bot : EnhancedBot :=
  {| currentX := 1500; currentY := 0; isAggressive := false;
     targetX := 0; targetY := 0;
     isCurrentlyMoving := true; isCurrentlyEngaged := false |}.

(** Bot 0 was spawned at (0, 0) and has since walked to (1500, 0). *)
Definition example_server : Server :=
  {| serverConfig := default_ServerConfiguration; loadBalancerSocket := O;
     serverInstanceId := 0;
     serverRegionIndex := 1;
     isConnectedToLoadBalancer := true;
     serverBoundaryCoordinates := (2000, 2000);
     connectedClientSessions := ∅;
     activePlayerData := <[0 := player_record 0 0 false 0 100]> ∅;
     gameStateUpdates := <[0 := ∅]> ∅;
     enhancedBotManager := {[0 := example_bot]};
     spatialCollisionTree := {| kd_data := [(Qc_of_Z 0, Qc_of_Z 0)]; kd_leafsize := 16 |};
     tilePositionMapping := ∅;
     spatialPlayerGrid := add_player (EnhancedPlayerGrid_new 1000) 0 0 0;
     startedThreads := [];
     random_module := {| tape := λ n, Z.of_nat n * 7919; cursor := O |} |}.

(** ** A load balancer that answers, and one that breaks off *)

Definition example_disconnected : Server :=
  set_isConnectedToLoadBalancer false example_server.

Definition example_recvfrom (t : nat) : result string :=
  Ok (HANDSHAKE_REQUEST default_NetworkProtocols).

Definition example_process (t : nat) (udpData : string) : M bool :=
  mret (String.eqb udpData (HANDSHAKE_REQUEST default_NetworkProtocols)).

Definition example_send (t : nat) : M unit := mret tt.

Definition example_confirm (t : nat) : M bool := mret true.

(** The cache exchange fails in every round. *)
Definition example_handlers (tag : lb_tag) (t : nat) : M unit :=
  match tag with
  | CACHE_PLAYER_DATA => raise OSError
  | _ => mret tt
  end.

(** ** A small map and a server fresh from the constructor *)

Definition example_tile : Tile :=
  (Qc_of_Z 0, Qc_of_Z 64, Qc_of_Z 0, Qc_of_Z 64).

Definition example_object : TiledObject :=
  {| obj_x := Qc_of_Z 500; obj_y := Qc_of_Z 330;
     obj_width := Qc_of_Z 64; obj_height := Qc_of_Z 64 |}.

(** Two copies of one collision object and a layer of another class. *)
Definition example_map : TiledMap :=
  [TiledObjectGroup "collision_boundaries" [example_object; example_object];
   TiledTileLayer "ground"].

Definition example_point : Point := (Qc_of_Z 10, Qc_of_Z 10).

(** Neither location holds a readable map. *)
Definition example_broken_files : FileSystem :=
  {| assets_maps_game_world_tmx := Missing; map_map_tmx := Corrupt |}.

(** A readable map without any collision object. *)
Definition example_bare_files : FileSystem :=
  {| assets_maps_game_world_tmx := Valid [TiledTileLayer "ground"];
     map_map_tmx := Missing |}.

Definition example_systems : SpatialSystems :=
  {| ss_gameMapData := example_map;
     ss_spatialCollisionTree := spatialCollisionTree example_server;
     ss_tilePositionMapping := ∅;
     ss_spatialPlayerGrid := EnhancedPlayerGrid_new 1000 |}.

Definition example_fresh_server : Server :=
  fresh_server default_ServerConfiguration example_systems
    (random_module example_server).

(** A bot starts where it is spawned, idle. *)
Definition example_EnhancedBot_new (x y : Z) (aggressive : bool) (tx ty : Z)
    (collisionTree : KDTree) (tileMapping : gmap Point Tile) : EnhancedBot :=
  {| currentX := x; currentY := y; isAggressive := aggressive;
     targetX := tx; targetY := ty;
     isCurrentlyMoving := false; isCurrentlyEngaged := false |}.

(** ** Locks and [thread_safe_operation] *)

(** The locks that [_initializeThreadSafeLocks] creates. *)
Inductive lock : Type :=
  | clientSessionLock
  | playerDataLock
  | gameStateUpdateLock
  | playerCounterLock
  | loadBalancerLock
  | crossServerDataLock
  | serverMigrationLock
  | authenticationLock
  | playerCredentialsLock
  | playerCacheLock
  | chatHistoryLock
  | sequenceCounterLock
  | botManagerLock
  | spatialIndexLock.

#[global] Instance lock_eq_dec : EqDecision lock.
Proof. solve_decision. Defined.

Definition lock_index (l : lock) : nat :=
  match l with
  | clientSessionLock => 0
  | playerDataLock => 1
  | gameStateUpdateLock => 2
  | playerCounterLock => 3
  | loadBalancerLock => 4
  | crossServerDataLock => 5
  | serverMigrationLock => 6
  | authenticationLock => 7
  | playerCredentialsLock => 8
  | playerCacheLock => 9
  | chatHistoryLock => 10
  | sequenceCounterLock => 11
  | botManagerLock => 12
  | spatialIndexLock => 13
  end.

Definition lock_of_index (n : nat) : lock :=
  match n with
  | 0 => clientSessionLock
  | 1 => playerDataLock
  | 2 => gameStateUpdateLock
  | 3 => playerCounterLock
  | 4 => loadBalancerLock
  | 5 => crossServerDataLock
  | 6 => serverMigrationLock
  | 7 => authenticationLock
  | 8 => playerCredentialsLock
  | 9 => playerCacheLock
  | 10 => chatHistoryLock
  | 11 => sequenceCounterLock
  | 12 => botManagerLock
  | _ => spatialIndexLock
  end%nat.

#[global] Instance lock_countable : Countable lock :=
  inj_countable' lock_index lock_of_index
    (λ l, match l with
          | clientSessionLock | playerDataLock | gameStateUpdateLock
          | playerCounterLock | loadBalancerLock | crossServerDataLock
          | serverMigrationLock | authenticationLock | playerCredentialsLock
          | playerCacheLock | chatHistoryLock | sequenceCounterLock
          | botManagerLock | spatialIndexLock => eq_refl
          end).

(** The state of the [threading.RLock]s: a lock without an entry is free;
    the entry [(owner, n)] says that thread [owner] has acquired the lock
    [S n] times and not yet released it. *)
Abbreviation LockTable := (gmap lock (nat * nat)).

(** [lock.acquire()] by thread [me]; [None]: the call blocks. *)
Definition rlock_acquire (me : nat) (l : lock) (tbl : LockTable) : option LockTable :=
  match tbl !! l with
  | None => Some (<[l := (me, O)]> tbl)
  | Some (owner, depth) =>
      if decide (owner = me) then Some (<[l := (me, S depth)]> tbl) else None
  end.

(** [lock.release()] by thread [me]; [None]: RuntimeError, the lock is not
    held by the caller. *)
Definition rlock_release (me : nat) (l : lock) (tbl : LockTable) : option LockTable :=
  match tbl !! l with
  | Some (owner, depth) =>
      if decide (owner = me) then
        Some (match depth with
              | O => delete l tbl
              | S depth' => <[l := (me, depth')]> tbl
              end)
      else None
  | None => None
  end.

(** [for lock in locks: lock.acquire(); acquired_locks.append(lock)]:
    the table and the locks acquired, or the lock at which the thread
    waits. *)
Fixpoint acquire_all (me : nat) (locks acquired_locks : list lock) (tbl : LockTable)
    : (LockTable * list lock) + (lock * list lock * LockTable) :=
  match locks with
  | [] => inl (tbl, acquired_locks)
  | l :: rest =>
      match rlock_acquire me l tbl with
      | Some tbl' => acquire_all me rest (acquired_locks ++ [l]) tbl'
      | None => inr (l, acquired_locks, tbl)
      end
  end.

(** [for lock in reversed(acquired_locks): lock.release()]. *)
Fixpoint release_all (me : nat) (locks : list lock) (tbl : LockTable)
    : option LockTable :=
  match locks with
  | [] => Some tbl
  | l :: rest =>
      match rlock_release me l tbl with
      | Some tbl' => release_all me rest tbl'
      | None => None
      end
  end.

(** How a [with self.thread_safe_operation(...)] block stands. *)
Inductive guarded (A : Type) : Type :=
  | Left_block (o : outcome A) (tbl : LockTable)
      (* the body returned or raised and the [finally] clause has run *)
  | Inside_block (s : Server) (tbl : LockTable)
      (* the body is still running *)
  | Waiting_for (l : lock) (held : list lock) (tbl : LockTable) (s : Server)
      (* an [acquire] blocks; the body has not started *)
  | Release_failed (o : outcome A) (tbl : LockTable)
      (* a [release] raised RuntimeError *).
Arguments Left_block {A} o tbl.
Arguments Inside_block {A} s tbl.
Arguments Waiting_for {A} l held tbl s.
Arguments Release_failed {A} o tbl.

(** [with self.thread_safe_operation(lock, ...)] around a body, run by
    thread [me]. *)
Definition thread_safe_operation {A} (me : nat) (locks : list lock) (body : M A)
    (tbl : LockTable) (s : Server) : guarded A :=
  match acquire_all me locks [] tbl with
  | inr (l, held, tbl') => Waiting_for l held tbl' s
  | inl (tbl', acquired_locks) =>
      match body s with
      | Unfinished s' => Inside_block s' tbl'
      | o =>
          match release_all me (reverse acquired_locks) tbl' with
          | Some tbl'' => Left_block o tbl''
          | None => Release_failed o tbl'
          end
      end
  end.

(** Thread [me] can take the lock without waiting. *)
Definition acquirable (me : nat) (tbl : LockTable) (l : lock) : Prop :=
  match tbl !! l with
  | None => True
  | Some (owner, _) => owner = me
  end.

(** ** Further notions for the properties below *)

(** The objects of the collision layers, layer by layer. *)
Definition collision_objects (tmxMapData : TiledMap) : list TiledObject :=
  tmxMapData ≫= λ mapLayer,
    match mapLayer with
    | TiledObjectGroup name objects =>
        if decide (name = "collision_boundaries") then objects else []
    | TiledTileLayer _ => []
    end.

(** Field [key] of the entry of [botId] in one of the two tables. *)
Definition field_of (d : gmap Z (gmap string value)) (botId : Z) (key : string)
    : option value :=
  d !! botId ≫= λ entry, entry !! key.

(** What a bot tick leaves as it is. *)
Definition tick_keeps (s s' : Server) : Prop :=
  enhancedBotManager s' = enhancedBotManager s
  ∧ isConnectedToLoadBalancer s' = isConnectedToLoadBalancer s
  ∧ (∀ botId, is_Some (activePlayerData s' !! botId)
              ↔ is_Some (activePlayerData s !! botId))
  ∧ (∀ botId, is_Some (gameStateUpdates s' !! botId)
              ↔ is_Some (gameStateUpdates s !! botId))
  ∧ (∀ botId key, key ≠ "x" → key ≠ "y" →
       field_of (activePlayerData s') botId key = field_of (activePlayerData s) botId key)
  ∧ (∀ botId key, key ≠ "x" → key ≠ "y" → key ≠ "weapon_fire" →
       field_of (gameStateUpdates s') botId key = field_of (gameStateUpdates s) botId key)
  ∧ (∀ botId key, is_Some (field_of (activePlayerData s) botId key) →
       is_Some (field_of (activePlayerData s') botId key))
  ∧ (∀ botId key, is_Some (field_of (gameStateUpdates s) botId key) →
       is_Some (field_of (gameStateUpdates s') botId key)).

(** [m] ends, however it ends, in a state related to the one it started in. *)
Definition preserves {A} (R : Server → Server → Prop) (m : M A) : Prop :=
  ∀ s, R s (final_state (m s)).

(** A round of the discovery loop that ends before the handshake is
    looked at, in a way that makes the loop replace [loadBalancerSocket]:
    an error of the receive other than a timeout, or a datagram that does
    not decode. *)
Definition replaces_socket (received : result string) (decodable : string → bool)
    : bool :=
  match received with
  | Err socket_timeout => false
  | Err _ => true
  | Ok udpData => negb (decodable udpData)
  end.

(** A round in which nothing usable arrives. *)
Definition nothing_usable (received : result string) (decodable : string → bool)
    : bool :=
  match received with
  | Err _ => true
  | Ok udpData => negb (decodable udpData)
  end.

(** The number of rounds among [t, t+1, ..., t+n-1] that replace the socket. *)
Fixpoint replaced_sockets (udp_recvfrom : nat → result string)
    (decodable : string → bool) (t n : nat) : nat :=
  match n with
  | O => O
  | S n' =>
      ((if replaces_socket (udp_recvfrom t) decodable then 1 else 0)
       + replaced_sockets udp_recvfrom decodable (S t) n')%nat
  end.

(** ** Two rectangles around one center *)

Definition example_inner_tile : Tile :=
  (Qc_of_Z 0, Qc_of_Z 2, Qc_of_Z 0, Qc_of_Z 2).

Definition example_outer_tile : Tile :=
  (Qc_of_Z (-1), Qc_of_Z 4, Qc_of_Z 1, Qc_of_Z 4).

(** ** Coordinates that binary64 rounds *)

(** Two objects whose [x] are neighbouring floats: 0.1 and the next float
    above it. *)
Definition example_object_tenth : TiledObject :=
  {| obj_x := binary64 (Q2Qc (1 # 10)); obj_y := Qc_of_Z 330;
     obj_width := Qc_of_Z 64; obj_height := Qc_of_Z 64 |}.

Definition example_object_next : TiledObject :=
  {| obj_x := (binary64 (Q2Qc (1 # 10)) + Q2Qc (1 # 72057594037927936))%Qc;
     obj_y := Qc_of_Z 330;
     obj_width := Qc_of_Z 64; obj_height := Qc_of_Z 64 |}.

(** The tiles [(0.1, 0.4, 0, 0)] and [(0.1 + 0.2, 0, 0, 0)], the sum
    being the float sum 0.30000000000000004. *)
Definition example_tile_tenth : Tile :=
  (binary64 (Q2Qc (1 # 10)), binary64 (Q2Qc (4 # 10)), Qc_of_Z 0, Qc_of_Z 0).

Definition example_tile_sum : Tile :=
  (binary64 (binary64 (Q2Qc (1 # 10)) + binary64 (Q2Qc (2 # 10)))%Qc,
   Qc_of_Z 0, Qc_of_Z 0, Qc_of_Z 0).

(** A readable map with one collision object. *)
Definition example_good_files : FileSystem :=
  {| assets_maps_game_world_tmx := Missing; map_map_tmx := Valid example_map |}.

(** ** Servers with other regions *)

(** [example_server] with another value of [serverBoundaryCoordinates]. *)
Definition example_server_with_bounds (bounds : Z * Z) : Server :=
  {| serverConfig := serverConfig example_server;
     loadBalancerSocket := loadBalancerSocket example_server;
     serverInstanceId := serverInstanceId example_server;
     serverRegionIndex := serverRegionIndex example_server;
     isConnectedToLoadBalancer := isConnectedToLoadBalancer example_server;
     serverBoundaryCoordinates := bounds;
     connectedClientSessions := connectedClientSessions example_server;
     activePlayerData := activePlayerData example_server;
     gameStateUpdates := gameStateUpdates example_server;
     enhancedBotManager := enhancedBotManager example_server;
     spatialCollisionTree := spatialCollisionTree example_server;
     tilePositionMapping := tilePositionMapping example_server;
     spatialPlayerGrid := spatialPlayerGrid example_server;
     startedThreads := startedThreads example_server;
     random_module := random_module example_server |}.

(** ** A bot under fire, and a silent network *)

Definition example_gunner : EnhancedBot :=
  {| currentX := 1500; currentY := 0; isAggressive := true;
     targetX := 40; targetY := 60;
     isCurrentlyMoving := false; isCurrentlyEngaged := true |}.

(** [example_server] with bot 0 engaged. *)
Definition example_engaged_server : Server :=
  set_enhancedBotManager {[0 := example_gunner]} example_server.

(** [example_disconnected] after the record of bot 0 has been dropped from
    [activePlayerData]. *)
Definition example_dropped_server : Server :=
  set_activePlayerData ∅ example_disconnected.

(** Timeouts, with a refused receive every other round. *)
Definition example_silent_recvfrom (t : nat) : result string :=
  if Nat.even t then Err socket_timeout else Err OSError.

(** * Properties *)

(** ** The spatial index *)

Section ExtractionFacts.

Variable fl : Qc → Qc.

Lemma elem_of_layer_collisions (t : Tile) (mapLayer : Layer) :
  t ∈ layer_collisions fl mapLayer ↔
  ∃ name objects obj,
    mapLayer = TiledObjectGroup name objects
    ∧ name = "collision_boundaries"
    ∧ obj ∈ objects
    ∧ t = tile_of_object fl obj.
Proof.
  destruct mapLayer as [name objects|name]; simpl.
  - case_decide as Hname.
    + rewrite elem_of_list_to_set, list_elem_of_fmap. split.
      * intros (obj & -> & Hobj). by exists name, objects, obj.
      * intros (? & ? & obj & [= <- <-] & _ & Hobj & ->). by exists obj.
    + split; [set_solver|].
      intros (? & ? & ? & [= <- <-] & ? & _); done.
  - split; [set_solver|]. intros (? & ? & ? & ? & _); done.
Qed.

Lemma elem_of_extract_from (t : Tile) (tmxMapData : TiledMap) (acc : gset Tile) :
  t ∈ foldl (λ collidableElements mapLayer,
               collidableElements ∪ layer_collisions fl mapLayer) acc tmxMapData
  ↔ t ∈ acc ∨ ∃ mapLayer, mapLayer ∈ tmxMapData ∧ t ∈ layer_collisions fl mapLayer.
Proof.
  revert acc. induction tmxMapData as [|mapLayer rest IH]; intros acc; simpl.
  - split; [by left|]. intros [?|(? & Hin & _)]; [done|]. by apply elem_of_nil in Hin.
  - rewrite IH, elem_of_union. split.
    + intros [[?|?]|(l & ? & ?)]; [by left| |].
      * right. exists mapLayer. split; [apply list_elem_of_here|done].
      * right. exists l. split; [by apply list_elem_of_further|done].
    + intros [?|(l & Hin & ?)]; [by left; left|].
      apply elem_of_cons in Hin as [->|?]; [by left; right|].
      right. by exists l.
Qed.

Lemma elem_of_extract (t : Tile) (tmxMapData : TiledMap) :
  t ∈ _extractCollidableTilesOptimized fl tmxMapData ↔
  ∃ name objects obj,
    TiledObjectGroup name objects ∈ tmxMapData
    ∧ name = "collision_boundaries"
    ∧ obj ∈ objects
    ∧ t = tile_of_object fl obj.
Proof.
  unfold _extractCollidableTilesOptimized. rewrite elem_of_extract_from. split.
  - intros [?|(l & Hin & Ht)]; [set_solver|].
    apply elem_of_layer_collisions in Ht as (name & objects & obj & -> & ? & ? & ?).
    by exists name, objects, obj.
  - intros (name & objects & obj & Hin & ? & ? & ?). right.
    exists (TiledObjectGroup name objects). split; [done|].
    apply elem_of_layer_collisions. by exists name, objects, obj.
Qed.

Lemma dict_of_pairs_snoc {K V} `{Countable K} (pairs : list (K * V)) (kv : K * V) :
  dict_of_pairs (pairs ++ [kv]) = <[kv.1 := kv.2]> (dict_of_pairs pairs).
Proof. unfold dict_of_pairs. by rewrite foldl_app. Qed.

(** A key of the dictionary holds the value of the last pair with that key. *)
Lemma dict_of_pairs_lookup_Some {K V} `{Countable K} (pairs : list (K * V)) k v :
  dict_of_pairs pairs !! k = Some v →
  ∃ j, pairs !! j = Some (k, v)
       ∧ ∀ j' v', (j < j')%nat → pairs !! j' ≠ Some (k, v').
Proof.
  induction pairs as [|[k' v'] pairs IH] using rev_ind.
  - unfold dict_of_pairs. simpl. by rewrite lookup_empty.
  - rewrite dict_of_pairs_snoc. simpl. destruct (decide (k' = k)) as [->|Hne].
    + rewrite lookup_insert_eq. intros [= ->]. exists (length pairs). split.
      * by rewrite lookup_app_r, Nat.sub_diag by lia.
      * intros j' w Hlt Hj'. apply lookup_lt_Some in Hj'.
        rewrite length_app in Hj'. simpl in Hj'. lia.
    + rewrite lookup_insert_ne by done. intros Hk.
      destruct (IH Hk) as (j & Hj & Hlast). exists j. split.
      * by apply lookup_app_l_Some.
      * intros j' w Hlt Hj'.
        destruct (decide (j' < length pairs)%nat) as [Hin|Hout].
        -- rewrite lookup_app_l in Hj' by done. by eapply Hlast.
        -- rewrite lookup_app_r in Hj' by lia.
           destruct (j' - length pairs)%nat; simpl in Hj'; [congruence|done].
Qed.

Lemma dict_of_pairs_is_Some {K V} `{Countable K} (pairs : list (K * V)) k v :
  (k, v) ∈ pairs → is_Some (dict_of_pairs pairs !! k).
Proof.
  induction pairs as [|[k' v'] pairs IH] using rev_ind.
  - intros Hin. by apply elem_of_nil in Hin.
  - rewrite dict_of_pairs_snoc. simpl. intros Hin.
    destruct (decide (k' = k)) as [->|Hne].
    + rewrite lookup_insert_eq. eauto.
    + rewrite lookup_insert_ne by done. apply IH.
      apply elem_of_app in Hin as [?|Hin]; [done|].
      apply list_elem_of_singleton in Hin. congruence.
Qed.

Lemma lookup_zip_centers (l : list Tile) (j : nat) (q : Point) (t : Tile) :
  zip (center fl <$> l) l !! j = Some (q, t) ↔ l !! j = Some t ∧ q = center fl t.
Proof.
  revert j. induction l as [|t' l IH]; intros j; simpl.
  - split; [done|]. by intros [? _].
  - destruct j as [|j]; simpl.
    + split; [by intros [= <- <-]|]. by intros [[= ->] ->].
    + apply IH.
Qed.

(** The first minimum, in the order of the data. *)
Lemma nearest_point_spec (p : Point) (data : list Point) (i : nat) (q : Point) :
  nearest_point p data = Some (i, q) →
  data !! i = Some q
  ∧ (∀ j r, data !! j = Some r → (dist2 p q <= dist2 p r)%Qc)
  ∧ (∀ j r, (j < i)%nat → data !! j = Some r → (dist2 p q < dist2 p r)%Qc).
Proof.
  revert i q. induction data as [|q0 rest IH]; intros i q; simpl; [done|].
  destruct (nearest_point p rest) as [[i' r']|] eqn:Hrest.
  - destruct (IH i' r' eq_refl) as (Hi' & Hmin & Hfirst).
    case_decide as Hlt; intros [= <- <-].
    + split; [done|]. split.
      * intros [|j] r; simpl.
        -- intros [= <-]. by apply Qclt_le_weak.
        -- apply Hmin.
      * intros [|j] r Hj; simpl.
        -- by intros [= <-].
        -- apply Hfirst. lia.
    + apply Qcnot_lt_le in Hlt. split; [done|]. split.
      * intros [|j] r; simpl.
        -- intros [= <-]. apply Qcle_refl.
        -- intros Hj. eapply Qcle_trans; [apply Hlt|]. by eapply Hmin.
      * intros j r Hj. lia.
  - intros [= <- <-]. destruct rest; [|simpl in Hrest; repeat case_match; done].
    split; [done|]. split.
    + intros [|j] r; simpl; [|done]. intros [= <-]. apply Qcle_refl.
    + intros j r Hj. lia.
Qed.

Lemma nearest_point_is_Some (p : Point) (data : list Point) :
  data ≠ [] → is_Some (nearest_point p data).
Proof.
  destruct data as [|q rest]; [done|]. intros _. simpl.
  repeat case_match; eauto.
Qed.

End ExtractionFacts.

Section SpatialIndexFacts.

Variable fl : Qc → Qc.
Variable iter_tiles : gset Tile → list Tile.
Hypothesis iter_tiles_perm : ∀ s, iter_tiles s ≡ₚ elements s.

Lemma elem_of_iter_tiles (s : gset Tile) (t : Tile) : t ∈ iter_tiles s ↔ t ∈ s.
Proof. by rewrite iter_tiles_perm, elem_of_elements. Qed.

Lemma NoDup_iter_tiles (s : gset Tile) : NoDup (iter_tiles s).
Proof. rewrite iter_tiles_perm. apply NoDup_elements. Qed.

Lemma iter_tiles_nil (s : gset Tile) : iter_tiles s = [] ↔ s = ∅.
Proof.
  split.
  - intros Hnil. apply leibniz_equiv, elements_empty_inv.
    apply Permutation_nil_r. by rewrite <-iter_tiles_perm, Hnil.
  - intros ->. apply Permutation_nil_r.
    by rewrite iter_tiles_perm, elements_empty.
Qed.

(** The build succeeds exactly on a non-empty set of tiles, and then the
    tree holds the centers in iteration order. *)
Lemma build_nonempty (collidableElements : gset Tile) :
  collidableElements ≠ ∅ →
  _buildOptimizedCollisionKdTree fl iter_tiles collidableElements =
    Ok ({| kd_data := center fl <$> iter_tiles collidableElements; kd_leafsize := 16 |},
        dict_of_pairs (zip (center fl <$> iter_tiles collidableElements)
                           (iter_tiles collidableElements))).
Proof.
  intros Hne. unfold _buildOptimizedCollisionKdTree.
  destruct (iter_tiles collidableElements) as [|t l] eqn:Hiter.
  - by apply iter_tiles_nil in Hiter.
  - reflexivity.
Qed.

(** What the position mapping holds: for a center of the data, the last
    tile, in iteration order, with that center. *)
Lemma mapping_lookup_Some (l : list Tile) (q : Point) (t : Tile) :
  dict_of_pairs (zip (center fl <$> l) l) !! q = Some t →
  ∃ j, l !! j = Some t ∧ q = center fl t
       ∧ ∀ k t', l !! k = Some t' → center fl t' = center fl t → (k ≤ j)%nat.
Proof.
  intros Hq. apply dict_of_pairs_lookup_Some in Hq as (j & Hj & Hlast).
  apply lookup_zip_centers in Hj as [Hj ->]. exists j. do 2 (split; [done|]).
  intros k t' Hk Hc. destruct (decide (k ≤ j)%nat) as [|Hgt]; [done|].
  exfalso. apply (Hlast k t'); [lia|]. apply lookup_zip_centers. by rewrite Hc.
Qed.

Lemma mapping_is_Some (l : list Tile) (i : nat) (q : Point) :
  (center fl <$> l) !! i = Some q → is_Some (dict_of_pairs (zip (center fl <$> l) l) !! q).
Proof.
  rewrite list_lookup_fmap. intros Hi.
  destruct (l !! i) as [t|] eqn:Ht; simplify_eq/=.
  apply (dict_of_pairs_is_Some _ _ t), list_elem_of_lookup. exists i.
  by apply lookup_zip_centers.
Qed.

(** The first nearest point is a nearest point. *)
Lemma first_nearest_is_nearest : nearest_neighbour_query first_nearest.
Proof.
  intros tree p Hdata. unfold first_nearest.
  destruct (nearest_point_is_Some p _ Hdata) as [[i q] Hnp]. rewrite Hnp.
  destruct (nearest_point_spec _ _ _ _ Hnp) as (Hi & Hmin & _).
  exists q. split; [done|]. intros r Hr.
  apply list_elem_of_lookup in Hr as [j Hj]. by apply (Hmin j).
Qed.

(** The tile the spec asks for is a tile of the input whose center no
    other center beats, and every tile before it is strictly farther. *)
Lemma nearest_in_input_order_spec (c : Tile → Point) (tiles : list Tile)
    (p : Point) (t : Tile) :
  nearest_in_input_order c tiles p = Some t →
  ∃ i, tiles !! i = Some t
       ∧ (∀ t', t' ∈ tiles → (dist2 p (c t) <= dist2 p (c t'))%Qc)
       ∧ (∀ k t', (k < i)%nat → tiles !! k = Some t' → (dist2 p (c t) < dist2 p (c t'))%Qc).
Proof.
  unfold nearest_in_input_order.
  destruct (nearest_point p (c <$> tiles)) as [[i q]|] eqn:Hnp; [|done].
  intros Ht. destruct (nearest_point_spec _ _ _ _ Hnp) as (Hi & Hmin & Hfirst).
  rewrite list_lookup_fmap, Ht in Hi. injection Hi as <-.
  exists i. split; [done|]. split.
  - intros t' Ht'. apply list_elem_of_lookup in Ht' as [k Hk].
    apply (Hmin k). by rewrite list_lookup_fmap, Hk.
  - intros k t' Hlt Hk. apply (Hfirst k); [done|]. by rewrite list_lookup_fmap, Hk.
Qed.

Lemma nearest_in_input_order_is_Some (c : Tile → Point) (tiles : list Tile) (p : Point) :
  tiles ≠ [] → is_Some (nearest_in_input_order c tiles p).
Proof.
  intros Hne. unfold nearest_in_input_order.
  destruct (nearest_point_is_Some p (c <$> tiles)) as [[i q] Hnp].
  { intros Hnil. by apply fmap_nil_inv in Hnil. }
  rewrite Hnp. destruct (nearest_point_spec _ _ _ _ Hnp) as (Hi & _).
  rewrite list_lookup_fmap in Hi. destruct (tiles !! i); [eauto|done].
Qed.

(** The nearest-neighbour query of the tree, with its contract. *)
Variable query : KDTree → Point → nat.
Hypothesis query_nearest : nearest_neighbour_query query.


(** C4. The tiles are one rectangle per distinct collision object of the
    map (the set removes repetitions), and the point the tree holds for the
    rectangle [(x, width, y, height)] is [(x + width/2, y - height/2)],
    each operation in the arithmetic of the source; the position mapping
    takes each such point back to a rectangle with that center. *)
Theorem index_holds_center_of_each_distinct_tile (tmxMapData : TiledMap) :
  _extractCollidableTilesOptimized fl tmxMapData ≠ ∅ →
  let tiles := iter_tiles (_extractCollidableTilesOptimized fl tmxMapData) in
  NoDup tiles
  ∧ (∀ t, t ∈ tiles ↔
       ∃ name objects obj,
         TiledObjectGroup name objects ∈ tmxMapData
         ∧ name = "collision_boundaries"
         ∧ obj ∈ objects
         ∧ t = tile_of_object fl obj)
  ∧ ∃ tree mapping,
      _buildOptimizedCollisionKdTree fl iter_tiles
        (_extractCollidableTilesOptimized fl tmxMapData) = Ok (tree, mapping)
      ∧ length (kd_data tree) = size (_extractCollidableTilesOptimized fl tmxMapData)
      ∧ (∀ i x width y height,
           tiles !! i = Some (x, width, y, height) →
           kd_data tree !! i
           = Some (fl (x + fl (width / Qc_of_Z 2))%Qc, fl (y - fl (height / Qc_of_Z 2))%Qc))
      ∧ (∀ i q, kd_data tree !! i = Some q → ∃ t, tiles !! i = Some t ∧ q = center fl t)
      ∧ (∀ q t, mapping !! q = Some t → t ∈ tiles ∧ q = center fl t).
Proof.
  intros Hne tiles. subst tiles. split; [apply NoDup_iter_tiles|]. split.
  { intros t. by rewrite elem_of_iter_tiles, elem_of_extract. }
  eexists _, _. split; [by apply build_nonempty|]. cbn [kd_data].
  split.
  { rewrite length_fmap. by rewrite iter_tiles_perm. }
  split.
  { intros i x w y h Hi. rewrite list_lookup_fmap.
    exact (f_equal (fmap (center fl)) Hi). }
  split.
  { intros i q. rewrite list_lookup_fmap. intros Hi.
    destruct (iter_tiles _ !! i) as [t|]; simplify_eq/=. by exists t. }
  intros q t Hq. apply mapping_lookup_Some in Hq as (j & Hj & -> & _).
  split; [|done]. apply list_elem_of_lookup. by exists j.
Qed.

(** C5 (what the code does on the empty set). With no collidable tile the
    list of positions is empty and the KDTree constructor raises
    ValueError, so no index is returned. *)
Theorem empty_tile_set_raises :
  _buildOptimizedCollisionKdTree fl iter_tiles ∅ = Err ValueError.
Proof.
  unfold _buildOptimizedCollisionKdTree.
  by replace (iter_tiles ∅) with (@nil Tile) by (symmetry; by apply iter_tiles_nil).
Qed.

End SpatialIndexFacts.

(** C9. When the map file that start-up selects is missing or corrupt,
    [_initializeSpatialSystems] raises, whether or not a logger is bound,
    and so does the construction of the server. *)
Theorem invalid_map_aborts_startup (fl : Qc → Qc)
    (iter_tiles : gset Tile → list Tile) (has_logger : bool)
    (config : ServerConfiguration) (configuration : option ServerConfiguration)
    (udp_bind : result unit) (fs : FileSystem) (rng : Random) :
  (∀ tmx, gameMapPath fs ≠ Valid tmx) →
  (∃ e, _initializeSpatialSystems fl iter_tiles has_logger config fs = Err e)
  ∧ (∃ e, __init__ fl iter_tiles configuration udp_bind fs rng = Err e).
Proof.
  intros Hinvalid.
  assert (∀ b c, ∃ e, _initializeSpatialSystems fl iter_tiles b c fs = Err e) as Hraise.
  { intros b c. unfold _initializeSpatialSystems, spatial_try.
    destruct (gameMapPath fs) as [| |tmx] eqn:Hpath; simpl.
    - destruct b; simpl; eauto.
    - destruct b; simpl; eauto.
    - by destruct (Hinvalid tmx). }
  split; [apply Hraise|].
  unfold __init__. destruct udp_bind as [[]|e]; simpl; [|eauto].
  destruct (Hraise false (default default_ServerConfiguration configuration))
    as [e ->]. simpl. eauto.
Qed.

(** ** Sequencing *)

Lemma bind_Returns {A B} (m : M A) (k : A → M B) (s s1 : Server) (a : A) :
  m s = Returns a s1 → (m ≫= k) s = k a s1.
Proof. intros Hm. unfold mbind, M_bind. by rewrite Hm. Qed.

(** ** The player grid *)

Lemma cleared_cell (g : gmap (Z * Z) (gset Z)) (playerId : Z) (k : Z * Z) :
  default ∅ (((λ ids : gset Z, ids ∖ {[playerId]}) <$> g) !! k)
  = default ∅ (g !! k) ∖ {[playerId]}.
Proof. rewrite lookup_fmap. destruct (g !! k); simpl; set_solver. Qed.

Lemma add_player_cell_key (g : EnhancedPlayerGrid) (playerId x y x' y' : Z) :
  cell_key (add_player g playerId x y) x' y' = cell_key g x' y'.
Proof. reflexivity. Qed.

(** After [add_player] the entity is listed in the cell of its coordinates
    and in no other. *)
Lemma add_player_same (g : EnhancedPlayerGrid) (playerId x y : Z) (k : Z * Z) :
  playerId ∈ grid_cell (add_player g playerId x y) k ↔ k = cell_key g x y.
Proof.
  unfold grid_cell, add_player. cbn [cells].
  destruct (decide (cell_key g x y = k)) as [<-|Hne].
  - rewrite lookup_insert_eq. simpl. set_solver.
  - rewrite lookup_insert_ne by done. rewrite cleared_cell. set_solver.
Qed.

(** The other entities stay where they are. *)
Lemma add_player_other (g : EnhancedPlayerGrid) (playerId x y other : Z) (k : Z * Z) :
  other ≠ playerId →
  other ∈ grid_cell (add_player g playerId x y) k ↔ other ∈ grid_cell g k.
Proof.
  intros Hne. unfold grid_cell, add_player. cbn [cells].
  destruct (decide (cell_key g x y = k)) as [<-|Hk].
  - rewrite lookup_insert_eq. simpl. rewrite cleared_cell. set_solver.
  - rewrite lookup_insert_ne by done. rewrite cleared_cell. set_solver.
Qed.

(** ** The spawn search *)

Lemma after_draws_0 (s : Server) : after_draws 0 s = s.
Proof.
  destruct s as [? ? ? ? ? ? ? ? ? ? ? ? ? ? [tp c]]. unfold after_draws. simpl.
  by rewrite Nat.add_0_r.
Qed.

Lemma after_draws_add (n m : nat) (s : Server) :
  after_draws n (after_draws m s) = after_draws (m + n) s.
Proof. unfold after_draws. simpl. by rewrite Nat.add_assoc. Qed.

Lemma too_close_false (x y : Z) (p : Z * Z) :
  too_close x y p = false ↔ separated (x, y) p.
Proof.
  unfold too_close, separated. simpl.
  rewrite andb_false_iff, !bool_decide_eq_false. lia.
Qed.

Lemma separated_sym (p q : Z * Z) : separated p q → separated q p.
Proof. unfold separated. lia. Qed.

Section SpawnFacts.

Variable iter_positions : gset (Z * Z) → list (Z * Z).
Hypothesis iter_positions_perm : ∀ s, iter_positions s ≡ₚ elements s.
Variable EnhancedBot_new :
  Z → Z → bool → Z → Z → KDTree → gmap Point Tile → EnhancedBot.

Lemma elem_of_iter_positions (ps : gset (Z * Z)) (p : Z * Z) :
  p ∈ iter_positions ps ↔ p ∈ ps.
Proof. by rewrite iter_positions_perm, elem_of_elements. Qed.

(** One attempt: it returns, counts itself, consumes two draws and adds the
    candidate unless an accepted position is too close to it. *)
Lemma spawn_attempt_spec (boundaries : Z * Z) (st : SpawnSearch) (s : Server) :
  0 ≤ (serverBoundaryCoordinates s).1 →
  0 ≤ (serverBoundaryCoordinates s).2 →
  spawn_attempt iter_positions boundaries st s =
    Returns
      {| positions :=
           if negb (existsb (too_close (candidate boundaries s).1 (candidate boundaries s).2)
                            (iter_positions (positions st)))
           then positions st ∪ {[candidate boundaries s]}
           else positions st;
         attempts := attempts st + 1 |}
      (after_draws 2 s).
Proof.
  intros HW HH. unfold spawn_attempt, randint, candidate, after_draws.
  unfold mbind, M_bind, get, next_raw, mret, M_ret. simpl.
  destruct (Z.ltb_spec (serverBoundaryCoordinates s).1 0) as [|_]; [lia|].
  destruct (Z.ltb_spec (serverBoundaryCoordinates s).2 0) as [|_]; [lia|].
  simpl. rewrite !Z.sub_0_r.
  replace (cursor (random_module s) + 2)%nat with (S (S (cursor (random_module s)))) by lia.
  reflexivity.
Qed.

Lemma candidate_within (boundaries : Z * Z) (s : Server) :
  0 ≤ (serverBoundaryCoordinates s).1 →
  0 ≤ (serverBoundaryCoordinates s).2 →
  within_region boundaries s (candidate boundaries s).
Proof.
  intros HW HH. unfold within_region, candidate. simpl.
  pose proof (Z.mod_pos_bound
    (tape (random_module s) (cursor (random_module s)) `mod` 2 ^ 53)
    ((serverBoundaryCoordinates s).1 + 1)).
  pose proof (Z.mod_pos_bound
    (tape (random_module s) (S (cursor (random_module s))) `mod` 2 ^ 53)
    ((serverBoundaryCoordinates s).2 + 1)).
  lia.
Qed.

Lemma existsb_too_close_false (x y : Z) (ps : gset (Z * Z)) :
  existsb (too_close x y) (iter_positions ps) = false ↔
  ∀ p, p ∈ ps → separated (x, y) p.
Proof.
  rewrite <-not_true_iff_false, existsb_exists. split.
  - intros Hno p Hp. apply too_close_false.
    destruct (too_close x y p) eqn:Hclose; [|done].
    destruct Hno. exists p. split; [|done].
    by apply list_elem_of_In, elem_of_iter_positions.
  - intros Hsep (p & Hp & Hclose).
    apply list_elem_of_In, elem_of_iter_positions, Hsep, too_close_false in Hp.
    congruence.
Qed.

Lemma search_invariant_attempt (count : Z) (boundaries : Z * Z) (s0 : Server)
    (st : SpawnSearch) (s : Server) :
  0 ≤ (serverBoundaryCoordinates s0).1 →
  0 ≤ (serverBoundaryCoordinates s0).2 →
  search_invariant count boundaries s0 st s →
  Z.of_nat (size (positions st)) < count →
  ∃ st' s',
    spawn_attempt iter_positions boundaries st s = Returns st' s'
    ∧ attempts st' = attempts st + 1
    ∧ search_invariant count boundaries s0 st' s'.
Proof.
  intros HW HH (Hsize & Hin & Hsep & Hatt & Hs) Hlt.
  assert (serverBoundaryCoordinates s = serverBoundaryCoordinates s0) as Hb
    by (by rewrite Hs).
  eexists _, _. split; [apply spawn_attempt_spec; by rewrite Hb|].
  split; [done|]. unfold search_invariant. cbn [positions attempts].
  assert (within_region boundaries s0 (candidate boundaries s)) as Hc.
  { pose proof (candidate_within boundaries s) as Hc.
    unfold within_region in *. rewrite Hb in Hc. apply Hc; done. }
  split; [|split; [|split; [|split]]].
  - destruct (existsb _ _); simpl; [lia|].
    pose proof (size_union_alt (positions st) {[candidate boundaries s]}) as Hu.
    pose proof (subseteq_size ({[candidate boundaries s]} ∖ positions st)
                  {[candidate boundaries s]}) as Hd.
    rewrite size_singleton in Hd. rewrite Hu.
    assert (size ({[candidate boundaries s]} ∖ positions st) ≤ 1)%nat
      by (apply Hd; by intros x [? _]%elem_of_difference).
    lia.
  - intros p. destruct (existsb _ _); simpl; [apply Hin|].
    rewrite elem_of_union, elem_of_singleton. intros [?| ->]; [by apply Hin|done].
  - intros p q.
    destruct (existsb _ _) eqn:Hex; simpl; [apply Hsep|].
    destruct (candidate boundaries s) as [x y] eqn:Hcand. simpl in Hex.
    pose proof (proj1 (existsb_too_close_false x y (positions st)) Hex) as Hfar.
    rewrite !elem_of_union, !elem_of_singleton.
    intros [Hp| ->] [Hq| ->] Hne.
    + by apply Hsep.
    + by apply separated_sym, Hfar.
    + by apply Hfar.
    + done.
  - lia.
  - rewrite Hs, after_draws_add. f_equal.
    rewrite Z2Nat.inj_add by lia. simpl. lia.
Qed.

(** The search returns: [10 * count] units of fuel are enough, and the
    invariant holds of what it returns. *)
Lemma spawn_search_returns (count maxAttempts : Z) (boundaries : Z * Z)
    (s0 : Server) (fuel : nat) :
  0 ≤ (serverBoundaryCoordinates s0).1 →
  0 ≤ (serverBoundaryCoordinates s0).2 →
  ∀ st s,
    search_invariant count boundaries s0 st s →
    attempts st ≤ maxAttempts →
    (Z.to_nat (maxAttempts - attempts st) ≤ fuel)%nat →
    ∃ st' s',
      spawn_search iter_positions fuel count maxAttempts boundaries st s
        = Returns st' s'
      ∧ search_invariant count boundaries s0 st' s'
      ∧ attempts st' ≤ maxAttempts.
Proof.
  intros HW HH. induction fuel as [|fuel IH]; intros st s Hinv Hmax Hfuel.
  - exists st, s. simpl.
    rewrite (bool_decide_eq_false_2 (attempts st < maxAttempts)) by lia.
    by rewrite andb_false_r.
  - simpl. destruct (bool_decide (Z.of_nat (size (positions st)) < count)) eqn:Hc1;
      [|by exists st, s].
    destruct (bool_decide (attempts st < maxAttempts)) eqn:Hc2; [|by exists st, s].
    apply bool_decide_eq_true in Hc1, Hc2. simpl.
    destruct (search_invariant_attempt _ _ _ _ _ HW HH Hinv Hc1)
      as (st1 & s1 & Hstep & Hatt1 & Hinv1).
    unfold mbind, M_bind at 1. rewrite Hstep.
    apply IH; [done|lia|lia].
Qed.

Lemma generate_returns (count : Z) (boundaries : Z * Z) (s : Server) :
  0 ≤ count →
  0 ≤ (serverBoundaryCoordinates s).1 →
  0 ≤ (serverBoundaryCoordinates s).2 →
  ∃ st,
    spawn_search iter_positions (Z.to_nat (count * 10)) count (count * 10) boundaries
      {| positions := ∅; attempts := 0 |} s
      = Returns st (after_draws (2 * Z.to_nat (attempts st)) s)
    ∧ _generateOptimizedSpawnPositions iter_positions count boundaries s
      = Returns (iter_positions (positions st))
                (after_draws (2 * Z.to_nat (attempts st)) s)
    ∧ search_invariant count boundaries s st
        (after_draws (2 * Z.to_nat (attempts st)) s)
    ∧ attempts st ≤ count * 10.
Proof.
  intros Hcount HW HH.
  destruct (spawn_search_returns count (count * 10) boundaries s
              (Z.to_nat (count * 10)) HW HH
              {| positions := ∅; attempts := 0 |} s)
    as (st & s' & Hrun & Hinv & Hmax).
  - unfold search_invariant. cbn [positions attempts].
    change (2 * Z.to_nat 0)%nat with O. rewrite after_draws_0.
    split; [rewrite size_empty; lia|]. repeat split; try done; set_solver.
  - simpl. lia.
  - simpl. lia.
  - assert (s' = after_draws (2 * Z.to_nat (attempts st)) s) as ->
      by apply Hinv.
    exists st. split; [done|]. split; [|done].
    unfold _generateOptimizedSpawnPositions, mbind, M_bind. by rewrite Hrun.
Qed.

(** C1. For a count [N >= 0] and a region of non-negative extent, the
    generator returns; what it returns are at most [N] distinct positions,
    each inside the region, any two of them at least 100 units apart in
    some axis; the search made at most [10 * N] attempts (two draws each);
    and an attempt drops its candidate exactly when some accepted position
    is less than 100 units away from it in both axes. *)
Theorem spawn_positions_bounded_separated_capped
    (count : Z) (boundaries : Z * Z) (s : Server) :
  0 ≤ count →
  0 ≤ (serverBoundaryCoordinates s).1 →
  0 ≤ (serverBoundaryCoordinates s).2 →
  ∃ spawnPositions st,
    spawn_search iter_positions (Z.to_nat (count * 10)) count (count * 10) boundaries
      {| positions := ∅; attempts := 0 |} s
      = Returns st (after_draws (2 * Z.to_nat (attempts st)) s)
    ∧ _generateOptimizedSpawnPositions iter_positions count boundaries s
      = Returns spawnPositions (after_draws (2 * Z.to_nat (attempts st)) s)
    ∧ 0 ≤ Z.of_nat (length spawnPositions) ≤ count
    ∧ NoDup spawnPositions
    ∧ (∀ p, p ∈ spawnPositions → within_region boundaries s p)
    ∧ (∀ p q, p ∈ spawnPositions → q ∈ spawnPositions → p ≠ q → separated p q)
    ∧ 0 ≤ attempts st ≤ 10 * count
    ∧ ∀ st0 s1,
        serverBoundaryCoordinates s1 = serverBoundaryCoordinates s →
        ∃ st1,
          spawn_attempt iter_positions boundaries st0 s1 = Returns st1 (after_draws 2 s1)
          ∧ attempts st1 = attempts st0 + 1
          ∧ ((∀ p, p ∈ positions st0 → separated (candidate boundaries s1) p) →
             positions st1 = positions st0 ∪ {[candidate boundaries s1]})
          ∧ ((∃ p, p ∈ positions st0
                   ∧ Z.abs ((candidate boundaries s1).1 - p.1) < 100
                   ∧ Z.abs ((candidate boundaries s1).2 - p.2) < 100) →
             positions st1 = positions st0).
Proof.
  intros Hcount HW HH.
  destruct (generate_returns count boundaries s Hcount HW HH)
    as (st & Hsearch & Hgen & (Hsize & Hin & Hsep & Hatt & _) & Hmax).
  exists (iter_positions (positions st)), st.
  split; [done|]. split; [done|]. split.
  { rewrite iter_positions_perm.
    change (length (elements (positions st))) with (size (positions st)). lia. }
  split.
  { rewrite iter_positions_perm. apply NoDup_elements. }
  split.
  { intros p Hp. by apply Hin, elem_of_iter_positions. }
  split.
  { intros p q Hp Hq. apply Hsep; by apply elem_of_iter_positions. }
  split; [lia|].
  intros st0 s1 Hb. eexists. split.
  { apply spawn_attempt_spec; by rewrite Hb. }
  cbn [positions attempts]. split; [done|].
  destruct (candidate boundaries s1) as [x y]. cbn [fst snd]. split.
  - intros Hfar. apply existsb_too_close_false in Hfar. by rewrite Hfar.
  - intros (p & Hp & Hx & Hy).
    destruct (existsb (too_close x y) (iter_positions (positions st0))) eqn:Hex;
      [done|].
    pose proof (proj1 (existsb_too_close_false x y (positions st0)) Hex p Hp) as Hfar.
    unfold separated in Hfar. simpl in Hfar. lia.
Qed.

(** What the loop over the spawn positions leaves behind, the first
    position getting the id [first]. *)
Lemma spawn_each_spec (spawnPositions : list (Z * Z)) :
  ∀ (first : Z) (s : Server),
  ∃ s',
    spawn_each EnhancedBot_new first spawnPositions s = Returns tt s'
    ∧ isConnectedToLoadBalancer s' = isConnectedToLoadBalancer s
    ∧ spatialCollisionTree s' = spatialCollisionTree s
    ∧ tilePositionMapping s' = tilePositionMapping s
    ∧ cellSize (spatialPlayerGrid s') = cellSize (spatialPlayerGrid s)
    ∧ (∀ k, k < first ∨ first + Z.of_nat (length spawnPositions) ≤ k →
         activePlayerData s' !! k = activePlayerData s !! k
         ∧ gameStateUpdates s' !! k = gameStateUpdates s !! k
         ∧ enhancedBotManager s' !! k = enhancedBotManager s !! k
         ∧ ∀ c, in_cell s' k c ↔ in_cell s k c)
    ∧ (∀ j x y, spawnPositions !! j = Some (x, y) →
         ∃ aggressive,
           let botId := first + Z.of_nat j in
           let bot := EnhancedBot_new x y aggressive 0 0
                        (spatialCollisionTree s) (tilePositionMapping s) in
           enhancedBotManager s' !! botId = Some bot
           ∧ activePlayerData s' !! botId
             = Some (player_record x y (isAggressive bot) 0 100)
           ∧ gameStateUpdates s' !! botId = Some ∅
           ∧ ∀ c, in_cell s' botId c ↔ c = cell_key (spatialPlayerGrid s) x y).
Proof.
  induction spawnPositions as [|[x y] rest IH]; intros first s.
  - exists s. simpl. repeat split; done.
  - cbn [spawn_each].
    rewrite (bind_Returns _ _ s (after_spawn_one EnhancedBot_new first x y s) tt)
      by reflexivity.
    set (s1' := after_spawn_one EnhancedBot_new first x y s).
    destruct (IH (first + 1) s1') as (s' & Hrun & Hflag & Htree & Hmap & Hsize & Hframe & Hbots).
    exists s'. split; [done|]. split; [by rewrite Hflag|].
    split; [by rewrite Htree|]. split; [by rewrite Hmap|].
    split; [by rewrite Hsize|]. split.
    + intros k Hk. cbn [length] in Hk.
      destruct (Hframe k) as (Ha & Hu & Hb & Hg); [lia|].
      rewrite Ha, Hu, Hb. subst s1'. cbn.
      rewrite !lookup_insert_ne by lia. do 3 (split; [done|]).
      intros c. rewrite Hg. unfold in_cell. cbn.
      apply add_player_other. lia.
    + intros [|j] x' y' Hj.
      * cbn in Hj. injection Hj as <- <-. eexists.
        destruct (Hframe first) as (Ha & Hu & Hb & Hg); [lia|].
        rewrite Z.add_0_r, Ha, Hu, Hb. subst s1'. cbn.
        rewrite !lookup_insert_eq. do 3 (split; [reflexivity|]).
        intros c. rewrite Hg. unfold in_cell. cbn. apply add_player_same.
      * cbn in Hj. destruct (Hbots j x' y' Hj) as (agg & Hbot).
        exists agg. cbn zeta in Hbot |- *.
        replace (first + Z.of_nat (S j)) with (first + 1 + Z.of_nat j) by lia.
        replace (spatialCollisionTree s) with (spatialCollisionTree s1') by done.
        replace (tilePositionMapping s) with (tilePositionMapping s1') by done.
        replace (cell_key (spatialPlayerGrid s) x' y')
          with (cell_key (spatialPlayerGrid s1') x' y') by done.
        exact Hbot.
Qed.

(** C10. On a server whose three tables are still empty (as [__init__]
    leaves them), in a region of non-negative extent, spawning [N >= 0]
    bots returns; the ids in use afterwards are exactly [0 .. k-1], [k <= N]
    being the number of positions generated; and for the id [j] of the
    [j]-th position [(x, y)]: the bot registry holds the bot built for
    [(x, y)], [activePlayerData] holds [(x, y)] with angle 0 and health 100,
    the delta is empty, and the grid lists the id in the cell of [(x, y)]
    and nowhere else. *)
Theorem spawned_bots_registered_consistently (numberOfBots : Z) (s : Server) :
  0 ≤ numberOfBots →
  0 ≤ (serverBoundaryCoordinates s).1 →
  0 ≤ (serverBoundaryCoordinates s).2 →
  activePlayerData s = ∅ →
  gameStateUpdates s = ∅ →
  enhancedBotManager s = ∅ →
  ∃ spawnPositions s1 s',
    _generateOptimizedSpawnPositions iter_positions numberOfBots (regionBoundaries s) s
      = Returns spawnPositions s1
    ∧ spawnEnhancedBotsInRegion iter_positions EnhancedBot_new numberOfBots s
      = Returns tt s'
    ∧ Z.of_nat (length spawnPositions) ≤ numberOfBots
    ∧ (∀ botId, is_Some (enhancedBotManager s' !! botId)
                ↔ 0 ≤ botId < Z.of_nat (length spawnPositions))
    ∧ (∀ botId, is_Some (activePlayerData s' !! botId)
                ↔ 0 ≤ botId < Z.of_nat (length spawnPositions))
    ∧ (∀ botId, is_Some (gameStateUpdates s' !! botId)
                ↔ 0 ≤ botId < Z.of_nat (length spawnPositions))
    ∧ ∀ j x y, spawnPositions !! j = Some (x, y) →
        ∃ aggressive,
          let botId := Z.of_nat j in
          let bot := EnhancedBot_new x y aggressive 0 0
                       (spatialCollisionTree s) (tilePositionMapping s) in
          enhancedBotManager s' !! botId = Some bot
          ∧ activePlayerData s' !! botId
            = Some (player_record x y (isAggressive bot) 0 100)
          ∧ store_position s' botId = Some (x, y)
          ∧ gameStateUpdates s' !! botId = Some ∅
          ∧ grid_contains (spatialPlayerGrid s') botId x y
          ∧ ∀ c, in_cell s' botId c ↔ c = cell_key (spatialPlayerGrid s') x y.
Proof.
  intros Hcount HW HH Hapd Hgsu Hebm.
  destruct (generate_returns numberOfBots (regionBoundaries s) s Hcount HW HH)
    as (st & _ & Hgen & (Hsize & _) & _).
  set (spawnPositions := iter_positions (positions st)) in *.
  set (s1 := after_draws (2 * Z.to_nat (attempts st)) s) in *.
  destruct (spawn_each_spec spawnPositions 0 s1)
    as (s' & Hrun & _ & _ & _ & Hcell & Hframe & Hbots).
  assert (Z.of_nat (length spawnPositions) ≤ numberOfBots) as Hlen.
  { unfold spawnPositions. rewrite iter_positions_perm.
    change (length (elements (positions st))) with (size (positions st)). lia. }
  assert (∀ botId, 0 ≤ botId < Z.of_nat (length spawnPositions) →
            ∃ j x y, botId = Z.of_nat j ∧ spawnPositions !! j = Some (x, y)) as Hidx.
  { intros botId Hid.
    destruct (lookup_lt_is_Some_2 spawnPositions (Z.to_nat botId)) as [[x y] Hj]; [lia|].
    exists (Z.to_nat botId), x, y. split; [lia|done]. }
  exists spawnPositions, s1, s'. split; [done|]. split.
  { unfold spawnEnhancedBotsInRegion.
    rewrite (bind_Returns _ _ s s s) by reflexivity.
    by rewrite (bind_Returns _ _ s s1 spawnPositions). }
  split; [done|].
  assert (∀ botId, ¬ (0 ≤ botId < Z.of_nat (length spawnPositions)) →
            enhancedBotManager s' !! botId = None
            ∧ activePlayerData s' !! botId = None
            ∧ gameStateUpdates s' !! botId = None) as Hout.
  { intros botId Hid. destruct (Hframe botId) as (Ha & Hu & Hb & _); [lia|].
    rewrite Ha, Hu, Hb. subst s1. cbn. by rewrite Hapd, Hgsu, Hebm, !lookup_empty. }
  split; [|split; [|split]].
  - intros botId. split.
    + intros Hsome. destruct (decide (0 ≤ botId < Z.of_nat (length spawnPositions)))
        as [|Hno]; [done|].
      destruct (Hout botId Hno) as (Hnone & _). rewrite Hnone in Hsome.
      by destruct Hsome.
    + intros Hid. destruct (Hidx botId Hid) as (j & x & y & -> & Hj).
      destruct (Hbots j x y Hj) as (agg & Hb & _). rewrite Z.add_0_l in Hb. eauto.
  - intros botId. split.
    + intros Hsome. destruct (decide (0 ≤ botId < Z.of_nat (length spawnPositions)))
        as [|Hno]; [done|].
      destruct (Hout botId Hno) as (_ & Hnone & _). rewrite Hnone in Hsome.
      by destruct Hsome.
    + intros Hid. destruct (Hidx botId Hid) as (j & x & y & -> & Hj).
      destruct (Hbots j x y Hj) as (agg & _ & Ha & _). rewrite Z.add_0_l in Ha. eauto.
  - intros botId. split.
    + intros Hsome. destruct (decide (0 ≤ botId < Z.of_nat (length spawnPositions)))
        as [|Hno]; [done|].
      destruct (Hout botId Hno) as (_ & _ & Hnone). rewrite Hnone in Hsome.
      by destruct Hsome.
    + intros Hid. destruct (Hidx botId Hid) as (j & x & y & -> & Hj).
      destruct (Hbots j x y Hj) as (agg & _ & _ & Hu & _). rewrite Z.add_0_l in Hu. eauto.
  - intros j x y Hj. destruct (Hbots j x y Hj) as (agg & Hb & Ha & Hu & Hg).
    exists agg. cbn zeta in *. rewrite Z.add_0_l in Hb, Ha, Hu, Hg.
    assert (cell_key (spatialPlayerGrid s') x y = cell_key (spatialPlayerGrid s1) x y)
      as Hkey by (unfold cell_key; by rewrite Hcell).
    split; [done|]. split; [done|]. split.
    { unfold store_position. rewrite Ha. reflexivity. }
    split; [done|]. split.
    { apply Hg. by rewrite <-Hkey. }
    intros c. by rewrite Hg, Hkey.
Qed.

End SpawnFacts.

(** ** Publication of bot positions *)

Lemma same_frame_refl (s : Server) : same_frame s s.
Proof. split; [done|]. split; done. Qed.

Lemma same_frame_trans (s1 s2 s3 : Server) :
  same_frame s1 s2 → same_frame s2 s3 → same_frame s1 s3.
Proof.
  intros (Hf1 & Hc1 & Hr1) (Hf2 & Hc2 & Hr2). split; [congruence|].
  split; [congruence|]. intros botId. by rewrite Hr2, Hr1.
Qed.

Lemma same_entity_refl (s : Server) (botId : Z) : same_entity s s botId.
Proof. split; [done|]. split; done. Qed.

Lemma same_entity_trans (s1 s2 s3 : Server) (botId : Z) :
  same_entity s1 s2 botId → same_entity s2 s3 botId → same_entity s1 s3 botId.
Proof.
  intros (Ha1 & Hu1 & Hg1) (Ha2 & Hu2 & Hg2). split; [congruence|].
  split; [congruence|]. intros k. by rewrite Hg2, Hg1.
Qed.

Lemma set_item_Some (d : gmap Z (gmap string value)) (botId : Z) (key : string)
    (v : value) (entry : gmap string value) :
  d !! botId = Some entry →
  set_item d botId key v = Some (<[botId := <[key := v]> entry]> d).
Proof. intros Hd. unfold set_item. by rewrite Hd. Qed.

(** The store section of a registered bot returns; it writes both
    coordinates in both tables and nothing else. *)
Lemma store_update_spec (botId x y : Z) (s : Server) :
  registered s botId →
  ∃ s',
    run_section (StoreUpdate botId x y) s = Returns tt s'
    ∧ store_position s' botId = Some (x, y)
    ∧ update_position s' botId = Some (x, y)
    ∧ spatialPlayerGrid s' = spatialPlayerGrid s
    ∧ same_frame s s'
    ∧ ∀ other, other ≠ botId → same_entity s s' other.
Proof.
  intros [[e1 He1] [e2 He2]]. eexists. split.
  { cbn [run_section].
    erewrite bind_Returns; last first.
    { unfold set_player_item. by erewrite set_item_Some. }
    erewrite bind_Returns; last first.
    { unfold set_player_item. cbn. erewrite set_item_Some; [done|].
      apply lookup_insert_eq. }
    erewrite bind_Returns; last first.
    { unfold set_update_item. cbn. by erewrite set_item_Some. }
    unfold set_update_item. cbn. erewrite set_item_Some; [done|].
    apply lookup_insert_eq. }
  split.
  { unfold store_position. cbn. rewrite lookup_insert_eq. cbn.
    unfold entry_position.
    rewrite lookup_insert_ne by done. by rewrite !lookup_insert_eq. }
  split.
  { unfold update_position. cbn. rewrite lookup_insert_eq. cbn.
    unfold entry_position.
    rewrite lookup_insert_ne by done. by rewrite !lookup_insert_eq. }
  split; [done|]. split.
  { split; [done|]. split; [done|]. intros k. unfold registered. cbn.
    destruct (decide (k = botId)) as [->|Hne].
    - rewrite !lookup_insert_eq, He1, He2. split; intros _; eauto.
    - by rewrite !lookup_insert_ne. }
  intros other Hne. unfold same_entity. cbn.
  by rewrite !lookup_insert_ne.
Qed.

Lemma grid_update_spec (botId x y : Z) (s : Server) :
  ∃ s',
    run_section (GridUpdate botId x y) s = Returns tt s'
    ∧ activePlayerData s' = activePlayerData s
    ∧ gameStateUpdates s' = gameStateUpdates s
    ∧ (∀ k, in_cell s' botId k ↔ k = cell_key (spatialPlayerGrid s) x y)
    ∧ same_frame s s'
    ∧ ∀ other, other ≠ botId → same_entity s s' other.
Proof.
  eexists. split; [reflexivity|]. cbn. do 2 (split; [done|]). split.
  { intros k. apply add_player_same. }
  split; [split; [done|]; split; done|].
  intros other Hne. do 2 (split; [done|]). intros k. by apply add_player_other.
Qed.

Lemma fire_update_spec (botId : Z) (shot : list Z) (s : Server) :
  registered s botId →
  ∃ s',
    run_section (FireUpdate botId shot) s = Returns tt s'
    ∧ same_frame s s'
    ∧ ∀ other, other ≠ botId → same_entity s s' other.
Proof.
  intros [He1 [e2 He2]]. eexists. split.
  { cbn [run_section]. unfold set_update_item. by erewrite set_item_Some. }
  split.
  { split; [done|]. split; [done|]. intros k. unfold registered. cbn.
    destruct (decide (k = botId)) as [->|Hne].
    - rewrite lookup_insert_eq, He2. split; intros [? _]; eauto.
    - by rewrite lookup_insert_ne. }
  intros other Hne. unfold same_entity. cbn. by rewrite lookup_insert_ne.
Qed.

(** A critical section of a registered bot returns and leaves the other
    entities alone. *)
Lemma run_section_frame (c : critical_section) (s : Server) :
  registered s (section_bot c) →
  ∃ s',
    run_section c s = Returns tt s'
    ∧ same_frame s s'
    ∧ ∀ other, other ≠ section_bot c → same_entity s s' other.
Proof.
  intros Hreg. destruct c as [botId x y|botId x y|botId shot]; cbn in Hreg.
  - destruct (store_update_spec botId x y s Hreg) as (s' & ? & _ & _ & _ & ? & ?).
    by exists s'.
  - destruct (grid_update_spec botId x y s) as (s' & ? & _ & _ & _ & ? & ?).
    by exists s'.
  - destruct (fire_update_spec botId shot s Hreg) as (s' & ? & ? & ?).
    by exists s'.
Qed.

Lemma run_sections_frame (cs : list critical_section) :
  ∀ s,
    (∀ c, c ∈ cs → registered s (section_bot c)) →
    ∃ s',
      run_sections cs s = Returns tt s'
      ∧ same_frame s s'
      ∧ ∀ other, (∀ c, c ∈ cs → section_bot c ≠ other) → same_entity s s' other.
Proof.
  induction cs as [|c cs IH]; intros s Hreg.
  - exists s. split; [done|]. split; [apply same_frame_refl|].
    intros other _. apply same_entity_refl.
  - destruct (run_section_frame c s) as (s1 & Hc & Hf1 & He1).
    { apply Hreg, list_elem_of_here. }
    destruct (IH s1) as (s' & Hrun & Hf2 & He2).
    { intros c' Hc'. apply Hf1, Hreg. by apply list_elem_of_further. }
    exists s'. split.
    { cbn [run_sections]. by rewrite (bind_Returns _ _ s s1 tt). }
    split; [by eapply same_frame_trans|].
    intros other Hother. eapply same_entity_trans.
    + apply He1. intros Heq. apply (Hother c); [apply list_elem_of_here|done].
    + apply He2. intros c' Hc'. by apply Hother, list_elem_of_further.
Qed.

Lemma run_sections_app (cs1 cs2 : list critical_section) (s s' : Server) :
  run_sections (cs1 ++ cs2) s = Returns tt s' ↔
  ∃ s1, run_sections cs1 s = Returns tt s1 ∧ run_sections cs2 s1 = Returns tt s'.
Proof.
  revert s. induction cs1 as [|c cs1 IH]; intros s; cbn [app run_sections].
  - split; [intros ?; by exists s|]. by intros (s1 & [= <-] & ?).
  - unfold mbind, M_bind. destruct (run_section c s) as [[] s1|e s1|s1].
    + apply IH.
    + split; [done|]. by intros (? & ? & _).
    + split; [done|]. by intros (? & ? & _).
Qed.

Lemma movement_sections_bot (bots : list (Z * EnhancedBot)) (c : critical_section) :
  c ∈ movement_sections bots → section_bot c ∈ bots.*1.
Proof.
  unfold movement_sections. rewrite list_elem_of_bind.
  intros ([botId bot] & Hc & Hin).
  assert (botId ∈ bots.*1) as Hid.
  { apply list_elem_of_fmap. by exists (botId, bot). }
  destruct (isCurrentlyMoving bot); [|by apply elem_of_nil in Hc].
  apply elem_of_cons in Hc as [->|Hc]; [done|].
  apply list_elem_of_singleton in Hc as ->. done.
Qed.

Lemma movement_sections_cons_moving (botId : Z) (bot : EnhancedBot)
    (bots : list (Z * EnhancedBot)) :
  isCurrentlyMoving bot = true →
  movement_sections ((botId, bot) :: bots)
  = StoreUpdate botId (currentX bot) (currentY bot)
    :: GridUpdate botId (currentX bot) (currentY bot)
    :: movement_sections bots.
Proof. intros Hm. unfold movement_sections. cbn. by rewrite Hm. Qed.

Lemma same_cell_key (s s' : Server) (x y : Z) :
  same_frame s s' →
  cell_key (spatialPlayerGrid s') x y = cell_key (spatialPlayerGrid s) x y.
Proof. intros (_ & Hc & _). unfold cell_key. by rewrite Hc. Qed.

(** Where the publication of one moving bot stands after any number of
    critical sections of a movement pass. *)
Lemma publication_phase (pre post : list (Z * EnhancedBot)) (botId : Z)
    (bot : EnhancedBot) (done todo : list critical_section) (s s' : Server) :
  botId ∉ pre.*1 →
  botId ∉ post.*1 →
  isCurrentlyMoving bot = true →
  (∀ c, c ∈ done → registered s (section_bot c)) →
  movement_sections (pre ++ (botId, bot) :: post) = done ++ todo →
  run_sections done s = Returns tt s' →
  (bot_view s s' botId bot NotPublished ∧ todo ≠ [])
  ∨ (bot_view s s' botId bot StoreOnly ∧ todo ≠ [])
  ∨ bot_view s s' botId bot Published.
Proof.
  intros Hpre Hpost Hmoving Hreg Hsplit Hrun.
  unfold movement_sections in Hsplit. rewrite bind_app in Hsplit.
  fold (movement_sections pre) in Hsplit.
  fold (movement_sections ((botId, bot) :: post)) in Hsplit.
  rewrite movement_sections_cons_moving in Hsplit by done.
  set (x := currentX bot) in *. set (y := currentY bot) in *.
  assert (∀ cs s1 s2,
            (∀ c, c ∈ cs → section_bot c ≠ botId) →
            (∀ c, c ∈ cs → registered s1 (section_bot c)) →
            run_sections cs s1 = Returns tt s2 →
            same_frame s1 s2 ∧ same_entity s1 s2 botId) as Hframe.
  { intros cs s1 s2 Hids Hregs Hcs.
    destruct (run_sections_frame cs s1 Hregs) as (s2' & Hcs' & Hf & He).
    assert (s2' = s2) as -> by congruence. split; [done|]. by apply He. }
  assert (∀ c, c ∈ movement_sections pre → section_bot c ≠ botId) as Hpre_ids.
  { intros c Hc Heq. apply Hpre. rewrite <-Heq. by apply movement_sections_bot. }
  assert (∀ c, c ∈ movement_sections post → section_bot c ≠ botId) as Hpost_ids.
  { intros c Hc Heq. apply Hpost. rewrite <-Heq. by apply movement_sections_bot. }
  symmetry in Hsplit. apply app_eq_inv in Hsplit as [(k & -> & Hk)|(k & Hk & ->)].
  - apply run_sections_app in Hrun as (sA & HrunA & Hrunk).
    destruct (Hframe (movement_sections pre) s sA) as [HfA HeA]; [done| |done|].
    { intros c Hc. apply Hreg. apply elem_of_app. by left. }
    destruct k as [|c1 k].
    { (* nothing of this bot is done *)
      left. cbn in Hk. subst todo. split; [|done].
      cbn in Hrunk. injection Hrunk as <-. exact HeA. }
    cbn in Hk. injection Hk as <- Hk.
    assert (registered sA botId) as HregA.
    { apply HfA. apply (Hreg (StoreUpdate botId x y)).
      apply elem_of_app. right. apply list_elem_of_here. }
    destruct (store_update_spec botId x y sA HregA)
      as (s1 & Hsu & Hstore & Hupd & Hgrid & Hf1 & _).
    cbn [run_sections] in Hrunk. rewrite (bind_Returns _ _ sA s1 tt) in Hrunk by done.
    destruct k as [|c2 k].
    { (* the store is written, the grid is not *)
      right. left. cbn in Hk. subst todo. split; [|done].
      cbn in Hrunk. injection Hrunk as <-.
      split; [done|]. split; [done|].
      intros c. unfold in_cell. rewrite Hgrid. apply HeA. }
    (* both are written *)
    right. right. cbn in Hk. injection Hk as <- Hk.
    destruct (grid_update_spec botId x y s1) as (s2 & Hgu & Hapd & Hgsu & Hcell & Hf2 & _).
    cbn [run_sections] in Hrunk. rewrite (bind_Returns _ _ s1 s2 tt) in Hrunk by done.
    destruct (Hframe k s2 s') as [Hf3 He3]; [| |done|].
    { intros c Hc. apply Hpost_ids. rewrite Hk. apply elem_of_app. by left. }
    { intros c Hc. apply Hf2, Hf1, HfA, Hreg. apply elem_of_app. right.
      do 2 apply list_elem_of_further. done. }
    destruct He3 as (Ha3 & Hu3 & Hg3).
    split; [|split].
    + unfold store_position in *. by rewrite Ha3, Hapd.
    + unfold update_position in *. by rewrite Hu3, Hgsu.
    + intros c. rewrite Hg3, Hcell.
      by rewrite (same_cell_key s2 s' (currentX bot) (currentY bot) Hf3),
                 (same_cell_key s1 s2 (currentX bot) (currentY bot) Hf2).
  - left. split.
    + destruct (Hframe done s s') as [_ He]; [|done|done|done].
      intros c Hc. apply Hpre_ids. rewrite Hk. apply elem_of_app. by left.
    + by destruct k.
Qed.

Lemma bots_registered_sections (bots : list (Z * EnhancedBot)) (s : Server) :
  bots_registered bots s →
  ∀ c, c ∈ movement_sections bots → registered s (section_bot c).
Proof.
  intros Hreg c Hc. apply movement_sections_bot, list_elem_of_fmap in Hc
    as ([botId bot] & -> & Hin).
  by apply (Hreg botId bot).
Qed.

Lemma NoDup_fst_split (bots pre post : list (Z * EnhancedBot)) (botId : Z)
    (bot : EnhancedBot) :
  NoDup (bots.*1) →
  bots = pre ++ (botId, bot) :: post →
  (botId ∉ pre.*1) ∧ (botId ∉ post.*1).
Proof.
  intros Hnd ->. rewrite fmap_app, fmap_cons in Hnd. cbn in Hnd.
  apply list.NoDup_app in Hnd as (_ & Hdisj & Hnd). apply list.NoDup_cons in Hnd as [Hpost _].
  split; [|done]. intros Hpre. apply (Hdisj botId Hpre), list_elem_of_here.
Qed.

(** A movement pass over registered bots, for any order of the snapshot. *)
Lemma movement_pass_phases (bots : list (Z * EnhancedBot)) (s : Server) :
  NoDup (bots.*1) →
  bots_registered bots s →
  (∃ s_end,
     run_sections (movement_sections bots) s = Returns tt s_end
     ∧ ∀ botId bot, (botId, bot) ∈ bots → isCurrentlyMoving bot = true →
         bot_view s s_end botId bot Published)
  ∧ ∀ s' botId bot,
      observable_during (movement_sections bots) s s' →
      (botId, bot) ∈ bots →
      isCurrentlyMoving bot = true →
      bot_view s s' botId bot NotPublished
      ∨ bot_view s s' botId bot StoreOnly
      ∨ bot_view s s' botId bot Published.
Proof.
  intros Hnd Hreg.
  pose proof (bots_registered_sections bots s Hreg) as Hregs. split.
  - destruct (run_sections_frame (movement_sections bots) s Hregs) as (s_end & Hrun & _).
    exists s_end. split; [done|]. intros botId bot Hin Hmoving.
    destruct (list_elem_of_split _ _ Hin) as (pre & post & Hsplit).
    destruct (NoDup_fst_split _ _ _ _ _ Hnd Hsplit) as [Hpre Hpost].
    destruct (publication_phase pre post botId bot (movement_sections bots) [] s s_end)
      as [[_ ?]|[[_ ?]|?]]; try done.
    by rewrite app_nil_r, Hsplit.
  - intros s' botId bot (done & todo & Hcs & Hrun) Hin Hmoving.
    destruct (list_elem_of_split _ _ Hin) as (pre & post & Hsplit).
    destruct (NoDup_fst_split _ _ _ _ _ Hnd Hsplit) as [Hpre Hpost].
    destruct (publication_phase pre post botId bot done todo s s')
      as [[? _]|[[? _]|?]]; try done; [| |by left|by right; left|by right; right].
    + intros c Hc. apply Hregs. rewrite Hcs. apply elem_of_app. by left.
    + by rewrite <-Hsplit.
Qed.


Lemma example_server_activeBots : activeBots example_server = [(0, example_bot)].
Proof. unfold activeBots. cbn. apply map_to_list_singleton. Qed.

Lemma example_server_registered : registered example_server 0.
Proof. split; cbn; rewrite lookup_insert_eq; eauto. Qed.



(** ** The link flag *)

Lemma keeps_link_flag_ret {A} (a : A) : keeps_link_flag (mret a : M A).
Proof. by intros s. Qed.

Lemma keeps_link_flag_raise {A} (e : exn) : keeps_link_flag (raise e : M A).
Proof. by intros s. Qed.

Lemma keeps_link_flag_get : keeps_link_flag get.
Proof. by intros s. Qed.

Lemma keeps_link_flag_bind {A B} (m : M A) (k : A → M B) :
  keeps_link_flag m → (∀ a, keeps_link_flag (k a)) → keeps_link_flag (m ≫= k).
Proof.
  intros Hm Hk s. unfold mbind, M_bind. specialize (Hm s).
  destruct (m s) as [a s1|e s1|s1]; cbn in *; [|done|done].
  by rewrite Hk.
Qed.

Lemma keeps_link_flag_try {A} (body : M A) (handler : exn → M A) :
  keeps_link_flag body → (∀ e, keeps_link_flag (handler e)) →
  keeps_link_flag (try_except body handler).
Proof.
  intros Hb Hh s. unfold try_except. specialize (Hb s).
  destruct (body s) as [a s1|e s1|s1]; cbn in *; [done| |done].
  by rewrite Hh.
Qed.

Lemma keeps_link_flag_next_raw : keeps_link_flag next_raw.
Proof. by intros s. Qed.

Lemma keeps_link_flag_randint (a b : Z) : keeps_link_flag (randint a b).
Proof.
  unfold randint. destruct (b <? a); [apply keeps_link_flag_raise|].
  apply keeps_link_flag_bind; [apply keeps_link_flag_next_raw|].
  intros raw. apply keeps_link_flag_ret.
Qed.

Lemma keeps_link_flag_run_section (c : critical_section) :
  keeps_link_flag (run_section c).
Proof.
  assert (∀ botId key v, keeps_link_flag (set_player_item botId key v)) as Hp.
  { intros botId key v s. unfold set_player_item. by destruct (set_item _ _ _ _). }
  assert (∀ botId key v, keeps_link_flag (set_update_item botId key v)) as Hu.
  { intros botId key v s. unfold set_update_item. by destruct (set_item _ _ _ _). }
  destruct c as [botId x y|botId x y|botId shot]; cbn [run_section].
  - repeat (apply keeps_link_flag_bind; [done|intros _]). done.
  - by intros s.
  - done.
Qed.

Lemma keeps_link_flag_run_sections (cs : list critical_section) :
  keeps_link_flag (run_sections cs).
Proof.
  induction cs as [|c cs IH]; cbn [run_sections]; [apply keeps_link_flag_ret|].
  apply keeps_link_flag_bind; [apply keeps_link_flag_run_section|done].
Qed.

Lemma keeps_link_flag_movement : keeps_link_flag _processEnhancedBotMovement.
Proof.
  apply keeps_link_flag_bind; [apply keeps_link_flag_get|].
  intros s. apply keeps_link_flag_run_sections.
Qed.

Lemma keeps_link_flag_combat : keeps_link_flag _processEnhancedBotCombat.
Proof.
  apply keeps_link_flag_bind; [apply keeps_link_flag_get|].
  intros s. apply keeps_link_flag_run_sections.
Qed.

Lemma keeps_link_flag_bot_tick : keeps_link_flag bot_tick.
Proof.
  apply keeps_link_flag_try.
  - apply keeps_link_flag_bind; [apply keeps_link_flag_movement|].
    intros _. apply keeps_link_flag_combat.
  - intros e. apply keeps_link_flag_ret.
Qed.

Lemma keeps_link_flag_spawn
    (iter_positions : gset (Z * Z) → list (Z * Z))
    (EnhancedBot_new : Z → Z → bool → Z → Z → KDTree → gmap Point Tile → EnhancedBot)
    (numberOfBots : Z) :
  keeps_link_flag (spawnEnhancedBotsInRegion iter_positions EnhancedBot_new numberOfBots).
Proof.
  assert (∀ boundaries st, keeps_link_flag (spawn_attempt iter_positions boundaries st))
    as Hattempt.
  { intros boundaries st. unfold spawn_attempt.
    apply keeps_link_flag_bind; [apply keeps_link_flag_get|]. intros s.
    apply keeps_link_flag_bind; [apply keeps_link_flag_randint|]. intros dx.
    apply keeps_link_flag_bind; [apply keeps_link_flag_randint|]. intros dy.
    apply keeps_link_flag_ret. }
  assert (∀ fuel count maxAttempts boundaries st,
            keeps_link_flag (spawn_search iter_positions fuel count maxAttempts
                               boundaries st)) as Hsearch.
  { induction fuel as [|fuel IH]; intros count maxAttempts boundaries st; cbn.
    - destruct (_ && _); [by intros s|apply keeps_link_flag_ret].
    - destruct (_ && _); [|apply keeps_link_flag_ret].
      apply keeps_link_flag_bind; [done|]. intros st'. apply IH. }
  assert (∀ botIndex spawn, keeps_link_flag (spawn_one EnhancedBot_new botIndex spawn))
    as Hone.
  { intros botIndex [x y] s. reflexivity. }
  assert (∀ l botIndex, keeps_link_flag (spawn_each EnhancedBot_new botIndex l)) as Heach.
  { induction l as [|p l IH]; intros botIndex; cbn [spawn_each].
    - apply keeps_link_flag_ret.
    - apply keeps_link_flag_bind; [done|]. intros _. apply IH. }
  unfold spawnEnhancedBotsInRegion.
  apply keeps_link_flag_bind; [apply keeps_link_flag_get|]. intros s.
  apply keeps_link_flag_bind; [|done].
  unfold _generateOptimizedSpawnPositions.
  apply keeps_link_flag_bind; [done|]. intros st. apply keeps_link_flag_ret.
Qed.

(** A bot loop that finds the link down makes no tick. *)
Lemma bot_loop_halts (fuel ticks : nat) (s : Server) :
  isConnectedToLoadBalancer s = false →
  bot_loop fuel ticks s = Returns ticks s.
Proof. intros Hdown. destruct fuel; cbn; by rewrite Hdown. Qed.

(** ** The handshake *)

Section HandshakeFacts.

Variable udp_recvfrom : nat → result string.
Variable decodable : string → bool.
Variable _processLoadBalancerHandshake : nat → string → M bool.
Variable _sendLoadBalancerAcknowledgment : nat → M unit.
Variable _receiveConnectionConfirmation : nat → M bool.

Hypothesis process_keeps_flag :
  ∀ t udpData, keeps_link_flag (_processLoadBalancerHandshake t udpData).
Hypothesis send_keeps_flag :
  ∀ t, keeps_link_flag (_sendLoadBalancerAcknowledgment t).
Hypothesis confirm_keeps_flag :
  ∀ t, keeps_link_flag (_receiveConnectionConfirmation t).

#[local] Abbreviation round :=
  (handshake_round udp_recvfrom decodable _processLoadBalancerHandshake
     _sendLoadBalancerAcknowledgment _receiveConnectionConfirmation).
#[local] Abbreviation loop :=
  (establish_loop udp_recvfrom decodable _processLoadBalancerHandshake
     _sendLoadBalancerAcknowledgment _receiveConnectionConfirmation).
#[local] Abbreviation exchange :=
  (full_exchange udp_recvfrom decodable _processLoadBalancerHandshake
     _sendLoadBalancerAcknowledgment _receiveConnectionConfirmation).

(** One round from a state with the link down: it either goes through the
    whole exchange and leaves by [break] with the link up, or it ends any
    other way with the link still down. *)
Lemma handshake_round_spec (t : nat) (s : Server) :
  isConnectedToLoadBalancer s = false →
  match round t s with
  | Returns true s' => exchange t s s' ∧ isConnectedToLoadBalancer s' = true
  | o => isConnectedToLoadBalancer (final_state o) = false
  end.
Proof.
  intros Hdown. unfold handshake_round, full_exchange.
  destruct (udp_recvfrom t) as [udpData|e]; [|done].
  destruct (decodable udpData) eqn:Hdec; [|done].
  unfold mbind, M_bind.
  pose proof (process_keeps_flag t udpData s) as H1.
  destruct (_processLoadBalancerHandshake t udpData s) as [[|] s1|e s1|s1] eqn:Hp;
    cbn in H1; try (cbn; congruence).
  pose proof (send_keeps_flag t s1) as H2.
  destruct (_sendLoadBalancerAcknowledgment t s1) as [[] s2|e s2|s2] eqn:Hs;
    cbn in H2; try (cbn; congruence).
  pose proof (confirm_keeps_flag t s2) as H3.
  destruct (_receiveConnectionConfirmation t s2) as [[|] s3|e s3|s3] eqn:Hc;
    cbn in H3; try (cbn; congruence).
  cbn. split; [|done]. by exists udpData, s1, s2, s3.
Qed.

Lemma full_exchange_round (t : nat) (s s' : Server) :
  exchange t s s' → round t s = Returns true s'.
Proof.
  intros (udpData & s1 & s2 & s3 & Hrecv & Hdec & Hp & Hs & Hc & ->).
  unfold handshake_round. rewrite Hrecv, Hdec.
  unfold mbind, M_bind. by rewrite Hp, Hs, Hc.
Qed.

(** The discovery loop from a state with the link down: no error leaves
    it; when it returns, some round went through the whole exchange; while
    it runs, the link is down. *)
Lemma establish_loop_spec (fuel : nat) :
  ∀ t s,
    isConnectedToLoadBalancer s = false →
    match loop fuel t s with
    | Returns _ s' =>
        isConnectedToLoadBalancer s' = true
        ∧ ∃ t' s0, (t ≤ t')%nat
                   ∧ isConnectedToLoadBalancer s0 = false
                   ∧ exchange t' s0 s'
    | Raises _ _ => False
    | Unfinished s' => isConnectedToLoadBalancer s' = false
    end.
Proof.
  induction fuel as [|fuel IH]; intros t s Hdown; cbn; rewrite Hdown; [done|].
  pose proof (handshake_round_spec t s Hdown) as Hround.
  assert (∀ s1, isConnectedToLoadBalancer s1 = false →
            match loop fuel (S t) s1 with
            | Returns _ s' =>
                isConnectedToLoadBalancer s' = true
                ∧ ∃ t' s0, (t ≤ t')%nat
                           ∧ isConnectedToLoadBalancer s0 = false
                           ∧ exchange t' s0 s'
            | Raises _ _ => False
            | Unfinished s' => isConnectedToLoadBalancer s' = false
            end) as Hnext.
  { intros s1 H1. specialize (IH (S t) s1 H1).
    destruct (loop fuel (S t) s1); [|done|done].
    destruct IH as (Hup & t' & sx & Hle & Hsx & Hex). split; [done|].
    exists t', sx. split; [lia|done]. }
  destruct (round t s) as [[|] s1|e s1|s1]; cbn in Hround.
  - destruct Hround as [Hex Hup]. split; [done|]. exists t, s. by split.
  - by apply Hnext.
  - destruct e; by apply Hnext.
  - done.
Qed.

(** C2. With the link down and the three steps leaving the flag alone:
    a round ends with the flag up exactly when it went through the whole
    exchange in order (datagram received and accepted, acknowledgment
    sent, confirmation received); a round that ends otherwise (a step
    answers no, times out or raises) leaves the flag down and the loop goes
    on to the next round, with a new load-balancer socket after an error
    other than a timeout; and the discovery loop returns only after such an
    exchange, with no error escaping. *)
Theorem link_up_only_after_full_exchange (fuel t : nat) (s : Server) :
  isConnectedToLoadBalancer s = false →
  (isConnectedToLoadBalancer (final_state (round t s)) = true
   ↔ ∃ s', exchange t s s')
  ∧ (∀ s', exchange t s s' → round t s = Returns true s')
  ∧ (∀ s1, round t s = Returns false s1 →
       isConnectedToLoadBalancer s1 = false
       ∧ loop (S fuel) t s = loop fuel (S t) s1)
  ∧ (∀ s1, round t s = Raises socket_timeout s1 →
       isConnectedToLoadBalancer s1 = false
       ∧ loop (S fuel) t s = loop fuel (S t) s1)
  ∧ (∀ e s1, round t s = Raises e s1 → e ≠ socket_timeout →
       isConnectedToLoadBalancer s1 = false
       ∧ loop (S fuel) t s
         = loop fuel (S t) (set_loadBalancerSocket (S (loadBalancerSocket s1)) s1))
  ∧ match loop fuel t s with
    | Returns _ s' =>
        isConnectedToLoadBalancer s' = true
        ∧ ∃ t' s0, (t ≤ t')%nat
                   ∧ isConnectedToLoadBalancer s0 = false
                   ∧ exchange t' s0 s'
    | Raises _ _ => False
    | Unfinished s' => isConnectedToLoadBalancer s' = false
    end.
Proof.
  intros Hdown. pose proof (handshake_round_spec t s Hdown) as Hround.
  split; [|split; [|split; [|split; [|split]]]].
  - split.
    + intros Hup. destruct (round t s) as [[|] s1|e s1|s1]; cbn in *; try congruence.
      exists s1. by destruct Hround.
    + intros (s' & Hex). apply full_exchange_round in Hex as Hr.
      rewrite Hr in Hround |- *. cbn. by destruct Hround.
  - intros s'. apply full_exchange_round.
  - intros s1 Hr. rewrite Hr in Hround. cbn in Hround. split; [done|].
    cbn [establish_loop]. by rewrite Hdown, Hr.
  - intros s1 Hr. rewrite Hr in Hround. cbn in Hround. split; [done|].
    cbn [establish_loop]. by rewrite Hdown, Hr.
  - intros e s1 Hr Hne. rewrite Hr in Hround. cbn in Hround. split; [done|].
    cbn [establish_loop]. rewrite Hdown, Hr. by destruct e.
  - by apply establish_loop_spec.
Qed.

End HandshakeFacts.

(** ** The steady-state loop *)

Section SteadyStateFacts.

Variable iter_positions : gset (Z * Z) → list (Z * Z).
Variable EnhancedBot_new :
  Z → Z → bool → Z → Z → KDTree → gmap Point Tile → EnhancedBot.
Variable loadBalancerHandlers : lb_tag → nat → M unit.

Variable udp_recvfrom : nat → result string.
Variable decodable : string → bool.
Variable _processLoadBalancerHandshake : nat → string → M bool.
Variable _sendLoadBalancerAcknowledgment : nat → M unit.
Variable _receiveConnectionConfirmation : nat → M bool.

Hypothesis process_keeps_flag :
  ∀ t udpData, keeps_link_flag (_processLoadBalancerHandshake t udpData).
Hypothesis send_keeps_flag :
  ∀ t, keeps_link_flag (_sendLoadBalancerAcknowledgment t).
Hypothesis confirm_keeps_flag :
  ∀ t, keeps_link_flag (_receiveConnectionConfirmation t).

#[local] Abbreviation round :=
  (handshake_round udp_recvfrom decodable _processLoadBalancerHandshake
     _sendLoadBalancerAcknowledgment _receiveConnectionConfirmation).
#[local] Abbreviation exchange :=
  (full_exchange udp_recvfrom decodable _processLoadBalancerHandshake
     _sendLoadBalancerAcknowledgment _receiveConnectionConfirmation).

(** No error leaves the communication loop, and when the loop is left the
    link is down. *)
Lemma steady_loop_spec (fuel : nat) :
  ∀ t s,
    match steady_loop loadBalancerHandlers fuel t s with
    | Returns _ s' => isConnectedToLoadBalancer s' = false
    | Raises _ _ => False
    | Unfinished _ => True
    end.
Proof.
  induction fuel as [|fuel IH]; intros t s; cbn;
    destruct (isConnectedToLoadBalancer s) eqn:Hflag; try done.
  destruct (steady_round loadBalancerHandlers t s) as [[] s1|e s1|s1]; [|done|done].
  apply IH.
Qed.

(** C6. When a round of the communication loop raises while the link is
    up, the loop catches the error and returns with the flag set to false
    (nothing propagates, so the thread ends and the process goes on); this
    holds of every way the loop can be left.  A bot loop that reads the flag
    from then on makes no further tick.  The flag then stays false through
    bot ticks, movement, combat and spawning, and a handshake round raises
    it again only by going through the whole exchange. *)
Theorem steady_state_error_demotes_link (fuel t : nat) (s s1 : Server) (e : exn) :
  isConnectedToLoadBalancer s = true →
  steady_round loadBalancerHandlers t s = Raises e s1 →
  let demoted := set_isConnectedToLoadBalancer false s1 in
  steady_loop loadBalancerHandlers (S fuel) t s = Returns tt demoted
  ∧ isConnectedToLoadBalancer demoted = false
  ∧ (∀ fuel' t' s',
       match steady_loop loadBalancerHandlers fuel' t' s' with
       | Returns _ s'' => isConnectedToLoadBalancer s'' = false
       | Raises _ _ => False
       | Unfinished _ => True
       end)
  ∧ (∀ fuel' ticks s2,
       isConnectedToLoadBalancer s2 = false →
       bot_loop fuel' ticks s2 = Returns ticks s2)
  ∧ executeEnhancedBotAI fuel demoted = Returns O demoted
  ∧ isConnectedToLoadBalancer (final_state (bot_tick demoted)) = false
  ∧ isConnectedToLoadBalancer (final_state (_processEnhancedBotMovement demoted)) = false
  ∧ isConnectedToLoadBalancer (final_state (_processEnhancedBotCombat demoted)) = false
  ∧ (∀ n, isConnectedToLoadBalancer
            (final_state (spawnEnhancedBotsInRegion iter_positions EnhancedBot_new n
                            demoted)) = false)
  ∧ (∀ t', isConnectedToLoadBalancer (final_state (round t' demoted)) = true
           ↔ ∃ s', exchange t' demoted s').
Proof.
  intros Hup Hraise demoted.
  assert (isConnectedToLoadBalancer demoted = false) as Hdown by done.
  split; [cbn [steady_loop]; by rewrite Hup, Hraise|]. split; [done|].
  split; [intros fuel' t' s'; apply steady_loop_spec|].
  split; [intros fuel' ticks s2; apply bot_loop_halts|].
  split; [by apply bot_loop_halts|].
  split; [by rewrite keeps_link_flag_bot_tick|].
  split; [by rewrite keeps_link_flag_movement|].
  split; [by rewrite keeps_link_flag_combat|].
  split; [intros n; by rewrite keeps_link_flag_spawn|].
  intros t'.
  pose proof (handshake_round_spec udp_recvfrom decodable
                _processLoadBalancerHandshake _sendLoadBalancerAcknowledgment
                _receiveConnectionConfirmation process_keeps_flag send_keeps_flag
                confirm_keeps_flag t' demoted Hdown) as Hround.
  split.
  - intros Hflag. destruct (round t' demoted) as [[|] s2|e2 s2|s2]; cbn in *;
      try congruence.
    exists s2. by destruct Hround.
  - intros (s' & Hex). apply full_exchange_round in Hex as Hr.
    rewrite Hr in Hround |- *. cbn. by destruct Hround.
Qed.

End SteadyStateFacts.

(** ** The constructor *)

(** Whatever the map, [__init__] raises: the spatial systems are set up
    before the logger is bound, and both the [try] block and its handler
    log. *)
Lemma construction_raises (fl : Qc → Qc) (iter_tiles : gset Tile → list Tile)
    (configuration : option ServerConfiguration) (udp_bind : result unit)
    (fs : FileSystem) (rng : Random) :
  ∃ e, __init__ fl iter_tiles configuration udp_bind fs rng = Err e.
Proof.
  unfold __init__. destruct udp_bind as [[]|e]; cbn; [|eauto].
  unfold _initializeSpatialSystems, spatial_try.
  destruct (gameMapPath fs); cbn; eauto.
Qed.

(** Even with a logger bound, a readable map without collision objects
    stops the spatial systems: the empty tile set reaches the KDTree
    constructor. *)
Example bare_map_aborts_spatial_systems :
  _initializeSpatialSystems unrounded elements true default_ServerConfiguration
    example_bare_files = Err ValueError.
Proof. reflexivity. Qed.

(** ** Instances *)

Lemma elements_perm_refl {A} `{Countable A} (s : gset A) : elements s ≡ₚ elements s.
Proof. reflexivity. Defined.

Lemma example_tiles_share_center : center unrounded example_inner_tile = center unrounded example_outer_tile.
Proof. unfold center. cbn. f_equal; apply Qc_is_canon; reflexivity. Defined.

Lemma example_tiles_differ : example_inner_tile ≠ example_outer_tile.
Proof.
  intros Heq. pose proof (f_equal (λ t : Tile, Qnum (this (t.1.1.1))) Heq) as Hx.
  cbn in Hx. discriminate.
Defined.

(** Of two different tiles with one computed center, iterated over in
    the order [t1], [t2], the position mapping keeps [t2] under the shared
    point; the spec asks for [t1] there, which no query of the tree can make
    [nearest] return. *)
Lemma tie_goes_to_the_later_tile (fl : Qc → Qc) (iter_tiles : gset Tile → list Tile)
    (query : KDTree → Point → nat) (t1 t2 : Tile) :
  t1 ≠ t2 →
  center fl t1 = center fl t2 →
  iter_tiles {[t1; t2]} = [t1; t2] →
  ¬ nearest_as_specified fl iter_tiles query {[t1; t2]}.
Proof.
  intros Hdiff Hshare Horder Hspec.
  set (c := center fl t2).
  specialize (Hspec ({| kd_data := [c; c]; kd_leafsize := 16 |},
                     <[c := t2]> (<[c := t1]> ∅)) c).
  rewrite Horder in Hspec.
  assert (fst <$> nearest query
                    ({| kd_data := [c; c]; kd_leafsize := 16 |},
                     <[c := t2]> (<[c := t1]> ∅)) c
          ≠ Some t1) as Hcode.
  { unfold nearest. cbn [fst snd kd_data].
    destruct ([c; c] !! query _ c) as [q|] eqn:Hq; [|done].
    assert (q = c) as ->.
    { apply list_elem_of_lookup_2 in Hq. set_solver. }
    rewrite lookup_insert_eq. cbn. intros Heq. apply (inj Some) in Heq.
    apply Hdiff. symmetry. exact Heq. }
  assert (nearest_in_input_order (center fl) [t1; t2] c = Some t1) as Hasked.
  { destruct (nearest_in_input_order_is_Some (center fl) [t1; t2] c) as [t Ht]; [done|].
    rewrite Ht. f_equal.
    destruct (nearest_in_input_order_spec _ _ _ _ Ht) as (i & Hi & _ & Hfirst).
    destruct i as [|[|i]]; cbn in Hi; [congruence| |done].
    injection Hi as <-. exfalso.
    pose proof (Hfirst O t1 (Nat.lt_0_succ _) eq_refl) as Hlt.
    rewrite Hshare in Hlt.
    exact (Qclt_not_le _ _ Hlt (Qcle_refl _)). }
  apply Hcode. rewrite <-Hasked. apply Hspec.
  unfold _buildOptimizedCollisionKdTree. rewrite Horder. cbn [fmap list_fmap].
  rewrite Hshare. reflexivity.
Qed.



Lemma example_map_has_tiles : _extractCollidableTilesOptimized unrounded example_map ≠ ∅.
Proof.
  intros Hempty.
  assert (tile_of_object unrounded example_object ∈ _extractCollidableTilesOptimized unrounded example_map)
    as Hin.
  { apply elem_of_extract.
    exists "collision_boundaries", [example_object; example_object], example_object.
    split; [apply list_elem_of_here|]. split; [done|].
    split; [apply list_elem_of_here|done]. }
  rewrite Hempty in Hin. by apply not_elem_of_empty in Hin.
Defined.

Lemma index_holds_center_of_each_distinct_tile_witness :
  _extractCollidableTilesOptimized unrounded example_map ≠ ∅
  ∧ NoDup (elements (_extractCollidableTilesOptimized unrounded example_map))
  ∧ ∃ tree mapping,
      _buildOptimizedCollisionKdTree unrounded elements
        (_extractCollidableTilesOptimized unrounded example_map) = Ok (tree, mapping)
      ∧ length (kd_data tree) = size (_extractCollidableTilesOptimized unrounded example_map).
Proof.
  split; [exact example_map_has_tiles|].
  destruct (index_holds_center_of_each_distinct_tile unrounded elements elements_perm_refl
              example_map example_map_has_tiles)
    as (Hnd & _ & tree & mapping & Hbuild & Hlen & _).
  split; [exact Hnd|]. exists tree, mapping. split; [exact Hbuild|exact Hlen].
Defined.

Lemma empty_tile_set_raises_witness :
  (∀ s : gset Tile, elements s ≡ₚ elements s)
  ∧ _buildOptimizedCollisionKdTree unrounded elements ∅ = Err ValueError.
Proof.
  split; [exact elements_perm_refl|].
  exact (empty_tile_set_raises unrounded elements elements_perm_refl).
Defined.

Lemma invalid_map_aborts_startup_witness :
  (∀ tmx, gameMapPath example_broken_files ≠ Valid tmx)
  ∧ (∃ e, _initializeSpatialSystems unrounded elements false default_ServerConfiguration
            example_broken_files = Err e)
  ∧ (∃ e, __init__ unrounded elements None (Ok tt) example_broken_files
            (random_module example_server) = Err e).
Proof.
  assert (∀ tmx, gameMapPath example_broken_files ≠ Valid tmx) as Hbroken
    by (intros tmx; discriminate).
  split; [exact Hbroken|].
  exact (invalid_map_aborts_startup unrounded elements false default_ServerConfiguration None
           (Ok tt) example_broken_files (random_module example_server) Hbroken).
Defined.

Lemma spawn_positions_bounded_separated_capped_witness :
  0 ≤ 3
  ∧ 0 ≤ (serverBoundaryCoordinates example_server).1
  ∧ 0 ≤ (serverBoundaryCoordinates example_server).2
  ∧ ∃ spawnPositions st s',
      _generateOptimizedSpawnPositions elements 3 (2000, 0) example_server
        = Returns spawnPositions s'
      ∧ 0 ≤ Z.of_nat (length spawnPositions) ≤ 3
      ∧ (∀ p, p ∈ spawnPositions → within_region (2000, 0) example_server p)
      ∧ (∀ p q, p ∈ spawnPositions → q ∈ spawnPositions → p ≠ q → separated p q)
      ∧ 0 ≤ attempts st ≤ 10 * 3.
Proof.
  assert (0 ≤ 3) as H3 by lia.
  assert (0 ≤ (serverBoundaryCoordinates example_server).1) as HW by (cbn; lia).
  assert (0 ≤ (serverBoundaryCoordinates example_server).2) as HH by (cbn; lia).
  do 3 (split; [done|]).
  destruct (spawn_positions_bounded_separated_capped elements elements_perm_refl
              3 (2000, 0) example_server H3 HW HH)
    as (spawnPositions & st & _ & Hgen & Hlen & _ & Hin & Hsep & Hatt & _).
  exists spawnPositions, st, (after_draws (2 * Z.to_nat (attempts st)) example_server).
  split; [exact Hgen|]. split; [exact Hlen|]. split; [exact Hin|].
  split; [exact Hsep|exact Hatt].
Defined.

Lemma spawned_bots_registered_consistently_witness :
  0 ≤ 25
  ∧ activePlayerData example_fresh_server = ∅
  ∧ gameStateUpdates example_fresh_server = ∅
  ∧ enhancedBotManager example_fresh_server = ∅
  ∧ ∃ (spawnPositions : list (Z * Z)) s',
      spawnEnhancedBotsInRegion elements example_EnhancedBot_new 25
        example_fresh_server = Returns tt s'
      ∧ Z.of_nat (length spawnPositions) ≤ 25
      ∧ ∀ botId, is_Some (enhancedBotManager s' !! botId)
                 ↔ 0 ≤ botId < Z.of_nat (length spawnPositions).
Proof.
  assert (0 ≤ 25) as H25 by lia.
  assert (0 ≤ (serverBoundaryCoordinates example_fresh_server).1) as HW by (cbn; lia).
  assert (0 ≤ (serverBoundaryCoordinates example_fresh_server).2) as HH by (cbn; lia).
  do 4 (split; [done|]).
  destruct (spawned_bots_registered_consistently elements elements_perm_refl
              example_EnhancedBot_new 25 example_fresh_server H25 HW HH
              eq_refl eq_refl eq_refl)
    as (spawnPositions & s1 & s' & _ & Hspawn & Hlen & Hids & _).
  exists spawnPositions, s'. split; [exact Hspawn|]. split; [exact Hlen|exact Hids].
Defined.

Lemma example_process_keeps_flag (t : nat) (udpData : string) :
  keeps_link_flag (example_process t udpData).
Proof. intros s. reflexivity. Defined.

Lemma example_send_keeps_flag (t : nat) : keeps_link_flag (example_send t).
Proof. intros s. reflexivity. Defined.

Lemma example_confirm_keeps_flag (t : nat) : keeps_link_flag (example_confirm t).
Proof. intros s. reflexivity. Defined.

Lemma link_up_only_after_full_exchange_witness :
  isConnectedToLoadBalancer example_disconnected = false
  ∧ (isConnectedToLoadBalancer
       (final_state (handshake_round example_recvfrom (λ _, true) example_process
                       example_send example_confirm O example_disconnected)) = true
     ↔ ∃ s', full_exchange example_recvfrom (λ _, true) example_process
               example_send example_confirm O example_disconnected s').
Proof.
  split; [reflexivity|].
  exact (proj1 (link_up_only_after_full_exchange example_recvfrom (λ _, true)
                  example_process example_send example_confirm
                  example_process_keeps_flag example_send_keeps_flag
                  example_confirm_keeps_flag 1 0 example_disconnected eq_refl)).
Defined.

Lemma steady_state_error_demotes_link_witness :
  isConnectedToLoadBalancer example_server = true
  ∧ steady_round example_handlers O example_server = Raises OSError example_server
  ∧ steady_loop example_handlers 2 O example_server
    = Returns tt (set_isConnectedToLoadBalancer false example_server)
  ∧ executeEnhancedBotAI 1 (set_isConnectedToLoadBalancer false example_server)
    = Returns O (set_isConnectedToLoadBalancer false example_server).
Proof.
  assert (steady_round example_handlers O example_server
          = Raises OSError example_server) as Hraise by reflexivity.
  split; [reflexivity|]. split; [exact Hraise|].
  destruct (steady_state_error_demotes_link elements example_EnhancedBot_new
              example_handlers example_recvfrom (λ _, true) example_process
              example_send example_confirm
              example_process_keeps_flag example_send_keeps_flag
              example_confirm_keeps_flag 1 0 example_server example_server OSError
              eq_refl Hraise)
    as (Hloop & _ & _ & _ & Hbots & _).
  split; [exact Hloop|exact Hbots].
Defined.

(** * Further properties *)

(** ** Start-up *)

(** X1. The construction of a server never completes.  When binding the
    UDP socket fails, that error leaves [__init__]; otherwise the error is
    AttributeError, whatever the map files are: the spatial systems log
    before [self.logger] is bound, and the handler that would re-raise a
    map error logs first as well, so a map error is replaced too. *)
Theorem construction_ends_in_AttributeError (fl : Qc → Qc)
    (iter_tiles : gset Tile → list Tile)
    (configuration : option ServerConfiguration) (udp_bind : result unit)
    (fs : FileSystem) (rng : Random) :
  __init__ fl iter_tiles configuration udp_bind fs rng
  = Err (match udp_bind with Ok _ => AttributeError | Err bindError => bindError end).
Proof.
  unfold __init__. destruct udp_bind as [[]|e]; cbn; [|done].
  unfold _initializeSpatialSystems, spatial_try.
  destruct (gameMapPath fs); reflexivity.
Qed.

Section ExtractionMore.

Variable fl : Qc → Qc.

Lemma extract_app (m1 m2 : TiledMap) :
  _extractCollidableTilesOptimized fl (m1 ++ m2)
  = _extractCollidableTilesOptimized fl m1 ∪ _extractCollidableTilesOptimized fl m2.
Proof.
  apply set_eq. intros t. rewrite elem_of_union, !elem_of_extract. split.
  - intros (name & objects & obj & Hin & ? & ? & ?).
    apply elem_of_app in Hin as [Hin|Hin]; [left|right];
      by exists name, objects, obj.
  - intros [(name & objects & obj & Hin & ? & ? & ?)|(name & objects & obj & Hin & ? & ? & ?)];
      exists name, objects, obj; (split; [apply elem_of_app; eauto|done]).
Qed.

Lemma extract_collision_objects (tmxMapData : TiledMap) :
  _extractCollidableTilesOptimized fl tmxMapData
  = list_to_set (tile_of_object fl <$> collision_objects tmxMapData).
Proof.
  apply set_eq. intros t.
  rewrite elem_of_extract, elem_of_list_to_set, list_elem_of_fmap.
  unfold collision_objects. split.
  - intros (name & objects & obj & Hin & Hname & Hobj & ->). exists obj.
    split; [done|]. apply list_elem_of_bind.
    exists (TiledObjectGroup name objects). split; [|done].
    by rewrite decide_True.
  - intros (obj & -> & Hobj). apply list_elem_of_bind in Hobj as (layer & Hobj & Hin).
    destruct layer as [name objects|name]; [|by apply elem_of_nil in Hobj].
    case_decide as Hname; [|by apply elem_of_nil in Hobj].
    by exists name, objects, obj.
Qed.

(** X2. The tiles of a map are put together layer by layer: the tiles of
    two lists of layers one after the other are the union of their tiles,
    so the order of the layers and the repetition of a layer do not
    matter, and a layer that is no object group named
    "collision_boundaries" adds nothing. *)
Theorem extraction_is_a_union_over_layers (m1 m2 : TiledMap) (name : string)
    (objects : list TiledObject) :
  _extractCollidableTilesOptimized fl (m1 ++ m2)
  = _extractCollidableTilesOptimized fl m1 ∪ _extractCollidableTilesOptimized fl m2
  ∧ _extractCollidableTilesOptimized fl (m2 ++ m1)
    = _extractCollidableTilesOptimized fl (m1 ++ m2)
  ∧ _extractCollidableTilesOptimized fl (m1 ++ m1)
    = _extractCollidableTilesOptimized fl m1
  ∧ _extractCollidableTilesOptimized fl (TiledTileLayer name :: m1)
    = _extractCollidableTilesOptimized fl m1
  ∧ (name ≠ "collision_boundaries" →
     _extractCollidableTilesOptimized fl (TiledObjectGroup name objects :: m1)
     = _extractCollidableTilesOptimized fl m1).
Proof.
  split; [apply extract_app|]. split; [rewrite !extract_app; set_solver|].
  split; [rewrite extract_app; set_solver|]. split.
  - change (TiledTileLayer name :: m1) with ([TiledTileLayer name] ++ m1).
    rewrite extract_app. unfold _extractCollidableTilesOptimized at 1. cbn.
    set_solver.
  - intros Hname.
    change (TiledObjectGroup name objects :: m1)
      with ([TiledObjectGroup name objects] ++ m1).
    rewrite extract_app. unfold _extractCollidableTilesOptimized at 1. cbn.
    rewrite decide_False by done. set_solver.
Qed.

Lemma size_list_to_set_bound (l : list Tile) :
  (size (list_to_set l : gset Tile) ≤ length l)%nat.
Proof.
  induction l as [|t l IH]; cbn [list_to_set length].
  - by rewrite size_empty.
  - rewrite size_union_alt, size_singleton.
    pose proof (subseteq_size (list_to_set l ∖ {[t]}) (list_to_set l : gset Tile)) as Hd.
    assert (size (list_to_set l ∖ {[t]} : gset Tile) ≤ size (list_to_set l : gset Tile))%nat
      by (apply Hd; by intros x [? _]%elem_of_difference).
    lia.
Qed.

(** A set built from a list has as many elements as the list exactly when
    the list repeats nothing. *)
Lemma size_list_to_set_length (l : list Tile) :
  size (list_to_set l : gset Tile) = length l ↔ NoDup l.
Proof.
  split; [|apply size_list_to_set].
  induction l as [|t l IH]; [intros _; constructor|].
  cbn [list_to_set length]. intros Hsize.
  pose proof (size_list_to_set_bound l) as Hbound.
  destruct (decide (t ∈ l)) as [Hin|Hout].
  - replace ({[t]} ∪ list_to_set l : gset Tile) with (list_to_set l : gset Tile)
      in Hsize by (apply set_eq; intros x; set_solver).
    lia.
  - rewrite size_union, size_singleton in Hsize by set_solver.
    apply list.NoDup_cons. split; [done|]. apply IH. lia.
Qed.


End ExtractionMore.

Section SpatialIndexMore.

Variable fl : Qc → Qc.
Variable iter_tiles : gset Tile → list Tile.
Hypothesis iter_tiles_perm : ∀ s, iter_tiles s ≡ₚ elements s.

Lemma build_empty : _buildOptimizedCollisionKdTree fl iter_tiles ∅ = Err ValueError.
Proof.
  unfold _buildOptimizedCollisionKdTree.
  assert (iter_tiles ∅ = []) as -> by (by apply iter_tiles_nil).
  reflexivity.
Qed.

(** X4. The spatial systems come up exactly when a logger is bound, the
    map file selected is readable (the new location, or the legacy one
    when the new one is missing) and the map has at least one collision
    object; the grid then starts empty with the configured cell size and
    the tree holds one point per tile.  A corrupt file at the new location
    is not replaced by the legacy file: the parse error is raised. *)
Theorem spatial_systems_come_up_exactly_when (has_logger : bool)
    (config : ServerConfiguration) (fs : FileSystem) :
  ((∃ systems, _initializeSpatialSystems fl iter_tiles has_logger config fs = Ok systems)
   ↔ has_logger = true
     ∧ ∃ tmx, (assets_maps_game_world_tmx fs = Valid tmx
               ∨ assets_maps_game_world_tmx fs = Missing ∧ map_map_tmx fs = Valid tmx)
              ∧ _extractCollidableTilesOptimized fl tmx ≠ ∅)
  ∧ (∀ systems,
       _initializeSpatialSystems fl iter_tiles has_logger config fs = Ok systems →
       ss_spatialPlayerGrid systems = EnhancedPlayerGrid_new (spatialGridCellSize config)
       ∧ length (kd_data (ss_spatialCollisionTree systems))
         = size (_extractCollidableTilesOptimized fl (ss_gameMapData systems)))
  ∧ (assets_maps_game_world_tmx fs = Corrupt →
     _initializeSpatialSystems fl iter_tiles has_logger config fs
     = Err (if has_logger then MapParseError else AttributeError)).
Proof.
  assert (∀ tmx, gameMapPath fs = Valid tmx ↔
            assets_maps_game_world_tmx fs = Valid tmx
            ∨ assets_maps_game_world_tmx fs = Missing ∧ map_map_tmx fs = Valid tmx)
    as Hpath.
  { intros tmx. unfold gameMapPath.
    destruct (assets_maps_game_world_tmx fs); cbn; naive_solver. }
  assert (∀ tmx, gameMapPath fs = Valid tmx →
            _extractCollidableTilesOptimized fl tmx ≠ ∅ →
            _initializeSpatialSystems fl iter_tiles true config fs
            = Ok {| ss_gameMapData := tmx;
                    ss_spatialCollisionTree :=
                      {| kd_data := center fl <$> iter_tiles (_extractCollidableTilesOptimized fl tmx);
                         kd_leafsize := 16 |};
                    ss_tilePositionMapping :=
                      dict_of_pairs
                        (zip (center fl <$> iter_tiles (_extractCollidableTilesOptimized fl tmx))
                             (iter_tiles (_extractCollidableTilesOptimized fl tmx)));
                    ss_spatialPlayerGrid :=
                      EnhancedPlayerGrid_new (spatialGridCellSize config) |}) as Hok.
  { intros tmx Hvalid Hne. unfold _initializeSpatialSystems, spatial_try.
    rewrite Hvalid. cbn. by rewrite (build_nonempty fl iter_tiles iter_tiles_perm _ Hne). }
  assert (∀ systems,
            _initializeSpatialSystems fl iter_tiles has_logger config fs = Ok systems →
            has_logger = true
            ∧ ∃ tmx, gameMapPath fs = Valid tmx
                     ∧ _extractCollidableTilesOptimized fl tmx ≠ ∅) as Hinv.
  { intros systems. unfold _initializeSpatialSystems, spatial_try.
    destruct (gameMapPath fs) as [| |tmx] eqn:Hfile; cbn.
    - by destruct has_logger.
    - by destruct has_logger.
    - destruct has_logger; cbn; [|done]. intros Hsys. split; [done|].
      exists tmx. split; [done|]. intros Hempty. rewrite Hempty, build_empty in Hsys.
      done. }
  split; [|split].
  - split.
    + intros [systems Hsys]. destruct (Hinv systems Hsys) as (Hlog & tmx & Hvalid & Hne).
      split; [done|]. exists tmx. split; [by apply Hpath|done].
    + intros (-> & tmx & Hvalid & Hne). apply Hpath in Hvalid. eauto.
  - intros systems Hsys. destruct (Hinv systems Hsys) as (-> & tmx & Hvalid & Hne).
    rewrite (Hok tmx Hvalid Hne) in Hsys. injection Hsys as <-. cbn.
    split; [done|]. by rewrite length_fmap, iter_tiles_perm.
  - intros Hcorrupt. unfold _initializeSpatialSystems, spatial_try, gameMapPath.
    rewrite Hcorrupt. by destruct has_logger.
Qed.

(** X5. Insert and look up: a tile whose center, as the source computes
    it, is the computed center of no other tile of the set is found again
    under that center in the position mapping; and the keys of the mapping
    are exactly the points of the tree.  (Centers that differ as real
    numbers can be one point after rounding, as
    [rounding_joins_two_centers] below shows for binary64; the condition
    is on the points the source computes.) *)
Theorem mapping_finds_tile_with_own_center (collidableElements : gset Tile) (t : Tile) :
  t ∈ collidableElements →
  (∀ t', t' ∈ collidableElements → center fl t' = center fl t → t' = t) →
  ∃ tree mapping,
    _buildOptimizedCollisionKdTree fl iter_tiles collidableElements = Ok (tree, mapping)
    ∧ mapping !! center fl t = Some t
    ∧ ∀ q, is_Some (mapping !! q) ↔ q ∈ kd_data tree.
Proof.
  intros Hin Hown.
  assert (collidableElements ≠ ∅) as Hne by set_solver.
  eexists _, _. split; [by apply build_nonempty|]. cbn [kd_data].
  set (l := iter_tiles collidableElements).
  assert (∀ q, is_Some (dict_of_pairs (zip (center fl <$> l) l) !! q) ↔ q ∈ center fl <$> l)
    as Hkeys.
  { intros q. split.
    - intros [t' Ht']. apply mapping_lookup_Some in Ht' as (j & Hj & -> & _).
      apply list_elem_of_fmap. exists t'. split; [done|].
      apply list_elem_of_lookup. by exists j.
    - intros Hq. apply list_elem_of_lookup in Hq as [i Hi]. by eapply mapping_is_Some. }
  split; [|done].
  assert (center fl t ∈ center fl <$> l) as Hc.
  { apply list_elem_of_fmap. exists t. split; [done|].
    by apply (elem_of_iter_tiles iter_tiles iter_tiles_perm). }
  apply Hkeys in Hc as [t' Ht']. rewrite Ht'. f_equal.
  apply mapping_lookup_Some in Ht' as (j & Hj & Hcenter & _).
  apply Hown; [|done].
  apply (elem_of_iter_tiles iter_tiles iter_tiles_perm), list_elem_of_lookup.
  by exists j.
Qed.

(** X6. Two different tiles with the same computed center shadow each
    other: the tree holds a point for each of them, but the position
    mapping has one entry for that point, so at least one of the two tiles
    can never be obtained from the mapping. *)
Theorem tiles_sharing_a_center_shadow_each_other
    (collidableElements : gset Tile) (t1 t2 : Tile) :
  t1 ∈ collidableElements →
  t2 ∈ collidableElements →
  t1 ≠ t2 →
  center fl t1 = center fl t2 →
  ∃ tree mapping,
    _buildOptimizedCollisionKdTree fl iter_tiles collidableElements = Ok (tree, mapping)
    ∧ length (kd_data tree) = size collidableElements
    ∧ ((∀ q, mapping !! q ≠ Some t1) ∨ (∀ q, mapping !! q ≠ Some t2)).
Proof.
  intros Hin1 Hin2 Hne Hcenter.
  assert (collidableElements ≠ ∅) as Hnonempty by set_solver.
  eexists _, _. split; [by apply build_nonempty|]. cbn [kd_data].
  split; [by rewrite length_fmap, iter_tiles_perm|].
  set (l := iter_tiles collidableElements).
  assert (∀ q t, dict_of_pairs (zip (center fl <$> l) l) !! q = Some t → q = center fl t)
    as Hkey.
  { intros q t Hq. by apply mapping_lookup_Some in Hq as (j & _ & -> & _). }
  destruct (dict_of_pairs (zip (center fl <$> l) l) !! center fl t1) as [t|] eqn:Hat.
  - destruct (decide (t = t1)) as [->|Hother].
    + right. intros q Hq. pose proof (Hkey q t2 Hq) as ->.
      rewrite <-Hcenter, Hat in Hq. congruence.
    + left. intros q Hq. pose proof (Hkey q t1 Hq) as ->. congruence.
  - left. intros q Hq. pose proof (Hkey q t1 Hq) as ->. congruence.
Qed.

End SpatialIndexMore.

Lemma spatial_systems_come_up_exactly_when_witness :
  (∀ s : gset Tile, elements s ≡ₚ elements s)
  ∧ ((∃ systems, _initializeSpatialSystems unrounded elements true default_ServerConfiguration
                   example_good_files = Ok systems)
     ↔ true = true
       ∧ ∃ tmx, (assets_maps_game_world_tmx example_good_files = Valid tmx
                 ∨ assets_maps_game_world_tmx example_good_files = Missing
                   ∧ map_map_tmx example_good_files = Valid tmx)
                ∧ _extractCollidableTilesOptimized unrounded tmx ≠ ∅).
Proof.
  split; [exact elements_perm_refl|].
  exact (proj1 (spatial_systems_come_up_exactly_when unrounded elements elements_perm_refl true
                  default_ServerConfiguration example_good_files)).
Defined.

Lemma mapping_finds_tile_with_own_center_witness :
  example_tile ∈ ({[example_tile]} : gset Tile)
  ∧ ∃ tree mapping,
      _buildOptimizedCollisionKdTree unrounded elements {[example_tile]} = Ok (tree, mapping)
      ∧ mapping !! center unrounded example_tile = Some example_tile.
Proof.
  assert (example_tile ∈ ({[example_tile]} : gset Tile)) as Hin
    by (by apply elem_of_singleton).
  split; [exact Hin|].
  destruct (mapping_finds_tile_with_own_center unrounded elements elements_perm_refl
              {[example_tile]} example_tile Hin
              (λ t' Ht' _, proj1 (elem_of_singleton t' example_tile) Ht'))
    as (tree & mapping & Hbuild & Hfind & _).
  exists tree, mapping. split; [exact Hbuild|exact Hfind].
Defined.

Lemma tiles_sharing_a_center_shadow_each_other_witness :
  example_inner_tile ≠ example_outer_tile
  ∧ center unrounded example_inner_tile = center unrounded example_outer_tile
  ∧ ∃ tree mapping,
      _buildOptimizedCollisionKdTree unrounded elements {[example_inner_tile; example_outer_tile]}
        = Ok (tree, mapping)
      ∧ ((∀ q, mapping !! q ≠ Some example_inner_tile)
         ∨ (∀ q, mapping !! q ≠ Some example_outer_tile)).
Proof.
  split; [exact example_tiles_differ|]. split; [exact example_tiles_share_center|].
  destruct (tiles_sharing_a_center_shadow_each_other unrounded elements elements_perm_refl
              {[example_inner_tile; example_outer_tile]}
              example_inner_tile example_outer_tile)
    as (tree & mapping & Hbuild & _ & Hshadow).
  - apply elem_of_union. left. by apply elem_of_singleton.
  - apply elem_of_union. right. by apply elem_of_singleton.
  - exact example_tiles_differ.
  - exact example_tiles_share_center.
  - exists tree, mapping. split; [exact Hbuild|exact Hshadow].
Defined.

(** ** Rounding at work *)

(** 0.1 as a binary64 value. *)
Example binary64_tenth :
  this (binary64 (Q2Qc (1 # 10))) = (3602879701896397 # 36028797018963968)%Q.
Proof. vm_compute. reflexivity. Qed.

(** The next float above 0.1 is a binary64 value. *)
Example binary64_next :
  binary64 (obj_x example_object_next) = obj_x example_object_next.
Proof. apply Qc_is_canon. vm_compute. reflexivity. Qed.

(** In binary64 the shift by 500 gives two different objects one tile: in
    exact arithmetic the tiles differ. *)
Example rounding_merges_two_objects :
  example_object_tenth ≠ example_object_next
  ∧ tile_of_object binary64 example_object_tenth
    = tile_of_object binary64 example_object_next
  ∧ tile_of_object unrounded example_object_tenth
    ≠ tile_of_object unrounded example_object_next.
Proof.
  split; [|split].
  - intros Heq. apply (f_equal (λ o, Qnum (this (obj_x o)))) in Heq.
    vm_compute in Heq. discriminate.
  - assert (binary64 (obj_x example_object_tenth - Qc_of_Z 500)
            = binary64 (obj_x example_object_next - Qc_of_Z 500)) as Hx
      by (apply Qc_is_canon; vm_compute; reflexivity).
    unfold tile_of_object. by rewrite Hx.
  - intros Heq. apply (f_equal (λ t : Tile, Qnum (this (t.1.1.1)))) in Heq.
    vm_compute in Heq. discriminate.
Qed.

(** In binary64 two tiles whose centers differ as real numbers have the
    same computed center, so the position mapping has one key for both. *)
Example rounding_joins_two_centers :
  example_tile_tenth ≠ example_tile_sum
  ∧ center binary64 example_tile_tenth = center binary64 example_tile_sum
  ∧ center unrounded example_tile_tenth ≠ center unrounded example_tile_sum.
Proof.
  split; [|split].
  - intros Heq. apply (f_equal (λ t : Tile, Qnum (this (t.1.1.1)))) in Heq.
    vm_compute in Heq. discriminate.
  - unfold center, example_tile_tenth, example_tile_sum.
    f_equal; apply Qc_is_canon; vm_compute; reflexivity.
  - intros Heq. apply (f_equal (λ q : Point, Qnum (this (q.1)))) in Heq.
    vm_compute in Heq. discriminate.
Qed.

(** ** Locks *)

Lemma rlock_release_acquire (me : nat) (l : lock) (tbl tbl' : LockTable) :
  rlock_acquire me l tbl = Some tbl' → rlock_release me l tbl' = Some tbl.
Proof.
  unfold rlock_acquire, rlock_release.
  destruct (tbl !! l) as [[owner depth]|] eqn:Hl.
  - case_decide as Hme; [|done]. intros [= <-]. subst owner.
    rewrite lookup_insert_eq, decide_True by done.
    by rewrite insert_insert_eq, insert_id.
  - intros [= <-]. rewrite lookup_insert_eq, decide_True by done.
    by rewrite delete_insert_id.
Qed.

Lemma rlock_acquire_acquirable (me : nat) (l : lock) (tbl : LockTable) :
  acquirable me tbl l → ∃ tbl', rlock_acquire me l tbl = Some tbl'.
Proof.
  unfold acquirable, rlock_acquire.
  destruct (tbl !! l) as [[owner depth]|]; [|eauto].
  intros ->. rewrite decide_True by done. eauto.
Qed.

Lemma rlock_acquire_lookup (me : nat) (l l' : lock) (tbl tbl' : LockTable) :
  rlock_acquire me l tbl = Some tbl' →
  (∃ depth, tbl' !! l = Some (me, depth))
  ∧ (l' ≠ l → tbl' !! l' = tbl !! l').
Proof.
  unfold rlock_acquire. destruct (tbl !! l) as [[owner depth]|].
  - case_decide; [|done]. intros [= <-]. split.
    + rewrite lookup_insert_eq. eauto.
    + intros Hne. by rewrite lookup_insert_ne.
  - intros [= <-]. split.
    + rewrite lookup_insert_eq. eauto.
    + intros Hne. by rewrite lookup_insert_ne.
Qed.

Lemma release_all_app (me : nat) (ls1 ls2 : list lock) (tbl : LockTable) :
  release_all me (ls1 ++ ls2) tbl = release_all me ls1 tbl ≫= release_all me ls2.
Proof.
  revert tbl. induction ls1 as [|l ls1 IH]; intros tbl; cbn; [done|].
  destruct (rlock_release me l tbl); cbn; [apply IH|done].
Qed.

(** Taking locks that can be taken: all of them end up held, the other
    locks are as before, and giving them back in reverse order restores the
    table. *)
Lemma acquire_all_spec (me : nat) (locks : list lock) :
  ∀ acquired_locks tbl,
    (∀ l, l ∈ locks → acquirable me tbl l) →
    ∃ tbl1,
      acquire_all me locks acquired_locks tbl = inl (tbl1, acquired_locks ++ locks)
      ∧ release_all me (reverse locks) tbl1 = Some tbl
      ∧ (∀ l, l ∈ locks → ∃ depth, tbl1 !! l = Some (me, depth))
      ∧ (∀ l, l ∉ locks → tbl1 !! l = tbl !! l).
Proof.
  induction locks as [|l locks IH]; intros acquired_locks tbl Hfree.
  - exists tbl. cbn. rewrite app_nil_r. repeat split; try done.
    intros l Hl. by apply elem_of_nil in Hl.
  - destruct (rlock_acquire_acquirable me l tbl) as [tbl' Hacq].
    { apply Hfree, list_elem_of_here. }
    destruct (rlock_acquire_lookup me l l tbl tbl' Hacq) as [[depth Hheld] _].
    destruct (IH (acquired_locks ++ [l]) tbl') as (tbl1 & Hall & Hrel & Hheld1 & Hother1).
    { intros l' Hl'. unfold acquirable.
      destruct (decide (l' = l)) as [->|Hne]; [by rewrite Hheld|].
      destruct (rlock_acquire_lookup me l l' tbl tbl' Hacq) as [_ Hsame].
      rewrite Hsame by done. by apply Hfree, list_elem_of_further. }
    exists tbl1. split.
    { cbn. rewrite Hacq, Hall. by rewrite <-app_assoc. }
    split.
    { rewrite reverse_cons, release_all_app, Hrel. cbn.
      by rewrite (rlock_release_acquire me l tbl tbl'). }
    split.
    + intros l' Hl'. destruct (decide (l' ∈ locks)) as [Hin|Hout]; [by apply Hheld1|].
      apply elem_of_cons in Hl' as [->|?]; [|done].
      rewrite Hother1 by done. eauto.
    + intros l' Hl'. apply not_elem_of_cons in Hl' as [Hne Hout].
      rewrite Hother1 by done.
      by destruct (rlock_acquire_lookup me l l' tbl tbl' Hacq) as [_ ->].
Qed.

Lemma acquire_all_app (me : nat) (ls1 ls2 : list lock) :
  ∀ acquired_locks tbl tbl1 acquired1,
    acquire_all me ls1 acquired_locks tbl = inl (tbl1, acquired1) →
    acquire_all me (ls1 ++ ls2) acquired_locks tbl = acquire_all me ls2 acquired1 tbl1.
Proof.
  induction ls1 as [|l ls1 IH]; intros acquired_locks tbl tbl1 acquired1; cbn.
  - by intros [= <- <-].
  - destruct (rlock_acquire me l tbl); [apply IH|done].
Qed.

(** X7. A [with self.thread_safe_operation(...)] block whose locks the
    thread can take (they are free or already its own; a lock may be named
    twice) gives every lock back: whether the body returns or raises, the
    lock table after the block is the one before it, and no release fails.
    While the body runs, all the named locks are held. *)
Theorem thread_safe_operation_gives_locks_back {A} (me : nat) (locks : list lock)
    (body : M A) (tbl : LockTable) (s : Server) :
  (∀ l, l ∈ locks → acquirable me tbl l) →
  match body s with
  | Unfinished s' =>
      ∃ tbl1, thread_safe_operation me locks body tbl s = Inside_block s' tbl1
              ∧ ∀ l, l ∈ locks → ∃ depth, tbl1 !! l = Some (me, depth)
  | o => thread_safe_operation me locks body tbl s = Left_block o tbl
  end.
Proof.
  intros Hfree. unfold thread_safe_operation.
  destruct (acquire_all_spec me locks [] tbl Hfree) as (tbl1 & Hall & Hrel & Hheld & _).
  rewrite Hall. cbn [app].
  destruct (body s) as [a s'|e s'|s']; [by rewrite Hrel|by rewrite Hrel|].
  by exists tbl1.
Qed.

(** X8. When one of the locks is held by another thread, the block waits
    at that lock while holding every lock named before it: the body has
    not run, nothing has been released. *)
Theorem thread_safe_operation_waits_holding {A} (me other depth : nat)
    (before after : list lock) (l : lock) (body : M A) (tbl : LockTable) (s : Server) :
  (∀ l', l' ∈ before → acquirable me tbl l') →
  tbl !! l = Some (other, depth) →
  other ≠ me →
  ∃ tbl1,
    thread_safe_operation me (before ++ l :: after) body tbl s
    = Waiting_for l before tbl1 s
    ∧ (∀ l', l' ∈ before → ∃ depth', tbl1 !! l' = Some (me, depth'))
    ∧ tbl1 !! l = Some (other, depth).
Proof.
  intros Hfree Hl Hother.
  destruct (acquire_all_spec me before [] tbl Hfree) as (tbl1 & Hall & _ & Hheld & Hrest).
  assert (l ∉ before) as Hout.
  { intros Hin. specialize (Hfree l Hin). unfold acquirable in Hfree.
    rewrite Hl in Hfree. done. }
  exists tbl1. rewrite Hrest by done. split; [|done].
  unfold thread_safe_operation.
  rewrite (acquire_all_app me before (l :: after) [] tbl tbl1 before Hall).
  cbn. unfold rlock_acquire. rewrite Hrest, Hl by done.
  by rewrite decide_False.
Qed.

Lemma thread_safe_operation_gives_locks_back_witness :
  (∀ l, l ∈ [playerDataLock; gameStateUpdateLock; playerDataLock] →
        acquirable 1 ∅ l)
  ∧ match run_section (StoreUpdate 0 1500 0) example_server with
    | Unfinished s' =>
        ∃ tbl1, thread_safe_operation 1
                  [playerDataLock; gameStateUpdateLock; playerDataLock]
                  (run_section (StoreUpdate 0 1500 0)) ∅ example_server
                = Inside_block s' tbl1
                ∧ ∀ l, l ∈ [playerDataLock; gameStateUpdateLock; playerDataLock] →
                       ∃ depth, tbl1 !! l = Some (1%nat, depth)
    | o => thread_safe_operation 1
             [playerDataLock; gameStateUpdateLock; playerDataLock]
             (run_section (StoreUpdate 0 1500 0)) ∅ example_server
           = Left_block o ∅
    end.
Proof.
  assert (∀ l, l ∈ [playerDataLock; gameStateUpdateLock; playerDataLock] →
               acquirable 1 ∅ l) as Hfree.
  { intros l _. unfold acquirable. by rewrite lookup_empty. }
  split; [exact Hfree|].
  exact (thread_safe_operation_gives_locks_back 1
           [playerDataLock; gameStateUpdateLock; playerDataLock]
           (run_section (StoreUpdate 0 1500 0)) ∅ example_server Hfree).
Defined.

Lemma thread_safe_operation_waits_holding_witness :
  (<[gameStateUpdateLock := (2%nat, O)]> ∅ : LockTable) !! gameStateUpdateLock
    = Some (2%nat, O)
  ∧ ∃ tbl1,
      thread_safe_operation 1 ([playerDataLock] ++ gameStateUpdateLock :: [botManagerLock])
        (run_section (StoreUpdate 0 1500 0))
        (<[gameStateUpdateLock := (2%nat, O)]> ∅) example_server
      = Waiting_for gameStateUpdateLock [playerDataLock] tbl1 example_server
      ∧ (∀ l', l' ∈ [playerDataLock] → ∃ depth', tbl1 !! l' = Some (1%nat, depth')).
Proof.
  assert ((<[gameStateUpdateLock := (2%nat, O)]> ∅ : LockTable) !! gameStateUpdateLock
          = Some (2%nat, O)) as Hheld by apply lookup_insert_eq.
  split; [exact Hheld|].
  destruct (thread_safe_operation_waits_holding 1 2 0 [playerDataLock] [botManagerLock]
              gameStateUpdateLock (run_section (StoreUpdate 0 1500 0))
              (<[gameStateUpdateLock := (2%nat, O)]> ∅) example_server)
    as (tbl1 & Hwait & Hmine & _).
  - intros l' Hl'. apply list_elem_of_singleton in Hl' as ->.
    unfold acquirable. rewrite lookup_insert_ne by done. by rewrite lookup_empty.
  - exact Hheld.
  - discriminate.
  - exists tbl1. split; [exact Hwait|exact Hmine].
Defined.

(** ** More on spawning *)

Section SpawnMore.

Variable iter_positions : gset (Z * Z) → list (Z * Z).
Hypothesis iter_positions_perm : ∀ s, iter_positions s ≡ₚ elements s.
Variable EnhancedBot_new :
  Z → Z → bool → Z → Z → KDTree → gmap Point Tile → EnhancedBot.

Lemma iter_positions_empty : iter_positions ∅ = [].
Proof. apply Permutation_nil_r. by rewrite iter_positions_perm, elements_empty. Qed.

Lemma length_iter_positions (ps : gset (Z * Z)) : length (iter_positions ps) = size ps.
Proof. by rewrite iter_positions_perm. Qed.

(** An attempt keeps the accepted positions and leaves at least one. *)
Lemma spawn_attempt_grows (boundaries : Z * Z) (st : SpawnSearch) (s : Server) :
  0 ≤ (serverBoundaryCoordinates s).1 →
  0 ≤ (serverBoundaryCoordinates s).2 →
  ∃ st',
    spawn_attempt iter_positions boundaries st s = Returns st' (after_draws 2 s)
    ∧ positions st ⊆ positions st'
    ∧ positions st' ≠ ∅.
Proof.
  intros HW HH. eexists. split; [by apply spawn_attempt_spec|].
  cbn [positions]. destruct (existsb _ _) eqn:Hex; cbn.
  - split; [done|]. apply existsb_exists in Hex as (p & Hp & _).
    apply list_elem_of_In, (elem_of_iter_positions iter_positions iter_positions_perm) in Hp.
    set_solver.
  - split; set_solver.
Qed.

(** When the search returns, its loop condition is false; it has kept the
    positions it started with, and has at least one if it made an attempt. *)
Lemma spawn_search_exit (count maxAttempts : Z) (boundaries : Z * Z) (fuel : nat) :
  ∀ st s st' s',
    0 ≤ (serverBoundaryCoordinates s).1 →
    0 ≤ (serverBoundaryCoordinates s).2 →
    spawn_search iter_positions fuel count maxAttempts boundaries st s = Returns st' s' →
    ¬ (Z.of_nat (size (positions st')) < count ∧ attempts st' < maxAttempts)
    ∧ positions st ⊆ positions st'
    ∧ (Z.of_nat (size (positions st)) < count ∧ attempts st < maxAttempts →
       positions st' ≠ ∅).
Proof.
  induction fuel as [|fuel IH]; intros st s st' s' HW HH; cbn [spawn_search].
  - destruct (bool_decide (Z.of_nat (size (positions st)) < count)) eqn:Hc1;
      destruct (bool_decide (attempts st < maxAttempts)) eqn:Hc2; cbn; try done;
      intros [= <- <-];
      try apply bool_decide_eq_false in Hc1; try apply bool_decide_eq_false in Hc2;
      (split; [tauto|split; [done|tauto]]).
  - destruct (bool_decide (Z.of_nat (size (positions st)) < count)) eqn:Hc1;
      destruct (bool_decide (attempts st < maxAttempts)) eqn:Hc2; cbn;
      try (intros [= <- <-];
           try apply bool_decide_eq_false in Hc1; try apply bool_decide_eq_false in Hc2;
           (split; [tauto|split; [done|tauto]])).
    destruct (spawn_attempt_grows boundaries st s HW HH) as (st1 & Hstep & Hsub & Hne).
    rewrite (bind_Returns _ _ s (after_draws 2 s) st1) by done.
    intros Hrun. destruct (IH st1 (after_draws 2 s) st' s' HW HH Hrun)
      as (Hexit & Hsub1 & _).
    split; [done|]. split; [set_solver|]. intros _. set_solver.
Qed.

Lemma generate_exit (count : Z) (boundaries : Z * Z) (s : Server) :
  0 ≤ count →
  0 ≤ (serverBoundaryCoordinates s).1 →
  0 ≤ (serverBoundaryCoordinates s).2 →
  ∃ st,
    _generateOptimizedSpawnPositions iter_positions count boundaries s
      = Returns (iter_positions (positions st))
                (after_draws (2 * Z.to_nat (attempts st)) s)
    ∧ search_invariant count boundaries s st
        (after_draws (2 * Z.to_nat (attempts st)) s)
    ∧ attempts st ≤ count * 10
    ∧ ¬ (Z.of_nat (size (positions st)) < count ∧ attempts st < count * 10)
    ∧ (1 ≤ count → positions st ≠ ∅).
Proof.
  intros Hcount HW HH.
  destruct (generate_returns iter_positions iter_positions_perm count boundaries s
              Hcount HW HH) as (st & Hsearch & Hgen & Hinv & Hmax).
  destruct (spawn_search_exit _ _ _ _ _ _ _ _ HW HH Hsearch) as (Hexit & _ & Hne).
  exists st. do 4 (split; [done|]). intros H1. apply Hne. cbn.
  rewrite size_empty. lia.
Qed.

(** X9. Asked for no bots (or for a negative number), the spawn does
    nothing at all: it returns with the server, the generator included, as
    it was. *)
Theorem spawning_no_bots_changes_nothing (numberOfBots : Z) (s : Server) :
  numberOfBots ≤ 0 →
  _generateOptimizedSpawnPositions iter_positions numberOfBots (regionBoundaries s) s
    = Returns [] s
  ∧ spawnEnhancedBotsInRegion iter_positions EnhancedBot_new numberOfBots s
    = Returns tt s.
Proof.
  intros Hnone.
  assert (_generateOptimizedSpawnPositions iter_positions numberOfBots
            (regionBoundaries s) s = Returns [] s) as Hgen.
  { unfold _generateOptimizedSpawnPositions.
    assert (∀ fuel, spawn_search iter_positions fuel numberOfBots (numberOfBots * 10)
                      (regionBoundaries s) {| positions := ∅; attempts := 0 |} s
                    = Returns {| positions := ∅; attempts := 0 |} s) as Hsearch.
    { intros fuel. destruct fuel; cbn; rewrite size_empty;
        by rewrite (bool_decide_eq_false_2 (Z.of_nat 0 < numberOfBots)) by lia. }
    rewrite (bind_Returns _ _ s s _ (Hsearch _)). cbn.
    by rewrite iter_positions_empty. }
  split; [done|]. unfold spawnEnhancedBotsInRegion.
  rewrite (bind_Returns _ _ s s s) by reflexivity.
  by rewrite (bind_Returns _ _ s s [] Hgen).
Qed.

(** [random.randint] on an empty range ends the search in its first
    attempt. *)
Lemma generate_raises_on_empty_range (count : Z) (boundaries : Z * Z) (s : Server) :
  1 ≤ count →
  (serverBoundaryCoordinates s).1 < 0 ∨ (serverBoundaryCoordinates s).2 < 0 →
  ∃ s',
    _generateOptimizedSpawnPositions iter_positions count boundaries s
      = Raises ValueError s'
    ∧ activePlayerData s' = activePlayerData s
    ∧ gameStateUpdates s' = gameStateUpdates s
    ∧ enhancedBotManager s' = enhancedBotManager s
    ∧ spatialPlayerGrid s' = spatialPlayerGrid s
    ∧ isConnectedToLoadBalancer s' = isConnectedToLoadBalancer s
    ∧ ((serverBoundaryCoordinates s).1 < 0 → s' = s).
Proof.
  intros Hsome Hneg.
  unfold _generateOptimizedSpawnPositions.
  destruct (Z.to_nat (count * 10)) as [|fuel] eqn:Hfuel; [lia|].
  cbn [spawn_search positions attempts]. rewrite size_empty.
  rewrite (bool_decide_eq_true_2 (Z.of_nat 0 < count)) by lia.
  rewrite (bool_decide_eq_true_2 (0 < count * 10)) by lia.
  cbn [andb]. unfold spawn_attempt, randint.
  unfold mbind, M_bind, get, raise, next_raw, mret, M_ret. cbn.
  destruct (Z.ltb_spec (serverBoundaryCoordinates s).1 0) as [HW|HW].
  - exists s. by repeat split.
  - cbn. destruct (Z.ltb_spec (serverBoundaryCoordinates s).2 0) as [HH|HH]; [|lia].
    eexists. split; [reflexivity|]. cbn. repeat split; try done. lia.
Qed.

(** X10. With a negative boundary coordinate and at least one bot asked
    for, the spawn raises ValueError ([random.randint] on an empty range) on
    its first attempt, before any table or the grid is written; when it is
    the first coordinate that is negative, not even the generator has moved. *)
Theorem spawning_in_negative_region_raises (numberOfBots : Z) (s : Server) :
  1 ≤ numberOfBots →
  (serverBoundaryCoordinates s).1 < 0 ∨ (serverBoundaryCoordinates s).2 < 0 →
  ∃ s',
    spawnEnhancedBotsInRegion iter_positions EnhancedBot_new numberOfBots s
      = Raises ValueError s'
    ∧ activePlayerData s' = activePlayerData s
    ∧ gameStateUpdates s' = gameStateUpdates s
    ∧ enhancedBotManager s' = enhancedBotManager s
    ∧ spatialPlayerGrid s' = spatialPlayerGrid s
    ∧ isConnectedToLoadBalancer s' = isConnectedToLoadBalancer s
    ∧ ((serverBoundaryCoordinates s).1 < 0 → s' = s).
Proof.
  intros Hsome Hneg.
  destruct (generate_raises_on_empty_range numberOfBots (regionBoundaries s) s
              Hsome Hneg) as (s' & Hraise & Hrest).
  exists s'. split; [|exact Hrest].
  unfold spawnEnhancedBotsInRegion.
  rewrite (bind_Returns _ _ s s s) by reflexivity.
  unfold mbind, M_bind. by rewrite Hraise.
Qed.

(** X11. In a region of non-negative extent the generator returns at least
    one position when at least one is asked for; it returns fewer than
    asked for only after using up all [10 * N] attempts; and when it stops
    short of the cap it has exactly [N] positions. *)
Theorem fewer_positions_only_at_the_cap (count : Z) (boundaries : Z * Z) (s : Server) :
  1 ≤ count →
  0 ≤ (serverBoundaryCoordinates s).1 →
  0 ≤ (serverBoundaryCoordinates s).2 →
  ∃ spawnPositions st,
    spawn_search iter_positions (Z.to_nat (count * 10)) count (count * 10) boundaries
      {| positions := ∅; attempts := 0 |} s
      = Returns st (after_draws (2 * Z.to_nat (attempts st)) s)
    ∧ _generateOptimizedSpawnPositions iter_positions count boundaries s
      = Returns spawnPositions (after_draws (2 * Z.to_nat (attempts st)) s)
    ∧ spawnPositions ≠ []
    ∧ (Z.of_nat (length spawnPositions) < count → attempts st = 10 * count)
    ∧ (attempts st < 10 * count → Z.of_nat (length spawnPositions) = count).
Proof.
  intros Hcount HW HH.
  destruct (generate_returns iter_positions iter_positions_perm count boundaries s)
    as (st & Hsearch & Hgen & (Hsize & _) & Hmax); [lia|done|done|].
  destruct (spawn_search_exit _ _ _ _ _ _ _ _ HW HH Hsearch) as (Hexit & _ & Hne).
  exists (iter_positions (positions st)), st. split; [done|]. split; [done|].
  rewrite length_iter_positions. split.
  - intros Hnil. apply Hne; [cbn; rewrite size_empty; lia|].
    apply set_eq. intros p.
    rewrite <-(elem_of_iter_positions iter_positions iter_positions_perm), Hnil.
    set_solver.
  - split; lia.
Qed.

(** X12. In a region that is less than 100 units wide and high there is
    room for one bot only: whatever number [N >= 1] is asked for, exactly
    one position is returned, and for [N >= 2] all [10 * N] attempts are
    spent on it.  (A server that has not been told its region yet has the
    extent (0, 0).) *)
Theorem cramped_region_holds_one_bot (count : Z) (boundaries : Z * Z) (s : Server) :
  1 ≤ count →
  0 ≤ (serverBoundaryCoordinates s).1 < 100 →
  0 ≤ (serverBoundaryCoordinates s).2 < 100 →
  ∃ p st,
    spawn_search iter_positions (Z.to_nat (count * 10)) count (count * 10) boundaries
      {| positions := ∅; attempts := 0 |} s
      = Returns st (after_draws (2 * Z.to_nat (attempts st)) s)
    ∧ _generateOptimizedSpawnPositions iter_positions count boundaries s
      = Returns [p] (after_draws (2 * Z.to_nat (attempts st)) s)
    ∧ within_region boundaries s p
    ∧ (2 ≤ count → attempts st = 10 * count).
Proof.
  intros Hcount HW HH.
  destruct (generate_returns iter_positions iter_positions_perm count boundaries s)
    as (st & Hsearch & Hgen & (Hsize & Hin & Hsep & _) & Hmax); [lia|lia|lia|].
  destruct (spawn_search_exit _ _ _ _ _ _ _ _ (proj1 HW) (proj1 HH) Hsearch)
    as (Hexit & _ & Hne).
  assert (positions st ≠ ∅) as Hsome by (apply Hne; cbn; rewrite size_empty; lia).
  apply set_choose_L in Hsome as [p Hp].
  assert (positions st = {[p]}) as Hone.
  { apply set_eq. intros q. rewrite elem_of_singleton. split; [|by intros ->].
    intros Hq. destruct (decide (q = p)) as [|Hne']; [done|].
    pose proof (Hsep q p Hq Hp Hne') as Hfar.
    pose proof (Hin q Hq) as Hq_in. pose proof (Hin p Hp) as Hp_in.
    unfold separated, within_region in *. lia. }
  assert (iter_positions (positions st) = [p]) as Hlist.
  { rewrite Hone. apply Permutation_singleton_r.
    by rewrite iter_positions_perm, elements_singleton. }
  exists p, st. split; [done|]. split; [by rewrite <-Hlist|]. split; [by apply Hin|].
  intros Htwo. rewrite Hone, size_singleton in Hexit. lia.
Qed.

(** X13. On any server, in a region of non-negative extent, spawning
    writes the ids [0 .. k-1] and nothing else: whatever the three tables
    held under these ids before (the bots of an earlier spawn, or anything
    else) is replaced, the delta starting empty again, and every other id
    keeps its entries and its grid cell.  The link flag is not touched. *)
Theorem spawning_overwrites_first_ids_only (numberOfBots : Z) (s : Server) :
  0 ≤ numberOfBots →
  0 ≤ (serverBoundaryCoordinates s).1 →
  0 ≤ (serverBoundaryCoordinates s).2 →
  ∃ (spawnPositions : list (Z * Z)) s',
    spawnEnhancedBotsInRegion iter_positions EnhancedBot_new numberOfBots s
      = Returns tt s'
    ∧ Z.of_nat (length spawnPositions) ≤ numberOfBots
    ∧ isConnectedToLoadBalancer s' = isConnectedToLoadBalancer s
    ∧ (∀ other, other < 0 ∨ Z.of_nat (length spawnPositions) ≤ other →
         activePlayerData s' !! other = activePlayerData s !! other
         ∧ gameStateUpdates s' !! other = gameStateUpdates s !! other
         ∧ enhancedBotManager s' !! other = enhancedBotManager s !! other
         ∧ ∀ c, in_cell s' other c ↔ in_cell s other c)
    ∧ (∀ j x y, spawnPositions !! j = Some (x, y) →
         ∃ aggressive,
           enhancedBotManager s' !! Z.of_nat j
           = Some (EnhancedBot_new x y aggressive 0 0
                     (spatialCollisionTree s) (tilePositionMapping s))
           ∧ store_position s' (Z.of_nat j) = Some (x, y)
           ∧ gameStateUpdates s' !! Z.of_nat j = Some ∅).
Proof.
  intros Hcount HW HH.
  destruct (generate_returns iter_positions iter_positions_perm numberOfBots
              (regionBoundaries s) s Hcount HW HH)
    as (st & _ & Hgen & (Hsize & _) & _).
  set (spawnPositions := iter_positions (positions st)) in *.
  set (s1 := after_draws (2 * Z.to_nat (attempts st)) s) in *.
  destruct (spawn_each_spec EnhancedBot_new spawnPositions 0 s1)
    as (s' & Hrun & Hflag & _ & _ & _ & Hframe & Hbots).
  exists spawnPositions, s'. split.
  { unfold spawnEnhancedBotsInRegion.
    rewrite (bind_Returns _ _ s s s) by reflexivity.
    by rewrite (bind_Returns _ _ s s1 spawnPositions). }
  split; [unfold spawnPositions; rewrite length_iter_positions; lia|].
  split; [done|]. split.
  - intros other Hother. apply Hframe. lia.
  - intros j x y Hj. destruct (Hbots j x y Hj) as (agg & Hb & Ha & Hu & _).
    exists agg. cbn zeta in *. rewrite Z.add_0_l in Hb, Ha, Hu.
    split; [done|]. split; [|done]. unfold store_position. by rewrite Ha.
Qed.

End SpawnMore.

(** ** More on bot ticks *)

Lemma preserves_ret {A} (R : Server → Server → Prop) (a : A) :
  (∀ s, R s s) → preserves R (mret a : M A).
Proof. intros Hrefl s. apply Hrefl. Qed.

Lemma preserves_bind {A B} (R : Server → Server → Prop) (m : M A) (k : A → M B) :
  (∀ s1 s2 s3, R s1 s2 → R s2 s3 → R s1 s3) →
  preserves R m → (∀ a, preserves R (k a)) → preserves R (m ≫= k).
Proof.
  intros Htrans Hm Hk s. unfold mbind, M_bind. specialize (Hm s).
  destruct (m s) as [a s1|e s1|s1]; cbn in *; [|done|done].
  eapply Htrans; [done|apply Hk].
Qed.

Lemma preserves_try {A} (R : Server → Server → Prop) (body : M A)
    (handler : exn → M A) :
  (∀ s1 s2 s3, R s1 s2 → R s2 s3 → R s1 s3) →
  preserves R body → (∀ e, preserves R (handler e)) →
  preserves R (try_except body handler).
Proof.
  intros Htrans Hb Hh s. unfold try_except. specialize (Hb s).
  destruct (body s) as [a s1|e s1|s1]; cbn in *; [done| |done].
  eapply Htrans; [done|apply Hh].
Qed.

Lemma tick_keeps_refl (s : Server) : tick_keeps s s.
Proof. unfold tick_keeps. naive_solver. Qed.

Lemma tick_keeps_trans (s1 s2 s3 : Server) :
  tick_keeps s1 s2 → tick_keeps s2 s3 → tick_keeps s1 s3.
Proof.
  intros (Hb1 & Hf1 & Ha1 & Hu1 & Hk1 & Hd1 & Hm1 & Hn1)
         (Hb2 & Hf2 & Ha2 & Hu2 & Hk2 & Hd2 & Hm2 & Hn2).
  split; [congruence|]. split; [congruence|].
  split; [intros botId; by rewrite Ha2|]. split; [intros botId; by rewrite Hu2|].
  split; [intros botId key ??; by rewrite Hk2, Hk1|].
  split; [intros botId key ???; by rewrite Hd2, Hd1|].
  split; [intros botId key ?; by apply Hm2, Hm1|].
  intros botId key ?; by apply Hn2, Hn1.
Qed.

Lemma field_of_insert (d : gmap Z (gmap string value)) (botId other : Z)
    (key k : string) (v : value) (entry : gmap string value) :
  d !! botId = Some entry →
  field_of (<[botId := <[key := v]> entry]> d) other k
  = if decide (other = botId ∧ k = key) then Some v else field_of d other k.
Proof.
  intros Hentry. unfold field_of. destruct (decide (other = botId)) as [->|Hne].
  - rewrite lookup_insert_eq, Hentry. cbn. destruct (decide (k = key)) as [->|Hk].
    + rewrite lookup_insert_eq. by rewrite decide_True.
    + rewrite lookup_insert_ne by done. rewrite decide_False; [done|]. by intros [_ ?].
  - rewrite lookup_insert_ne by done. rewrite decide_False; [done|]. by intros [? _].
Qed.

Lemma tick_keeps_set_player_item (botId : Z) (key : string) (v : value) :
  key = "x" ∨ key = "y" → preserves tick_keeps (set_player_item botId key v).
Proof.
  intros Hkey s. unfold set_player_item, set_item.
  destruct (activePlayerData s !! botId) as [entry|] eqn:Hentry; cbn;
    [|apply tick_keeps_refl].
  unfold tick_keeps. cbn. do 2 (split; [done|]). split.
  { intros other. destruct (decide (other = botId)) as [->|Hne].
    - rewrite lookup_insert_eq, Hentry. split; eauto.
    - by rewrite lookup_insert_ne. }
  split; [done|]. split.
  { intros other k Hx Hy. rewrite (field_of_insert _ _ _ _ _ _ _ Hentry).
    rewrite decide_False; [done|]. intros [_ ->]. by destruct Hkey. }
  split; [done|]. split; [|done].
  intros other k. rewrite (field_of_insert _ _ _ _ _ _ _ Hentry).
  case_decide; eauto.
Qed.

Lemma tick_keeps_set_update_item (botId : Z) (key : string) (v : value) :
  key = "x" ∨ key = "y" ∨ key = "weapon_fire" →
  preserves tick_keeps (set_update_item botId key v).
Proof.
  intros Hkey s. unfold set_update_item, set_item.
  destruct (gameStateUpdates s !! botId) as [entry|] eqn:Hentry; cbn;
    [|apply tick_keeps_refl].
  unfold tick_keeps. cbn. do 3 (split; [done|]). split.
  { intros other. destruct (decide (other = botId)) as [->|Hne].
    - rewrite lookup_insert_eq, Hentry. split; eauto.
    - by rewrite lookup_insert_ne. }
  split; [done|]. split.
  { intros other k Hx Hy Hw. rewrite (field_of_insert _ _ _ _ _ _ _ Hentry).
    rewrite decide_False; [done|]. intros [_ ->]. by destruct Hkey as [|[|]]. }
  split; [done|].
  intros other k. rewrite (field_of_insert _ _ _ _ _ _ _ Hentry).
  case_decide; eauto.
Qed.

Lemma tick_keeps_run_section (c : critical_section) :
  preserves tick_keeps (run_section c).
Proof.
  pose proof tick_keeps_trans as Htrans.
  destruct c as [botId x y|botId x y|botId shot]; cbn [run_section].
  - apply preserves_bind; [done|apply tick_keeps_set_player_item; by left|intros _].
    apply preserves_bind; [done|apply tick_keeps_set_player_item; by right|intros _].
    apply preserves_bind; [done|apply tick_keeps_set_update_item; by left|intros _].
    apply tick_keeps_set_update_item. right. by left.
  - intros s. cbn. unfold tick_keeps. cbn. naive_solver.
  - apply tick_keeps_set_update_item. right. by right.
Qed.

Lemma tick_keeps_run_sections (cs : list critical_section) :
  preserves tick_keeps (run_sections cs).
Proof.
  induction cs as [|c cs IH]; cbn [run_sections].
  - apply preserves_ret, tick_keeps_refl.
  - apply preserves_bind; [apply tick_keeps_trans|apply tick_keeps_run_section|done].
Qed.

(** A run of critical sections returns or raises KeyError. *)
Lemma run_sections_outcome (cs : list critical_section) (s : Server) :
  (∃ s', run_sections cs s = Returns tt s')
  ∨ (∃ s', run_sections cs s = Raises KeyError s').
Proof.
  assert (∀ botId key v s0,
            (∃ s', set_player_item botId key v s0 = Returns tt s')
            ∨ set_player_item botId key v s0 = Raises KeyError s0) as Hp.
  { intros botId key v s0. unfold set_player_item.
    destruct (set_item _ _ _ _); eauto. }
  assert (∀ botId key v s0,
            (∃ s', set_update_item botId key v s0 = Returns tt s')
            ∨ set_update_item botId key v s0 = Raises KeyError s0) as Hu.
  { intros botId key v s0. unfold set_update_item.
    destruct (set_item _ _ _ _); eauto. }
  assert (∀ c s0, (∃ s', run_section c s0 = Returns tt s')
                  ∨ (∃ s', run_section c s0 = Raises KeyError s')) as Hsection.
  { intros [botId x y|botId x y|botId shot] s0; cbn [run_section].
    - destruct (Hp botId "x" (VInt x) s0) as [[s1 H1]|H1];
        [rewrite (bind_Returns _ _ _ _ _ H1)
        |right; exists s0; unfold mbind, M_bind; by rewrite H1].
      destruct (Hp botId "y" (VInt y) s1) as [[s2 H2]|H2];
        [rewrite (bind_Returns _ _ _ _ _ H2)
        |right; exists s1; unfold mbind, M_bind; by rewrite H2].
      destruct (Hu botId "x" (VInt x) s2) as [[s3 H3]|H3];
        [rewrite (bind_Returns _ _ _ _ _ H3)
        |right; exists s2; unfold mbind, M_bind; by rewrite H3].
      destruct (Hu botId "y" (VInt y) s3) as [[s4 H4]|H4]; eauto.
    - left. eexists. reflexivity.
    - destruct (Hu botId "weapon_fire" (VList shot) s0) as [[s1 H1]|H1]; eauto. }
  revert s. induction cs as [|c cs IH]; intros s; cbn [run_sections].
  - left. by exists s.
  - destruct (Hsection c s) as [[s1 H1]|[s1 H1]].
    + rewrite (bind_Returns _ _ _ _ _ H1). apply IH.
    + right. exists s1. unfold mbind, M_bind. by rewrite H1.
Qed.

(** X14. A bot tick, however it ends, adds and removes no entity, leaves
    the bot registry and the link flag alone, removes no field from any
    record or delta, changes no field of [activePlayerData] other than
    "x" and "y" (health, angle and type stay), and no field of a delta
    other than "x", "y" and "weapon_fire".  The same holds of the movement
    pass and of the combat pass alone. *)
Theorem bot_tick_touches_positions_and_fire_only (s : Server) :
  tick_keeps s (final_state (bot_tick s))
  ∧ tick_keeps s (final_state (_processEnhancedBotMovement s))
  ∧ tick_keeps s (final_state (_processEnhancedBotCombat s)).
Proof.
  pose proof tick_keeps_trans as Htrans. pose proof tick_keeps_refl as Hrefl.
  assert (preserves tick_keeps _processEnhancedBotMovement) as Hmove.
  { apply preserves_bind; [done|by intros s0|].
    intros s0. apply tick_keeps_run_sections. }
  assert (preserves tick_keeps _processEnhancedBotCombat) as Hcombat.
  { apply preserves_bind; [done|by intros s0|].
    intros s0. apply tick_keeps_run_sections. }
  split; [|split; [apply Hmove|apply Hcombat]].
  assert (preserves tick_keeps bot_tick) as Htick; [|apply Htick].
  apply preserves_try; [done| |].
  - apply preserves_bind; [done|done|]. by intros _.
  - intros e. by apply preserves_ret.
Qed.

Lemma movement_outcome (s : Server) :
  (∃ s', _processEnhancedBotMovement s = Returns tt s')
  ∨ (∃ s', _processEnhancedBotMovement s = Raises KeyError s').
Proof.
  unfold _processEnhancedBotMovement.
  rewrite (bind_Returns _ _ s s s) by reflexivity. apply run_sections_outcome.
Qed.

Lemma combat_outcome (s : Server) :
  (∃ s', _processEnhancedBotCombat s = Returns tt s')
  ∨ (∃ s', _processEnhancedBotCombat s = Raises KeyError s').
Proof.
  unfold _processEnhancedBotCombat.
  rewrite (bind_Returns _ _ s s s) by reflexivity. apply run_sections_outcome.
Qed.

Lemma bot_tick_after_movement (s s1 : Server) :
  _processEnhancedBotMovement s = Returns tt s1 →
  bot_tick s = Returns tt (final_state (_processEnhancedBotCombat s1)).
Proof.
  intros H1. unfold bot_tick, try_except. rewrite (bind_Returns _ _ _ _ _ H1).
  by destruct (combat_outcome s1) as [[s2 ->]|[s2 ->]].
Qed.

Lemma bot_tick_returns (s : Server) : ∃ s', bot_tick s = Returns tt s'.
Proof.
  destruct (movement_outcome s) as [[s1 H1]|[s1 H1]].
  - rewrite (bot_tick_after_movement s s1 H1). eauto.
  - exists s1. unfold bot_tick, try_except, mbind, M_bind. by rewrite H1.
Qed.

(** X15. A tick always comes back: no error leaves it.  When the movement
    pass raises (it can raise KeyError only), the tick ends in the state
    the movement pass stopped in: the combat pass of that tick is not run. *)
Theorem bot_tick_swallows_errors (s : Server) :
  (∃ s', bot_tick s = Returns tt s')
  ∧ (∀ e s1, _processEnhancedBotMovement s = Raises e s1 →
       e = KeyError ∧ bot_tick s = Returns tt s1)
  ∧ (∀ s1, _processEnhancedBotMovement s = Returns tt s1 →
       bot_tick s = Returns tt (final_state (_processEnhancedBotCombat s1))).
Proof.
  split; [apply bot_tick_returns|]. split; [|apply bot_tick_after_movement].
  intros e s1 H1. destruct (movement_outcome s) as [[s2 H2]|[s2 H2]]; [congruence|].
  rewrite H2 in H1. injection H1 as <- <-. split; [done|].
  unfold bot_tick, try_except, mbind, M_bind. by rewrite H2.
Qed.

(** X16. The bot loop never raises and never stops of its own accord: with
    the link down it returns at once without a tick; with the link up it is
    still running after any number of ticks, the link still up. *)
Theorem bot_loop_runs_while_link_is_up (fuel ticks : nat) (s : Server) :
  match bot_loop fuel ticks s with
  | Returns n s' => isConnectedToLoadBalancer s = false ∧ n = ticks ∧ s' = s
  | Raises _ _ => False
  | Unfinished s' =>
      isConnectedToLoadBalancer s = true ∧ isConnectedToLoadBalancer s' = true
  end.
Proof.
  revert ticks s. induction fuel as [|fuel IH]; intros ticks s; cbn [bot_loop];
    destruct (isConnectedToLoadBalancer s) eqn:Hflag; try done.
  destruct (bot_tick_returns s) as [s1 Htick].
  rewrite (bind_Returns _ _ _ _ _ Htick).
  assert (isConnectedToLoadBalancer s1 = true) as Hup.
  { pose proof (keeps_link_flag_bot_tick s) as Hkeep. rewrite Htick in Hkeep.
    cbn in Hkeep. congruence. }
  specialize (IH (S ticks) s1). destruct (bot_loop fuel (S ticks) s1).
  - destruct IH as [Hdown _]. congruence.
  - done.
  - by destruct IH.
Qed.

Lemma store_update_unregistered (botId x y : Z) (s : Server) :
  ¬ registered s botId →
  ∃ s', run_section (StoreUpdate botId x y) s = Raises KeyError s'.
Proof.
  intros Hunreg. cbn [run_section].
  destruct (activePlayerData s !! botId) as [e1|] eqn:He1; last first.
  { exists s. unfold mbind, M_bind, set_player_item, set_item. by rewrite He1. }
  destruct (gameStateUpdates s !! botId) as [e2|] eqn:He2.
  { destruct Hunreg. split; eauto. }
  eexists.
  erewrite bind_Returns; last first.
  { unfold set_player_item. by erewrite set_item_Some. }
  erewrite bind_Returns; last first.
  { unfold set_player_item. cbn. erewrite set_item_Some; [done|].
    apply lookup_insert_eq. }
  unfold mbind, M_bind, set_update_item, set_item. cbn. by rewrite He2.
Qed.

Lemma movement_sections_cons_idle (botId : Z) (bot : EnhancedBot)
    (bots : list (Z * EnhancedBot)) :
  isCurrentlyMoving bot = false →
  movement_sections ((botId, bot) :: bots) = movement_sections bots.
Proof. intros Hm. unfold movement_sections. cbn. by rewrite Hm. Qed.

Lemma movement_sections_raise (bots : list (Z * EnhancedBot)) :
  ∀ s,
    (∃ botId bot, (botId, bot) ∈ bots ∧ isCurrentlyMoving bot = true
                  ∧ ¬ registered s botId) →
    ∃ s', run_sections (movement_sections bots) s = Raises KeyError s'.
Proof.
  induction bots as [|[id0 bot0] rest IH]; intros s (botId & bot & Hin & Hmoving & Hunreg).
  { by apply elem_of_nil in Hin. }
  destruct (isCurrentlyMoving bot0) eqn:Hm0.
  - rewrite movement_sections_cons_moving by done. cbn [run_sections].
    destruct (activePlayerData s !! id0) as [e1|] eqn:He1;
      [destruct (gameStateUpdates s !! id0) as [e2|] eqn:He2|].
    + assert (registered s id0) as Hreg by (split; eauto).
      destruct (store_update_spec id0 (currentX bot0) (currentY bot0) s Hreg)
        as (s1 & Hsu & _ & _ & _ & Hf1 & _).
      destruct (grid_update_spec id0 (currentX bot0) (currentY bot0) s1)
        as (s2 & Hgu & _ & _ & _ & Hf2 & _).
      rewrite (bind_Returns _ _ _ _ _ Hsu), (bind_Returns _ _ _ _ _ Hgu).
      apply IH. exists botId, bot.
      apply elem_of_cons in Hin as [[= -> ->]|Hin]; [done|].
      split; [done|]. split; [done|]. intros Hreg2. apply Hunreg.
      by apply Hf1, Hf2.
    + destruct (store_update_unregistered id0 (currentX bot0) (currentY bot0) s)
        as [s' Hraise].
      { intros [_ [? ?]]. congruence. }
      exists s'. unfold mbind, M_bind. by rewrite Hraise.
    + destruct (store_update_unregistered id0 (currentX bot0) (currentY bot0) s)
        as [s' Hraise].
      { intros [[? ?] _]. congruence. }
      exists s'. unfold mbind, M_bind. by rewrite Hraise.
  - rewrite movement_sections_cons_idle by done. apply IH. exists botId, bot.
    apply elem_of_cons in Hin as [[= -> ->]|Hin]; [congruence|done].
Qed.

(** X17. Missing key.  The store section of a bot that has a record in
    [activePlayerData] but no delta in [gameStateUpdates] raises KeyError
    after the record has been given the new position: the store is
    written, the delta and the grid are not.  A movement pass whose
    snapshot has a moving bot without both entries raises KeyError, and
    the tick then ends there, without its combat pass. *)
Theorem movement_with_missing_entry_raises (s : Server) (botId : Z) (bot : EnhancedBot) :
  enhancedBotManager s !! botId = Some bot →
  isCurrentlyMoving bot = true →
  ¬ registered s botId →
  (∀ s0 x y, is_Some (activePlayerData s0 !! botId) →
     gameStateUpdates s0 !! botId = None →
     ∃ s', run_section (StoreUpdate botId x y) s0 = Raises KeyError s'
           ∧ store_position s' botId = Some (x, y)
           ∧ gameStateUpdates s' = gameStateUpdates s0
           ∧ spatialPlayerGrid s' = spatialPlayerGrid s0)
  ∧ (∀ s0 x y, activePlayerData s0 !! botId = None →
       run_section (StoreUpdate botId x y) s0 = Raises KeyError s0)
  ∧ ∃ s', _processEnhancedBotMovement s = Raises KeyError s'
          ∧ bot_tick s = Returns tt s'.
Proof.
  intros Hbot Hmoving Hunreg. split; [|split].
  - intros s0 x y [e1 He1] He2. eexists. split.
    { cbn [run_section].
      erewrite bind_Returns; last first.
      { unfold set_player_item. by erewrite set_item_Some. }
      erewrite bind_Returns; last first.
      { unfold set_player_item. cbn. erewrite set_item_Some; [done|].
        apply lookup_insert_eq. }
      unfold mbind, M_bind, set_update_item, set_item. cbn. by rewrite He2. }
    cbn. split; [|done]. unfold store_position. cbn. rewrite lookup_insert_eq. cbn.
    unfold entry_position. rewrite lookup_insert_ne by done.
    by rewrite !lookup_insert_eq.
  - intros s0 x y He1. cbn [run_section].
    unfold mbind, M_bind, set_player_item, set_item. by rewrite He1.
  - destruct (movement_sections_raise (activeBots s) s) as [s' Hraise].
    { exists botId, bot. split; [by apply elem_of_map_to_list|done]. }
    exists s'.
    assert (_processEnhancedBotMovement s = Raises KeyError s') as Hpass.
    { unfold _processEnhancedBotMovement.
      by rewrite (bind_Returns _ _ s s s) by reflexivity. }
    split; [done|]. unfold bot_tick, try_except, mbind, M_bind. by rewrite Hpass.
Qed.

Lemma combat_sections_cons (botId : Z) (bot : EnhancedBot)
    (bots : list (Z * EnhancedBot)) :
  combat_sections ((botId, bot) :: bots)
  = (if isCurrentlyEngaged bot
     then [FireUpdate botId [currentX bot; currentY bot; targetX bot; targetY bot]]
     else []) ++ combat_sections bots.
Proof. reflexivity. Qed.

(** A combat pass over a snapshot with one entry per id, every engaged bot
    having a delta. *)
Lemma combat_sections_run (bots : list (Z * EnhancedBot)) :
  ∀ s,
    NoDup (bots.*1) →
    (∀ botId bot, (botId, bot) ∈ bots → isCurrentlyEngaged bot = true →
       is_Some (gameStateUpdates s !! botId)) →
    ∃ s',
      run_sections (combat_sections bots) s = Returns tt s'
      ∧ activePlayerData s' = activePlayerData s
      ∧ spatialPlayerGrid s' = spatialPlayerGrid s
      ∧ enhancedBotManager s' = enhancedBotManager s
      ∧ (∀ botId bot, (botId, bot) ∈ bots → isCurrentlyEngaged bot = true →
           gameStateUpdates s' !! botId
           = <["weapon_fire" :=
                 VList [currentX bot; currentY bot; targetX bot; targetY bot]]>
             <$> gameStateUpdates s !! botId)
      ∧ (∀ botId, (∀ bot, (botId, bot) ∈ bots → isCurrentlyEngaged bot = false) →
           gameStateUpdates s' !! botId = gameStateUpdates s !! botId).
Proof.
  induction bots as [|[id0 bot0] rest IH]; intros s Hnd Hdelta.
  { exists s. cbn. repeat split; try done. intros ? ? Hin. by apply elem_of_nil in Hin. }
  rewrite fmap_cons in Hnd. cbn in Hnd. apply list.NoDup_cons in Hnd as [Hfresh Hnd].
  rewrite combat_sections_cons.
  destruct (isCurrentlyEngaged bot0) eqn:Hengaged; cbn [app].
  - destruct (Hdelta id0 bot0) as [entry Hentry]; [apply list_elem_of_here|done|].
    set (shot := VList [currentX bot0; currentY bot0; targetX bot0; targetY bot0]).
    set (s1 := set_gameStateUpdates
                 (<[id0 := <["weapon_fire" := shot]> entry]> (gameStateUpdates s)) s).
    assert (run_section (FireUpdate id0 [currentX bot0; currentY bot0;
                                         targetX bot0; targetY bot0]) s
            = Returns tt s1) as Hfire.
    { cbn [run_section]. unfold set_update_item. by erewrite set_item_Some. }
    destruct (IH s1 Hnd) as (s' & Hrun & Ha & Hg & Hb & Hfired & Hrest).
    { intros botId bot Hin Heng. subst s1. cbn.
      rewrite lookup_insert_ne; [by eapply Hdelta; [apply list_elem_of_further|]|].
      intros <-. apply Hfresh, list_elem_of_fmap. by exists (id0, bot). }
    exists s'. split.
    { cbn [run_sections]. by rewrite (bind_Returns _ _ _ _ _ Hfire). }
    do 3 (split; [done|]). split.
    + intros botId bot Hin Heng. apply elem_of_cons in Hin as [[= -> ->]|Hin].
      * rewrite Hrest.
        -- subst s1. cbn. by rewrite lookup_insert_eq, Hentry.
        -- intros bot Hin. destruct Hfresh. apply list_elem_of_fmap.
           by exists (id0, bot).
      * rewrite (Hfired botId bot Hin Heng). subst s1. cbn.
        rewrite lookup_insert_ne; [done|]. intros <-. apply Hfresh, list_elem_of_fmap.
        by exists (id0, bot).
    + intros botId Hidle. rewrite Hrest.
      * subst s1. cbn. rewrite lookup_insert_ne; [done|]. intros <-.
        specialize (Hidle bot0 (list_elem_of_here _ _)). congruence.
      * intros bot Hin. apply Hidle. by apply list_elem_of_further.
  - destruct (IH s Hnd) as (s' & Hrun & Ha & Hg & Hb & Hfired & Hrest).
    { intros botId bot Hin. apply Hdelta. by apply list_elem_of_further. }
    exists s'. split; [done|]. do 3 (split; [done|]). split.
    + intros botId bot Hin Heng. apply elem_of_cons in Hin as [[= -> ->]|Hin];
        [congruence|by apply Hfired].
    + intros botId Hidle. apply Hrest. intros bot Hin. apply Hidle.
      by apply list_elem_of_further.
Qed.

(** X18. When every engaged bot has a delta, the combat pass returns; the
    delta of each engaged bot gets the field "weapon_fire" with the bot's
    position and its target, replacing an earlier shot and keeping the
    other fields; the deltas of the other entities, [activePlayerData], the
    bot registry and the grid are left as they were.  (A bot needs no
    record in [activePlayerData] for this.) *)
Theorem combat_pass_queues_fire_of_engaged_bots (s : Server) :
  (∀ botId bot, enhancedBotManager s !! botId = Some bot →
     isCurrentlyEngaged bot = true → is_Some (gameStateUpdates s !! botId)) →
  ∃ s',
    _processEnhancedBotCombat s = Returns tt s'
    ∧ activePlayerData s' = activePlayerData s
    ∧ spatialPlayerGrid s' = spatialPlayerGrid s
    ∧ enhancedBotManager s' = enhancedBotManager s
    ∧ (∀ botId bot, enhancedBotManager s !! botId = Some bot →
         isCurrentlyEngaged bot = true →
         gameStateUpdates s' !! botId
         = <["weapon_fire" :=
               VList [currentX bot; currentY bot; targetX bot; targetY bot]]>
           <$> gameStateUpdates s !! botId)
    ∧ (∀ botId, (∀ bot, enhancedBotManager s !! botId = Some bot →
                        isCurrentlyEngaged bot = false) →
         gameStateUpdates s' !! botId = gameStateUpdates s !! botId).
Proof.
  intros Hdelta.
  destruct (combat_sections_run (activeBots s) s) as (s' & Hrun & Ha & Hg & Hb & Hfired & Hrest).
  { apply NoDup_fst_map_to_list. }
  { intros botId bot Hin. apply Hdelta. by apply elem_of_map_to_list. }
  exists s'. split.
  { unfold _processEnhancedBotCombat.
    by rewrite (bind_Returns _ _ s s s) by reflexivity. }
  do 3 (split; [done|]). split.
  - intros botId bot Hbot. apply Hfired. by apply elem_of_map_to_list.
  - intros botId Hidle. apply Hrest. intros bot Hin. apply Hidle.
    by apply elem_of_map_to_list.
Qed.

Lemma spawning_no_bots_changes_nothing_witness :
  0 ≤ 0
  ∧ _generateOptimizedSpawnPositions elements 0 (regionBoundaries example_server)
      example_server = Returns [] example_server
  ∧ spawnEnhancedBotsInRegion elements example_EnhancedBot_new 0 example_server
    = Returns tt example_server.
Proof.
  assert (0 ≤ 0) as H0 by lia.
  split; [exact H0|].
  exact (spawning_no_bots_changes_nothing elements elements_perm_refl
           example_EnhancedBot_new 0 example_server H0).
Defined.

Lemma spawning_in_negative_region_raises_witness :
  1 ≤ 25
  ∧ (serverBoundaryCoordinates (example_server_with_bounds (2000, -1))).2 < 0
  ∧ ∃ s',
      spawnEnhancedBotsInRegion elements example_EnhancedBot_new 25
        (example_server_with_bounds (2000, -1)) = Raises ValueError s'
      ∧ enhancedBotManager s' = enhancedBotManager example_server.
Proof.
  assert (1 ≤ 25) as H1 by lia.
  assert ((serverBoundaryCoordinates (example_server_with_bounds (2000, -1))).2 < 0)
    as Hneg by (cbn; lia).
  do 2 (split; [done|]).
  destruct (spawning_in_negative_region_raises elements example_EnhancedBot_new 25
              (example_server_with_bounds (2000, -1)) H1 (or_intror Hneg))
    as (s' & Hraise & _ & _ & Hbots & _).
  exists s'. split; [exact Hraise|exact Hbots].
Defined.

Lemma fewer_positions_only_at_the_cap_witness :
  1 ≤ 3
  ∧ ∃ spawnPositions st s',
      _generateOptimizedSpawnPositions elements 3 (2000, 0) example_server
        = Returns spawnPositions s'
      ∧ spawnPositions ≠ []
      ∧ (Z.of_nat (length spawnPositions) < 3 → attempts st = 10 * 3).
Proof.
  assert (1 ≤ 3) as H3 by lia.
  assert (0 ≤ (serverBoundaryCoordinates example_server).1) as HW by (cbn; lia).
  assert (0 ≤ (serverBoundaryCoordinates example_server).2) as HH by (cbn; lia).
  split; [done|].
  destruct (fewer_positions_only_at_the_cap elements elements_perm_refl
              example_EnhancedBot_new 3 (2000, 0) example_server H3 HW HH)
    as (spawnPositions & st & _ & Hgen & Hsome & Hcap & _).
  exists spawnPositions, st, (after_draws (2 * Z.to_nat (attempts st)) example_server).
  split; [exact Hgen|]. split; [exact Hsome|exact Hcap].
Defined.

Lemma cramped_region_holds_one_bot_witness :
  0 ≤ (serverBoundaryCoordinates example_fresh_server).1 < 100
  ∧ 0 ≤ (serverBoundaryCoordinates example_fresh_server).2 < 100
  ∧ ∃ p st s',
      _generateOptimizedSpawnPositions elements 25 (regionBoundaries example_fresh_server)
        example_fresh_server = Returns [p] s'
      ∧ (2 ≤ 25 → attempts st = 10 * 25).
Proof.
  assert (1 ≤ 25) as H1 by lia.
  assert (0 ≤ (serverBoundaryCoordinates example_fresh_server).1 < 100)
    as HW by (cbn; lia).
  assert (0 ≤ (serverBoundaryCoordinates example_fresh_server).2 < 100)
    as HH by (cbn; lia).
  do 2 (split; [done|]).
  destruct (cramped_region_holds_one_bot elements elements_perm_refl
              example_EnhancedBot_new 25 (regionBoundaries example_fresh_server) example_fresh_server H1 HW HH)
    as (p & st & _ & Hgen & _ & Hcap).
  exists p, st, (after_draws (2 * Z.to_nat (attempts st)) example_fresh_server).
  split; [exact Hgen|exact Hcap].
Defined.

Lemma spawning_overwrites_first_ids_only_witness :
  0 ≤ 1
  ∧ ∃ (spawnPositions : list (Z * Z)) s',
      spawnEnhancedBotsInRegion elements example_EnhancedBot_new 1 example_server
        = Returns tt s'
      ∧ (∀ other, other < 0 ∨ Z.of_nat (length spawnPositions) ≤ other →
           activePlayerData s' !! other = activePlayerData example_server !! other
           ∧ gameStateUpdates s' !! other = gameStateUpdates example_server !! other
           ∧ enhancedBotManager s' !! other = enhancedBotManager example_server !! other
           ∧ ∀ c, in_cell s' other c ↔ in_cell example_server other c)
      ∧ (∀ j x y, spawnPositions !! j = Some (x, y) →
           store_position s' (Z.of_nat j) = Some (x, y)
           ∧ gameStateUpdates s' !! Z.of_nat j = Some ∅).
Proof.
  assert (0 ≤ 1) as H1 by lia.
  assert (0 ≤ (serverBoundaryCoordinates example_server).1) as HW by (cbn; lia).
  assert (0 ≤ (serverBoundaryCoordinates example_server).2) as HH by (cbn; lia).
  split; [done|].
  destruct (spawning_overwrites_first_ids_only elements elements_perm_refl
              example_EnhancedBot_new 1 example_server H1 HW HH)
    as (spawnPositions & s' & Hrun & _ & _ & Hframe & Hbots).
  exists spawnPositions, s'. split; [exact Hrun|]. split; [exact Hframe|].
  intros j x y Hj. destruct (Hbots j x y Hj) as (_ & _ & Hstore & Hdelta).
  split; [exact Hstore|exact Hdelta].
Defined.

Lemma movement_with_missing_entry_raises_witness :
  enhancedBotManager example_dropped_server !! 0 = Some example_bot
  ∧ ¬ registered example_dropped_server 0
  ∧ ∃ s', _processEnhancedBotMovement example_dropped_server = Raises KeyError s'
          ∧ bot_tick example_dropped_server = Returns tt s'.
Proof.
  assert (enhancedBotManager example_dropped_server !! 0 = Some example_bot) as Hbot
    by apply lookup_singleton_eq.
  assert (¬ registered example_dropped_server 0) as Hunreg.
  { intros [[e He] _]. cbn in He. by rewrite lookup_empty in He. }
  do 2 (split; [done|]).
  exact (proj2 (proj2 (movement_with_missing_entry_raises example_dropped_server 0
                         example_bot Hbot eq_refl Hunreg))).
Defined.

Lemma combat_pass_queues_fire_of_engaged_bots_witness :
  ∃ s',
    _processEnhancedBotCombat example_engaged_server = Returns tt s'
    ∧ gameStateUpdates s' !! 0
      = Some (<["weapon_fire" := VList [1500; 0; 40; 60]]> ∅).
Proof.
  destruct (combat_pass_queues_fire_of_engaged_bots example_engaged_server)
    as (s' & Hrun & _ & _ & _ & Hfired & _).
  - intros botId bot Hbot _. cbn in Hbot.
    apply lookup_singleton_Some in Hbot as [<- _]. cbn.
    rewrite lookup_insert_eq. by eexists.
  - exists s'. split; [exact Hrun|].
    rewrite (Hfired 0 example_gunner); [|apply lookup_singleton_eq|reflexivity].
    cbn. by rewrite lookup_insert_eq.
Defined.

(** ** Discovery while nothing usable arrives *)

Section Discovery.

Variable udp_recvfrom : nat → result string.
Variable decodable : string → bool.
Variable _processLoadBalancerHandshake : nat → string → M bool.
Variable _sendLoadBalancerAcknowledgment : nat → M unit.
Variable _receiveConnectionConfirmation : nat → M bool.

#[local] Abbreviation discovery_loop :=
  (establish_loop udp_recvfrom decodable _processLoadBalancerHandshake
     _sendLoadBalancerAcknowledgment _receiveConnectionConfirmation).

Lemma set_loadBalancerSocket_twice (a b : nat) (s : Server) :
  set_loadBalancerSocket a (set_loadBalancerSocket b s) = set_loadBalancerSocket a s.
Proof. reflexivity. Qed.

Lemma set_loadBalancerSocket_same (s : Server) :
  set_loadBalancerSocket (loadBalancerSocket s) s = s.
Proof. by destruct s. Qed.

Lemma establish_loop_idle (fuel : nat) :
  ∀ t s,
    isConnectedToLoadBalancer s = false →
    (∀ k, (k < fuel)%nat → nothing_usable (udp_recvfrom (t + k)) decodable = true) →
    discovery_loop fuel t s
    = Unfinished (set_loadBalancerSocket
                    (loadBalancerSocket s + replaced_sockets udp_recvfrom decodable t fuel)
                    s).
Proof.
  induction fuel as [|fuel IH]; intros t s Hflag Hnothing; cbn [establish_loop];
    rewrite Hflag.
  { cbn. by rewrite Nat.add_0_r, set_loadBalancerSocket_same. }
  pose proof (Hnothing O (Nat.lt_0_succ _)) as Hnow. rewrite Nat.add_0_r in Hnow.
  assert (∀ k, (k < fuel)%nat →
            nothing_usable (udp_recvfrom (S t + k)) decodable = true) as Hlater.
  { intros k Hk. replace (S t + k)%nat with (t + S k)%nat by lia.
    apply Hnothing. lia. }
  cbn [replaced_sockets]. unfold handshake_round, nothing_usable, replaces_socket in *.
  destruct (udp_recvfrom t) as [udpData|e].
  - apply negb_true_iff in Hnow. rewrite Hnow. cbn.
    rewrite IH; [|exact Hflag|exact Hlater].
    rewrite set_loadBalancerSocket_twice. cbn. do 2 f_equal. lia.
  - destruct e; cbn;
      (rewrite IH; [|exact Hflag|exact Hlater]);
      rewrite ?set_loadBalancerSocket_twice; cbn; do 2 f_equal; lia.
Qed.

Lemma replaced_sockets_timeouts (t n : nat) :
  (∀ k, udp_recvfrom (t + k) = Err socket_timeout) →
  replaced_sockets udp_recvfrom decodable t n = O.
Proof.
  revert t. induction n as [|n IH]; intros t Htimeout; [done|].
  cbn. pose proof (Htimeout O) as Hnow. rewrite Nat.add_0_r in Hnow. rewrite Hnow. cbn.
  apply IH. intros k. replace (S t + k)%nat with (t + S k)%nat by lia. apply Htimeout.
Qed.

Lemma replaced_sockets_le (t n : nat) :
  (replaced_sockets udp_recvfrom decodable t n ≤ n)%nat.
Proof.
  revert t. induction n as [|n IH]; intros t; [done|].
  cbn [replaced_sockets]. specialize (IH (S t)).
  destruct (replaces_socket _ _); lia.
Qed.

(** X19. While no datagram that decodes arrives (timeouts, other errors
    of the receive, undecodable data), the discovery loop neither returns
    nor raises, however long it runs: the link stays down, no thread is
    started, the three steps of the exchange are not reached, and the only
    thing that changes is [loadBalancerSocket], replaced once per round
    that failed otherwise than by a timeout.  Under timeouts alone the
    server stays exactly as it was. *)
Theorem discovery_waits_while_nothing_usable_arrives (s : Server) :
  isConnectedToLoadBalancer s = false →
  (∀ t, nothing_usable (udp_recvfrom t) decodable = true) →
  ∀ fuel,
    _establishLoadBalancerConnection udp_recvfrom decodable
      _processLoadBalancerHandshake _sendLoadBalancerAcknowledgment
      _receiveConnectionConfirmation fuel s
    = Unfinished (set_loadBalancerSocket
                    (loadBalancerSocket s + replaced_sockets udp_recvfrom decodable O fuel)
                    s)
    ∧ (replaced_sockets udp_recvfrom decodable O fuel ≤ fuel)%nat
    ∧ ((∀ t, udp_recvfrom t = Err socket_timeout) →
       _establishLoadBalancerConnection udp_recvfrom decodable
         _processLoadBalancerHandshake _sendLoadBalancerAcknowledgment
         _receiveConnectionConfirmation fuel s = Unfinished s).
Proof.
  intros Hflag Hnothing fuel.
  assert (_establishLoadBalancerConnection udp_recvfrom decodable
            _processLoadBalancerHandshake _sendLoadBalancerAcknowledgment
            _receiveConnectionConfirmation fuel s
          = Unfinished (set_loadBalancerSocket
                          (loadBalancerSocket s
                           + replaced_sockets udp_recvfrom decodable O fuel) s)) as Hrun.
  { unfold _establishLoadBalancerConnection. apply establish_loop_idle; [done|].
    intros k _. apply Hnothing. }
  split; [done|]. split.
  - apply replaced_sockets_le.
  - intros Htimeout. rewrite Hrun, replaced_sockets_timeouts by (intros; apply Htimeout).
    by rewrite Nat.add_0_r, set_loadBalancerSocket_same.
Qed.

End Discovery.

Lemma discovery_waits_while_nothing_usable_arrives_witness :
  isConnectedToLoadBalancer example_disconnected = false
  ∧ _establishLoadBalancerConnection example_silent_recvfrom (λ _, true)
      example_process example_send example_confirm 4 example_disconnected
    = Unfinished (set_loadBalancerSocket 2 example_disconnected).
Proof.
  assert (isConnectedToLoadBalancer example_disconnected = false) as Hflag
    by reflexivity.
  split; [exact Hflag|].
  refine (proj1 (discovery_waits_while_nothing_usable_arrives example_silent_recvfrom
                   (λ _, true) example_process example_send example_confirm
                   example_disconnected Hflag _ 4)).
  intros t. unfold example_silent_recvfrom. by destruct (Nat.even t).
Defined.

(** ** Errors while the load-balancer protocol is set up *)

Section ProtocolSetUp.

Variable iter_positions : gset (Z * Z) → list (Z * Z).
Variable EnhancedBot_new :
  Z → Z → bool → Z → Z → KDTree → gmap Point Tile → EnhancedBot.
Variable loadBalancerHandlers : lb_tag → nat → M unit.

(** X20. Only the communication loop of [_handleLoadBalancerProtocol] is
    inside a [try]: when the two set-up handlers return and leave a region
    with a negative boundary coordinate, the spawn of the 25 bots raises
    ValueError and the error leaves the method; no bot is registered, the
    communication loop is never entered, and [isConnectedToLoadBalancer]
    stays as the handlers left it (an error inside the loop would have
    cleared it). *)
Theorem setup_error_escapes_with_link_up (fuel : nat) (s s1 s2 : Server) :
  loadBalancerHandlers GET_SERVER_INDEX O s = Returns tt s1 →
  loadBalancerHandlers GET_REGION_BOUNDARIES O s1 = Returns tt s2 →
  (serverBoundaryCoordinates s2).1 < 0 ∨ (serverBoundaryCoordinates s2).2 < 0 →
  ∃ s',
    _handleLoadBalancerProtocol iter_positions EnhancedBot_new loadBalancerHandlers
      fuel s = Raises ValueError s'
    ∧ isConnectedToLoadBalancer s' = isConnectedToLoadBalancer s2
    ∧ activePlayerData s' = activePlayerData s2
    ∧ gameStateUpdates s' = gameStateUpdates s2
    ∧ enhancedBotManager s' = enhancedBotManager s2
    ∧ spatialPlayerGrid s' = spatialPlayerGrid s2.
Proof.
  intros Hindex Hregion Hneg.
  destruct (generate_raises_on_empty_range iter_positions 25 (regionBoundaries s2) s2)
    as (s' & Hraise & Ha & Hu & Hb & Hg & Hflag & _); [lia|done|].
  exists s'. split; [|done].
  unfold _handleLoadBalancerProtocol.
  rewrite (bind_Returns _ _ _ _ _ Hindex), (bind_Returns _ _ _ _ _ Hregion).
  unfold spawnEnhancedBotsInRegion.
  unfold mbind, M_bind, get. rewrite Hraise. reflexivity.
Qed.

End ProtocolSetUp.

Lemma setup_error_escapes_with_link_up_witness :
  (serverBoundaryCoordinates (example_server_with_bounds (-1, 2000))).1 < 0
  ∧ ∃ s',
      _handleLoadBalancerProtocol elements example_EnhancedBot_new example_handlers
        3 (example_server_with_bounds (-1, 2000)) = Raises ValueError s'
      ∧ isConnectedToLoadBalancer s' = true.
Proof.
  assert ((serverBoundaryCoordinates (example_server_with_bounds (-1, 2000))).1 < 0)
    as Hneg by (cbn; lia).
  split; [exact Hneg|].
  destruct (setup_error_escapes_with_link_up elements example_EnhancedBot_new
              example_handlers 3 (example_server_with_bounds (-1, 2000))
              (example_server_with_bounds (-1, 2000))
              (example_server_with_bounds (-1, 2000)) eq_refl eq_refl (or_introl Hneg))
    as (s' & Hraise & Hflag & _).
  exists s'. split; [exact Hraise|exact Hflag].
Defined.
